(** * argostranslate/translate.py: translation graph and pivot resolution

    A shallow embedding of [argostranslate/translate.py].

    - Python [str] is [string]; hypothesis scores are taken in [Z]
      (the code only adds and compares them; [IdentityTranslation]
      itself uses the integer [0]) wherever a statement does not depend
      on their arithmetic.  What depends on it (the order a composite
      edge returns, the scores [apply_packaged_translation] sums) is
      stated over binary64 floats, in [FloatScores] and [Packaged].
    - A Python call either returns a value or raises: [result].
    - A [Language] object is created once per code by the graph builder
      ([language_of_code]) and its [code] is never reassigned, so a
      reference to a [Language] held by an edge ([from_lang], [to_lang])
      is modelled by that code, and the objects themselves live in a
      store that keeps the insertion order of the dict. *)

From Stdlib Require Import List Ascii String ZArith Arith Bool Lia.
From Stdlib Require Import Permutation Sorted Relations.
From Stdlib Require Floats.
Import ListNotations.
Open Scope string_scope.
Open Scope list_scope.

Set Implicit Arguments.

(** ** Outcomes of a call *)

Inductive exn : Type :=
| IndexError
| NameError
| UnboundLocalError
| AttributeError.

(** [Exhausted] is the outcome of a run whose iteration budget is used up;
    [closure_fuel_enough] shows that the builder never produces it. *)
Inductive result (A : Type) : Type :=
| Ok (a : A)
| Raise (e : exn)
| Exhausted.

Arguments Ok {A} a.
Arguments Raise {A} e.
Arguments Exhausted {A}.

Definition bind {A B : Type} (m : result A) (k : A -> result B) : result B :=
  match m with
  | Ok a => k a
  | Raise e => Raise e
  | Exhausted => Exhausted
  end.

Notation "x <- m ;; k" := (bind m (fun x => k))
  (at level 61, m at next level, right associativity).

(** [for x in l: acc = body acc x], stopping at the first exception. *)
Fixpoint for_each {A S : Type} (body : S -> A -> result S) (l : list A) (s : S)
  : result S :=
  match l with
  | [] => Ok s
  | x :: l' => s' <- body s x ;; for_each body l' s'
  end.

(** ** class Hypothesis ([Hypothesis] is reserved in Rocq: [Hyp]) *)

Record Hyp : Type := mkHyp {
  value : string;
  score : Z
}.

(** [Hypothesis.__lt__] *)
Definition Hyp_lt (self other : Hyp) : bool :=
  (score self <? score other)%Z.

(** ** list.sort

    [list.sort] is a stable sort that compares with [<] only.  The result
    of a stable sort is determined by the input, so it is modelled by
    insertion: an element goes in front of the first later element that
    is not smaller than it. *)
Section Sort.
Variable A : Type.
Variable lt : A -> A -> bool.

Fixpoint insert (x : A) (l : list A) : list A :=
  match l with
  | [] => [x]
  | y :: l' => if lt y x then y :: insert x l' else x :: y :: l'
  end.

Fixpoint sort (l : list A) : list A :=
  match l with
  | [] => []
  | x :: l' => insert x (sort l')
  end.
End Sort.

(** ** Packages (argostranslate.package.Package, the fields read here) *)

Record Package : Type := mkPackage {
  pkg_type : string;
  from_code : string;
  from_name : string;
  to_code : string;
  to_name : string;
  package_path : string
}.

(** ** Translations

    The classes that implement [ITranslation].  An edge holds its two
    languages by code; [FewShotTranslation.hypotheses] also reads the
    names of its two languages, which are fixed when the language is
    created, so that edge carries them too. *)

Inductive ITranslation : Type :=
| PackageTranslation (from_lang to_lang : string) (pkg : Package)
| IdentityTranslation (lang : string)
| CompositeTranslation (t1 t2 : ITranslation)
| RemoteTranslation (from_lang to_lang : string)
| FewShotTranslation (from_lang from_lang_name to_lang to_lang_name : string).

(** [self.from_lang], as the code of the referenced language. *)
Fixpoint from_lang (t : ITranslation) : string :=
  match t with
  | PackageTranslation f _ _ => f
  | IdentityTranslation l => l
  | CompositeTranslation t1 _ => from_lang t1
  | RemoteTranslation f _ => f
  | FewShotTranslation f _ _ _ => f
  end.

(** [self.to_lang], as the code of the referenced language. *)
Fixpoint to_lang (t : ITranslation) : string :=
  match t with
  | PackageTranslation _ t _ => t
  | IdentityTranslation l => l
  | CompositeTranslation _ t2 => to_lang t2
  | RemoteTranslation _ t => t
  | FewShotTranslation _ _ t _ => t
  end.

(** The collaborators of the module: inference backend, remote API,
    sentence chunker and few-shot helpers. *)
Record Backends : Type := mkBackends {
  (** [apply_packaged_translation(pkg, input_text, translator, n)]: it
      drives the tokenizer and the inference engine, and is taken as a
      whole *)
  apply_packaged_translation : Package -> string -> nat -> result (list Hyp);
  (** [api.translate(input_text, from_code, to_code)] *)
  api_translate : string -> string -> string -> string;
  (** [chunk.chunk] *)
  chunk : string -> list string;
  (** [fewshot.generate_prompt] *)
  generate_prompt : string -> string -> string -> string -> string -> string;
  (** [language_model.infer] *)
  infer : string -> string;
  (** [fewshot.parse_inference] *)
  parse_inference : string -> string
}.

Section Hypotheses.
Variable B : Backends.

(** [IdentityTranslation.hypotheses] *)
Definition IdentityTranslation_hypotheses (input_text : string)
    (num_hypotheses : nat) : list Hyp :=
  map (fun _ => mkHyp input_text 0) (seq 0 num_hypotheses).

(** [RemoteTranslation.hypotheses] *)
Definition RemoteTranslation_hypotheses (from_code to_code input_text : string)
    (num_hypotheses : nat) : list Hyp :=
  let result := api_translate B input_text from_code to_code in
  repeat (mkHyp result 0) num_hypotheses.

(** [FewShotTranslation.hypotheses].  [to_return] is a local name of the
    method; it has no binding when the loop starts, so it is carried as
    an [option] and reading it unbound raises. *)
Definition FewShotTranslation_hypotheses
    (from_name from_code to_name to_code input_text : string)
    (num_hypotheses : nat) : result (list Hyp) :=
  let sentences := chunk B input_text in
  to_return <-
    for_each
      (fun (to_return : option string) sentence =>
         let prompt :=
           generate_prompt B sentence from_name from_code to_name to_code in
         let response := infer B prompt in
         let result := parse_inference B response in
         match to_return with
         | None => Raise UnboundLocalError
         | Some s => Ok (Some (s ++ result)%string)
         end)
      sentences None ;;
  match to_return with
  | None => Raise UnboundLocalError
  | Some s => Ok (repeat (mkHyp s 0) num_hypotheses)
  end.

(** The body of the two loops of [CompositeTranslation.hypotheses]:
    [t2h] is [self.t2.hypotheses]. *)
Definition combine_hypotheses (t2h : string -> result (list Hyp))
    (t1_hypotheses : list Hyp) : result (list Hyp) :=
  for_each
    (fun to_return t1_hypothesis =>
       t2_hypotheses <- t2h (value t1_hypothesis) ;;
       Ok (fold_left
             (fun to_return t2_hypothesis =>
                to_return ++
                [mkHyp (value t2_hypothesis)
                   (score t1_hypothesis + score t2_hypothesis)%Z])
             t2_hypotheses to_return))
    t1_hypotheses [].

(** [ITranslation.hypotheses], dispatched on the class of the edge. *)
Fixpoint hypotheses (t : ITranslation) (input_text : string)
    (num_hypotheses : nat) {struct t} : result (list Hyp) :=
  match t with
  | PackageTranslation _ _ pkg =>
      apply_packaged_translation B pkg input_text num_hypotheses
  | IdentityTranslation _ =>
      Ok (IdentityTranslation_hypotheses input_text num_hypotheses)
  | CompositeTranslation t1 t2 =>
      t1_hypotheses <- hypotheses t1 input_text num_hypotheses ;;
      to_return <-
        combine_hypotheses
          (fun text => hypotheses t2 text num_hypotheses) t1_hypotheses ;;
      let to_return := sort Hyp_lt to_return in
      Ok (firstn num_hypotheses to_return)
  | RemoteTranslation f t =>
      Ok (RemoteTranslation_hypotheses f t input_text num_hypotheses)
  | FewShotTranslation f fname t tname =>
      FewShotTranslation_hypotheses fname f tname t input_text num_hypotheses
  end.

(** [ITranslation.translate]: [self.hypotheses(input_text, 1)[0].value] *)
Definition translate_with (t : ITranslation) (input_text : string)
    : result string :=
  hs <- hypotheses t input_text 1 ;;
  match hs with
  | h :: _ => Ok (value h)
  | [] => Raise IndexError
  end.
End Hypotheses.

(** ** Language *)

Record Language : Type := mkLanguage {
  code : string;
  name : string;
  translations_from : list ITranslation;
  translations_to : list ITranslation
}.

(** [Language.get_translation]: [x.to_lang.code] is the code the edge
    refers to, [to.code] is read from the argument. *)
Definition get_translation (self to : Language) : option ITranslation :=
  let valid_translations :=
    filter (fun x => to_lang x =? code to) (translations_from self) in
  match valid_translations with
  | x :: _ => Some x
  | [] => None
  end.

(** ** The store of Language objects

    [language_of_code]: one object per code, in insertion order
    ([list(language_of_code.values())] is the store itself). *)
Definition store : Type := list Language.

(** [code in language_of_code] *)
Definition contains (c : string) (g : store) : bool :=
  existsb (fun l => code l =? c) g.

(** The object a reference points to.  A reference to a code that has no
    object stands for a language without edges; [wf_dest] states that a
    built graph has no such reference. *)
Definition deref (g : store) (c : string) : Language :=
  match find (fun l => code l =? c) g with
  | Some l => l
  | None => mkLanguage c "" [] []
  end.

(** In-place mutation of the object with code [c]. *)
Definition update (c : string) (f : Language -> Language) (g : store) : store :=
  map (fun l => if code l =? c then f l else l) g.

(** [lang.translations_from.append(t)] *)
Definition append_from (t : ITranslation) (l : Language) : Language :=
  mkLanguage (code l) (name l) (translations_from l ++ [t]) (translations_to l).

(** [lang.translations_to.append(t)] *)
Definition append_to (t : ITranslation) (l : Language) : Language :=
  mkLanguage (code l) (name l) (translations_from l) (translations_to l ++ [t]).

(** ** get_installed_languages, OPENNMT provider *)

(** [if c not in language_of_code: language_of_code[c] = Language(c, n)] *)
Definition ensure_language (c n : string) (language_of_code : store) : store :=
  if contains c language_of_code then language_of_code
  else language_of_code ++ [mkLanguage c n [] []].

(** Body of [for pkg in packages]. *)
Definition load_package (language_of_code : store) (pkg : Package) : store :=
  let language_of_code :=
    ensure_language (from_code pkg) (from_name pkg) language_of_code in
  let language_of_code :=
    ensure_language (to_code pkg) (to_name pkg) language_of_code in
  let translation_to_add :=
    PackageTranslation (from_code pkg) (to_code pkg) pkg in
  let language_of_code :=
    update (from_code pkg) (append_from translation_to_add) language_of_code in
  update (to_code pkg) (append_to translation_to_add) language_of_code.

Definition load_packages (packages : list Package) : store :=
  fold_left load_package packages [].

(** Body of [for language in languages] that adds the identity edges;
    [c] is the code of [language]. *)
Definition add_identity (g : store) (c : string) : store :=
  let identity_translation := IdentityTranslation c in
  update c (append_to identity_translation)
    (update c (append_from identity_translation) g).

Definition add_identities (g : store) : store :=
  fold_left add_identity (map code g) g.

(** The two appends of the pivot loop; [c] is the code of [language]. *)
Definition add_composite (c : string) (translation translation_2 : ITranslation)
    (g : store) : store :=
  let composite_translation := CompositeTranslation translation translation_2 in
  update (to_lang translation_2) (append_to composite_translation)
    (update c (append_from composite_translation) g).

(** [for translation_2 in translation.to_lang.translations_from], from
    position [j].  A Python [for] over a list reads the list by position
    and sees what is appended while it runs, so the list is read again
    from the store at every position. *)
Fixpoint pivot_inner (fuel : nat) (c : string) (translation : ITranslation)
    (j : nat) (g : store) (keep_adding_translations : bool)
  : result (store * bool) :=
  match fuel with
  | O => Exhausted
  | S fuel' =>
      match nth_error (translations_from (deref g (to_lang translation))) j with
      | None => Ok (g, keep_adding_translations)
      | Some translation_2 =>
          match get_translation (deref g c) (deref g (to_lang translation_2)) with
          | None =>
              pivot_inner fuel' c translation (S j)
                (add_composite c translation translation_2 g) true
          | Some _ =>
              pivot_inner fuel' c translation (S j) g keep_adding_translations
          end
      end
  end.

(** [for translation in language.translations_from], from position [i]. *)
Fixpoint pivot_outer (fuel : nat) (c : string) (i : nat) (g : store)
    (keep_adding_translations : bool) : result (store * bool) :=
  match fuel with
  | O => Exhausted
  | S fuel' =>
      match nth_error (translations_from (deref g c)) i with
      | None => Ok (g, keep_adding_translations)
      | Some translation =>
          r <- pivot_inner fuel' c translation 0 g keep_adding_translations ;;
          pivot_outer fuel' c (S i) (fst r) (snd r)
      end
  end.

(** [while keep_adding_translations] *)
Fixpoint pivot_while (fuel : nat) (c : string) (g : store) : result store :=
  match fuel with
  | O => Exhausted
  | S fuel' =>
      r <- pivot_outer fuel' c 0 g false ;;
      if snd r then pivot_while fuel' c (fst r) else Ok (fst r)
  end.

(** Number of outgoing edges held in the store. *)
Definition total_edges (g : store) : nat :=
  list_sum (map (fun l => List.length (translations_from l)) g).

(** Iteration budget given to the pivot loops of one language. *)
Definition pivot_fuel (g : store) : nat :=
  3 * (total_edges g + List.length g) + 3.

(** Body of the pivot [for language in languages]. *)
Definition close_language (g : store) (c : string) : result store :=
  pivot_while (pivot_fuel g) c g.

Definition pivot_all (g : store) : result store :=
  for_each close_language (map code g) g.

(** ** Ordering of the returned list *)

(** The [enumerate] loop that looks for ["en"]. *)
Fixpoint find_en (i : nat) (languages : list Language) : option nat :=
  match languages with
  | [] => None
  | language :: rest =>
      if code language =? "en" then Some i else find_en (S i) rest
  end.

(** [sort(key=lambda x: x.name)] compares the keys with [<]. *)
Definition name_lt (a b : Language) : bool := String.ltb (name a) (name b).

Definition english_first (languages : list Language) : list Language :=
  let en_index := find_en 0 languages in
  match en_index with
  | Some i =>
      match nth_error languages i with
      | Some english =>
          let languages := firstn i languages ++ skipn (S i) languages in
          english :: sort name_lt languages
      | None => sort name_lt languages
      end
  | None => sort name_lt languages
  end.

(** ** get_installed_languages *)

Inductive ModelProvider : Type := OPENNMT | LIBRETRANSLATE | OPENAI.

(** What the function reads from outside the module. *)
Record Env : Type := mkEnv {
  (** [settings.model_provider] *)
  model_provider : ModelProvider;
  (** [package.get_installed_packages()] *)
  installed_packages : list Package;
  (** [apis.LibreTranslateAPI().languages()], as (code, name) *)
  libretranslate_languages : list (string * string)
}.

(** Body of the two loops of the OPENAI branch. *)
Definition add_fewshot (languages : store) (from_l to_l : Language) : store :=
  let translation :=
    FewShotTranslation (code from_l) (name from_l) (code to_l) (name to_l) in
  update (code to_l) (append_to translation)
    (update (code from_l) (append_from translation) languages).

Definition get_installed_languages (env : Env) : result (list Language) :=
  languages <-
    match model_provider env with
    | OPENNMT =>
        let packages := installed_packages env in
        let packages := filter (fun x => pkg_type x =? "translate") packages in
        let language_of_code := load_packages packages in
        let languages := add_identities language_of_code in
        pivot_all languages
    | LIBRETRANSLATE =>
        let languages :=
          map (fun l => mkLanguage (fst l) (snd l) [] [])
            (libretranslate_languages env) in
        (* the name LibreTranslateTranslation is not defined in the module *)
        for_each
          (fun g from_l =>
             for_each (fun (g : store) (to_l : Language) => Raise NameError)
               languages g)
          languages languages
    | OPENAI =>
        let languages :=
          [mkLanguage "en" "English" [] []; mkLanguage "es" "Spanish" [] []] in
        Ok (fold_left
              (fun g from_l =>
                 fold_left (fun g to_l => add_fewshot g from_l to_l) languages g)
              languages languages)
    end ;;
  Ok (english_first languages).

(** ** Lookup layer *)

Definition get_language_from_code (env : Env) (c : string) : result Language :=
  languages <- get_installed_languages env ;;
  match filter (fun x => code x =? c) languages with
  | x :: _ => Ok x
  | [] => Raise IndexError
  end.

(** [None] is Python's [None]. *)
Definition get_translation_from_codes (env : Env) (from_c to_c : string)
  : result (option ITranslation) :=
  from_l <- get_language_from_code env from_c ;;
  to_l <- get_language_from_code env to_c ;;
  Ok (get_translation from_l to_l).

(** [translate(q, from_code, to_code)]; calling a method of [None] raises. *)
Definition translate (B : Backends) (env : Env) (q from_c to_c : string)
  : result string :=
  translation <- get_translation_from_codes env from_c to_c ;;
  match translation with
  | Some t => translate_with B t q
  | None => Raise AttributeError
  end.

(** ** Scores as floats

    [Hypothesis.score] is a Python float (a log-probability of the
    inference engine): a binary64 number, with its rounding and its NaN.
    The integer [0] of the code is the float zero wherever it meets a
    float.  [list.sort] is modelled by [sort] as above; with a NaN among
    the scores [<] is not an order and what [list.sort] returns depends
    on its algorithm, so statements about the sorted list exclude NaN. *)

Module FloatScores.

Record Hyp : Type := mkHyp {
  value : string;
  score : PrimFloat.float
}.

(** [Hypothesis.__lt__] *)
Definition Hyp_lt (self other : Hyp) : bool :=
  PrimFloat.ltb (score self) (score other).

(** [CompositeTranslation.hypotheses]; [t1_hypotheses] and
    [t2_hypotheses] are [self.t1.hypotheses] and [self.t2.hypotheses]. *)
Definition CompositeTranslation_hypotheses
    (t1_hypotheses t2_hypotheses : string -> nat -> result (list Hyp))
    (input_text : string) (num_hypotheses : nat) : result (list Hyp) :=
  t1_hyps <- t1_hypotheses input_text num_hypotheses ;;
  to_return <-
    for_each
      (fun to_return t1_hypothesis =>
         t2_hyps <- t2_hypotheses (value t1_hypothesis) num_hypotheses ;;
         Ok (fold_left
               (fun to_return t2_hypothesis =>
                  to_return ++
                  [mkHyp (value t2_hypothesis)
                     (PrimFloat.add (score t1_hypothesis)
                        (score t2_hypothesis))])
               t2_hyps to_return))
      t1_hyps [] ;;
  let to_return := sort Hyp_lt to_return in
  Ok (firstn num_hypotheses to_return).

End FloatScores.

(** ** apply_packaged_translation

    The body of [apply_packaged_translation], over the three things it
    calls: the sentence chunker, the SentencePiece encoder of the
    package and the CTranslate2 translator of the package. *)

Module Packaged.

(** One entry of what [translate_batch] returns for a sentence:
    [{"tokens": ..., "score": ...}]. *)
Record BatchHypothesis : Type := mkBatchHypothesis {
  batch_tokens : list string;
  batch_score : PrimFloat.float
}.

Record Engine : Type := mkEngine {
  (** [chunk.chunk(input_text)] *)
  sentences_of : string -> list string;
  (** [sp_processor.encode(sentence, out_type=str)] for the package *)
  encode : Package -> string -> list string;
  (** [translator.translate_batch(tokenized, beam_size=.., num_hypotheses=..)]
      for the package: one list of entries per sentence *)
  translate_batch :
    Package -> list (list string) -> nat -> nat -> list (list BatchHypothesis)
}.

(** The word-boundary mark of the tokenizer, U+2581, in UTF-8. *)
Definition mark : string :=
  String "226"%char (String "150"%char (String "129"%char EmptyString)).

(** [s.replace(old, new)] for a non-empty [old]: occurrences are replaced
    from the left and do not overlap; [skip] counts the characters of an
    occurrence that are still to be passed over. *)
Fixpoint replace_from (old new : string) (skip : nat) (s : string) : string :=
  match s with
  | EmptyString => EmptyString
  | String c s' =>
      match skip with
      | S k => replace_from old new k s'
      | O =>
          if String.prefix old s
          then (new ++ replace_from old new (String.length old - 1) s')%string
          else String c (replace_from old new 0 s')
      end
  end.

Definition replace (old new s : string) : string := replace_from old new 0 s.

(** [if len(value) > 0 and value[0] == " ": value = value[1:]] *)
Definition drop_leading_space (value : string) : string :=
  match value with
  | String c rest => if Ascii.eqb c " "%char then rest else value
  | EmptyString => value
  end.

(** Body of [for i in range(num_hypotheses)]: the inner loop reads entry
    [i] of every sentence, which raises when a sentence has no such
    entry.  [cumulative_score] starts at the integer [0], which [+=]
    turns into the float zero at the first float score it meets. *)
Definition build_hypothesis (translated_batches : list (list BatchHypothesis))
    (i : nat) : result FloatScores.Hyp :=
  acc <-
    for_each
      (fun (acc : list string * PrimFloat.float) translated_batch =>
         let (translated_tokens, cumulative_score) := acc in
         match nth_error translated_batch i with
         | Some entry =>
             Ok (translated_tokens ++ batch_tokens entry,
                 PrimFloat.add cumulative_score (batch_score entry))
         | None => Raise IndexError
         end)
      translated_batches ([], PrimFloat.zero) ;;
  let detokenized := String.concat "" (fst acc) in
  let detokenized := replace mark " " detokenized in
  let value := drop_leading_space detokenized in
  Ok (FloatScores.mkHyp value (snd acc)).

Definition apply_packaged_translation (E : Engine) (pkg : Package)
    (input_text : string) (num_hypotheses : nat)
  : result (list FloatScores.Hyp) :=
  let sentences := sentences_of E input_text in
  let tokenized := map (encode E pkg) sentences in
  let translated_batches :=
    translate_batch E pkg tokenized (Nat.max num_hypotheses 4) num_hypotheses in
  for_each
    (fun value_hypotheses i =>
       hypothesis <- build_hypothesis translated_batches i ;;
       Ok (value_hypotheses ++ [hypothesis]))
    (seq 0 num_hypotheses) [].

End Packaged.

(** * Specification vocabulary *)

(** Order of the scores in a list sorted with [Hypothesis.__lt__]:
    non-decreasing, the smallest score first. *)
Definition score_le (a b : Hyp) : Prop := (score a <= score b)%Z.

(** What the spec asks of a ranked list: the best score first. *)
Definition score_ge (a b : Hyp) : Prop := (score a >= score b)%Z.

(** [Hypothesis(h2.value, h1.score + h2.score)] *)
Definition combined (h1 h2 : Hyp) : Hyp :=
  mkHyp (value h2) (score h1 + score h2)%Z.

(** The cross-product of the hypotheses of the two steps, in the order
    in which the loops produce it; [h2s h1] is what the second step
    returns for the value of [h1]. *)
Definition cross_product (h1s : list Hyp) (h2s : Hyp -> list Hyp) : list Hyp :=
  flat_map (fun h1 => map (combined h1) (h2s h1)) h1s.

(** [language.translations_from] for the language with code [c]. *)
Definition edges_from (g : store) (c : string) : list ITranslation :=
  translations_from (deref g c).

(** One execution of the two appends of the pivot loop for the language
    with code [c]: [translation] is one of its edges, [translation_2] an
    edge of the language that edge leads to, and the language has no
    translation to the destination of [translation_2]. *)
Inductive pivot_step (c : string) (g : store) : store -> Prop :=
| pivot_step_intro (translation translation_2 : ITranslation) :
    In translation (edges_from g c) ->
    In translation_2 (edges_from g (to_lang translation)) ->
    get_translation (deref g c) (deref g (to_lang translation_2)) = None ->
    pivot_step c g (add_composite c translation translation_2 g).

Definition any_step (g g' : store) : Prop :=
  exists c, In c (map code g) /\ pivot_step c g g'.

(** Well-formed store: one object per code, every edge leads to a
    language of the store and starts at the language that holds it. *)
Record wf (g : store) : Prop := mk_wf {
  wf_codes : NoDup (map code g);
  wf_dest : forall l e,
    In l g -> In e (translations_from l) -> In (to_lang e) (map code g);
  wf_from : forall l e,
    In l g -> In e (translations_from l) -> from_lang e = code l
}.

(** A pass of the pivot loops over the language [c] would add nothing. *)
Definition closed (g : store) (c : string) : Prop :=
  forall t t2,
    In t (edges_from g c) -> In t2 (edges_from g (to_lang t)) ->
    get_translation (deref g c) (deref g (to_lang t2)) <> None.

(** Number of languages the language [c] has no edge to. *)
Definition missing (g : store) (c : string) : nat :=
  List.length
    (filter
       (fun d => negb (existsb (fun x => to_lang x =? d) (edges_from g c)))
       (map code g)).

Definition is_composite (t : ITranslation) : Prop :=
  match t with
  | CompositeTranslation _ _ => True
  | _ => False
  end.

(** [l] is [base] followed by composite edges, each to a destination that
    no earlier edge of the list has. *)
Definition pivot_ext (base l : list ITranslation) : Prop :=
  exists extra,
    l = base ++ extra /\
    Forall is_composite extra /\
    NoDup (map to_lang extra) /\
    Forall (fun e => ~ In (to_lang e) (map to_lang base)) extra.

(** The packages the OPENNMT branch keeps. *)
Definition translate_packages (env : Env) : list Package :=
  filter (fun x => pkg_type x =? "translate") (installed_packages env).

(** A discovered package translates from [m] to [n]. *)
Definition direct (packages : list Package) (m n : string) : Prop :=
  exists p, In p packages /\ from_code p = m /\ to_code p = n.

(** A path of direct edges (an identity edge is a step that stays). *)
Definition path (packages : list Package) : string -> string -> Prop :=
  clos_refl_trans string (direct packages).

(** The edge [get_installed_languages] creates for a package. *)
Definition package_edge (p : Package) : ITranslation :=
  PackageTranslation (from_code p) (to_code p) p.

(** The edge pair the spec's uniqueness invariant speaks of. *)
Definition code_pair (t : ITranslation) : string * string :=
  (from_lang t, to_lang t).

(** [language.translations_to] for the language with code [c]. *)
Definition edges_to (g : store) (c : string) : list ITranslation :=
  translations_to (deref g c).

(** Every edge is listed at its two ends: it is among the outgoing edges
    of the language it starts at exactly when it is among the incoming
    edges of the language it leads to. *)
Definition mirrored (g : store) : Prop :=
  forall e c d,
    (In e (edges_from g c) /\ to_lang e = d) <->
    (In e (edges_to g d) /\ from_lang e = c).

(** Every edge leads to a language that package edges reach. *)
Definition sound (packages : list Package) (g : store) : Prop :=
  forall c e, In e (edges_from g c) -> path packages c (to_lang e).

(** The second step of every composite starts where the first ends. *)
Fixpoint chained (t : ITranslation) : Prop :=
  match t with
  | CompositeTranslation t1 t2 =>
      to_lang t1 = from_lang t2 /\ chained t1 /\ chained t2
  | _ => True
  end.

(** The edge is a package edge of one of the packages, or a composite of
    such edges: no identity edge takes part in it. *)
Fixpoint built_from (packages : list Package) (t : ITranslation) : Prop :=
  match t with
  | PackageTranslation f d p => In p packages /\ f = from_code p /\ d = to_code p
  | CompositeTranslation t1 t2 => built_from packages t1 /\ built_from packages t2
  | _ => False
  end.

(** The two steps of every composite edge of the store are themselves
    edges of the store. *)
Definition steps_are_edges (g : store) : Prop :=
  forall c t1 t2,
    In (CompositeTranslation t1 t2) (edges_from g c) ->
    In t1 (edges_from g c) /\ In t2 (edges_from g (to_lang t1)).

(** The name a language gets: that of the first package that mentions
    its code, the source side of a package before its target side. *)
Fixpoint first_name (packages : list Package) (c : string) : option string :=
  match packages with
  | [] => None
  | p :: ps =>
      if from_code p =? c then Some (from_name p)
      else if to_code p =? c then Some (to_name p)
      else first_name ps c
  end.

(** Order of a list sorted by name with [<]: no later language has a
    smaller name. *)
Definition name_le (a b : Language) : Prop := String.ltb (name b) (name a) = false.

(** The scores that entry [i] sums, in the order of the sentences. *)
Definition sentence_scores (batches : list (list Packaged.BatchHypothesis))
    (i : nat) : list PrimFloat.float :=
  flat_map (fun b => match nth_error b i with
                     | Some entry => [Packaged.batch_score entry]
                     | None => []
                     end) batches.

(** [Hypothesis(h2.value, h1.score + h2.score)], on float scores. *)
Definition float_combined (h1 h2 : FloatScores.Hyp) : FloatScores.Hyp :=
  FloatScores.mkHyp (FloatScores.value h2)
    (PrimFloat.add (FloatScores.score h1) (FloatScores.score h2)).

(** The cross-product on float scores, in the order in which the loops
    produce it. *)
Definition float_cross_product (h1s : list FloatScores.Hyp)
    (h2s : FloatScores.Hyp -> list FloatScores.Hyp) : list FloatScores.Hyp :=
  flat_map (fun h1 => map (float_combined h1) (h2s h1)) h1s.

(** Order of a list of float scores sorted with [Hypothesis.__lt__] when
    no score is NaN: non-decreasing. *)
Definition float_score_le (a b : FloatScores.Hyp) : Prop :=
  PrimFloat.leb (FloatScores.score a) (FloatScores.score b) = true.

(** A key on which the comparison of floats is the lexicographic
    comparison of triples of integers; NaN has none. *)
Definition float_key (f : SpecFloat.spec_float) : option (Z * Z * Z) :=
  match f with
  | SpecFloat.S754_nan => None
  | SpecFloat.S754_zero _ => Some (0, 0, 0)%Z
  | SpecFloat.S754_infinity s => Some (if s then (-2)%Z else 2%Z, 0%Z, 0%Z)
  | SpecFloat.S754_finite s m e =>
      Some (if s then ((-1)%Z, (- e)%Z, Z.neg m) else (1%Z, e, Z.pos m))
  end.

Definition lex (k1 k2 : Z * Z * Z) : comparison :=
  match k1, k2 with
  | (a1, b1, c1), (a2, b2, c2) =>
      match Z.compare a1 a2 with
      | Eq => match Z.compare b1 b2 with
              | Eq => Z.compare c1 c2
              | r => r
              end
      | r => r
      end
  end.

Definition lt3 (k1 k2 : Z * Z * Z) : Prop :=
  match k1, k2 with
  | (a1, b1, c1), (a2, b2, c2) =>
      (a1 < a2 \/ (a1 = a2 /\ (b1 < b2 \/ (b1 = b2 /\ c1 < c2))))%Z
  end.

Definition fkey (x : PrimFloat.float) : option (Z * Z * Z) :=
  float_key (FloatOps.Prim2SF x).

(** The tokens that entry [i] joins: those of each sentence in turn. *)
Definition sentence_tokens (batches : list (list Packaged.BatchHypothesis))
    (i : nat) : list string :=
  flat_map (fun b => match nth_error b i with
                     | Some entry => Packaged.batch_tokens entry
                     | None => []
                     end) batches.

(** A text in which the first byte of the tokenizer's mark does not
    occur. *)
Fixpoint plain (s : string) : Prop :=
  match s with
  | EmptyString => True
  | String c s' => c <> "226"%char /\ plain s'
  end.

(** A token: a piece of text, with or without the mark in front. *)
Definition token (marked : bool) (text : string) : string :=
  ((if marked then Packaged.mark else "") ++ text)%string.

(** What the token stands for: the text, after a space if marked. *)
Definition spaced (marked : bool) (text : string) : string :=
  ((if marked then " " else "") ++ text)%string.

(** ** Concrete inputs *)

Module Sample.

Definition pkg (f t : string) : Package :=
  mkPackage "translate" f f t t (f ++ "_" ++ t)%string.

(** A backend with two ranked hypotheses per packaged model, the best
    first, as beam search returns them. *)
Definition backends : Backends :=
  mkBackends
    (fun p text n =>
       Ok (firstn n [mkHyp (text ++ "/" ++ to_code p ++ "1")%string (-1);
                     mkHyp (text ++ "/" ++ to_code p ++ "2")%string (-3)]))
    (fun text _ _ => text)
    (fun text => [text])
    (fun sentence _ _ _ _ => sentence)
    (fun prompt => prompt)
    (fun response => response).

Definition en_es : ITranslation := PackageTranslation "en" "es" (pkg "en" "es").
Definition es_fr : ITranslation := PackageTranslation "es" "fr" (pkg "es" "fr").

(** Two installed packages, en -> es and es -> fr. *)
Definition env : Env := mkEnv OPENNMT [pkg "en" "es"; pkg "es" "fr"] [].

(** Two installed packages for the same pair, in two directories. *)
Definition dup_env : Env :=
  mkEnv OPENNMT
    [mkPackage "translate" "en" "English" "es" "Spanish" "translate-en_es-1_0";
     mkPackage "translate" "en" "English" "es" "Spanish" "translate-en_es-1_9"]
    [].

(** One installed package from a language to itself. *)
Definition self_env : Env := mkEnv OPENNMT [pkg "en" "en"] [].

(** The list [get_installed_languages] returns, and one of its items. *)
Definition installed (e : Env) : list Language :=
  match get_installed_languages e with
  | Ok languages => languages
  | _ => []
  end.

Definition language (e : Env) (c : string) : Language :=
  deref (installed e) c.

Definition en : Language := language env "en".
Definition es : Language := language env "es".
Definition fr : Language := language env "fr".

(** Float scores of the samples; each is a binary64 number exactly. *)
Import PrimFloat.
Definition minus_1_5 : float := (-1.5)%float.
Definition minus_3_25 : float := (-3.25)%float.
Definition minus_0_5 : float := (-0.5)%float.
Definition minus_1 : float := (-1)%float.
Definition minus_2 : float := (-2)%float.
Definition minus_3 : float := (-3)%float.
Definition minus_6_5 : float := (-6.5)%float.
Definition one : float := 1%float.
Definition two_53 : float := 9007199254740992%float.

(** An engine that takes the text as one sentence and one token, and
    returns two entries per sentence. *)
Definition engine : Packaged.Engine :=
  Packaged.mkEngine
    (fun text => [text])
    (fun _ sentence => [token true sentence])
    (fun p tokenized _ _ =>
       map (fun toks =>
              [Packaged.mkBatchHypothesis
                 (toks ++ [token true (to_code p)]) minus_1_5;
               Packaged.mkBatchHypothesis
                 (toks ++ [token false "?"]) minus_3_25])
         tokenized).

(** The same engine on a text that it takes as two sentences. *)
Definition two_sentence_engine : Packaged.Engine :=
  Packaged.mkEngine
    (fun text => [text; text])
    (Packaged.encode engine)
    (Packaged.translate_batch engine).

(** The [hypotheses] method of a step that returns two hypotheses, the
    best first, with float scores. *)
Definition float_step (suffix : string) (text : string) (n : nat)
  : result (list FloatScores.Hyp) :=
  Ok (firstn n
        [FloatScores.mkHyp (text ++ "/" ++ suffix ++ "1")%string minus_0_5;
         FloatScores.mkHyp (text ++ "/" ++ suffix ++ "2")%string minus_1_5]).

End Sample.

(** * Properties *)

Unset Implicit Arguments.

(** ** Sorting *)

Section SortFacts.
Variable A : Type.
Variable lt : A -> A -> bool.

Lemma insert_perm (x : A) (l : list A) : Permutation (x :: l) (insert lt x l).
Proof.
  induction l as [|y l IH]; simpl; [reflexivity|].
  destruct (lt y x); [|reflexivity].
  rewrite perm_swap. now apply perm_skip.
Qed.

Lemma sort_perm (l : list A) : Permutation l (sort lt l).
Proof.
  induction l as [|x l IH]; simpl; [constructor|].
  rewrite <- insert_perm. now apply perm_skip.
Qed.

Lemma sort_length (l : list A) : List.length (sort lt l) = List.length l.
Proof. symmetry. apply Permutation_length, sort_perm. Qed.

Lemma sort_In (x : A) (l : list A) : In x (sort lt l) <-> In x l.
Proof.
  split; apply Permutation_in; [symmetry|]; apply sort_perm.
Qed.
End SortFacts.

Lemma insert_score_sorted (x : Hyp) (l : list Hyp) :
  StronglySorted score_le l -> StronglySorted score_le (insert Hyp_lt x l).
Proof.
  induction 1 as [|y l Hs IH Hall]; simpl.
  - repeat constructor.
  - unfold Hyp_lt at 1. destruct (Z.ltb_spec (score y) (score x)) as [Hlt|Hge].
    + constructor; [exact IH|].
      rewrite Forall_forall. intros z Hz.
      apply (Permutation_in _ (Permutation_sym (insert_perm _ Hyp_lt x l))) in Hz.
      destruct Hz as [<-|Hz]; [unfold score_le; lia|].
      rewrite Forall_forall in Hall. now apply Hall.
    + constructor; [now constructor|].
      constructor; [exact Hge|].
      rewrite Forall_forall in *. intros z Hz. specialize (Hall z Hz).
      unfold score_le in *. lia.
Qed.

Lemma sort_score_sorted (l : list Hyp) :
  StronglySorted score_le (sort Hyp_lt l).
Proof.
  induction l as [|x l IH]; simpl; [constructor|].
  now apply insert_score_sorted.
Qed.

Lemma In_firstn (A : Type) (n : nat) (l : list A) (x : A) :
  In x (firstn n l) -> In x l.
Proof.
  intros H. rewrite <- (firstn_skipn n l). apply in_or_app. now left.
Qed.

Lemma firstn_StronglySorted (A : Type) (R : A -> A -> Prop) (n : nat) (l : list A) :
  StronglySorted R l -> StronglySorted R (firstn n l).
Proof.
  intros H. revert n. induction H as [|x l Hs IH Hall]; intros [|n]; simpl;
    try constructor.
  - apply IH.
  - rewrite Forall_forall in *. intros y Hy. apply Hall.
    now apply In_firstn with n.
Qed.


(** ** Hypotheses of the edges *)

Section HypothesesFacts.
Variable B : Backends.

Lemma IdentityTranslation_hypotheses_repeat (x : string) (n : nat) :
  IdentityTranslation_hypotheses x n = repeat (mkHyp x 0) n.
Proof.
  unfold IdentityTranslation_hypotheses. generalize 0%nat.
  induction n as [|n IH]; intros k; simpl; [reflexivity|].
  now rewrite IH.
Qed.

(** The loop of [FewShotTranslation.hypotheses] either does not run or
    raises at its first [to_return += result]. *)
Lemma fewshot_loop_unbound (body : string -> string) (sentences : list string) :
  for_each
    (fun (to_return : option string) sentence =>
       match to_return with
       | None => Raise UnboundLocalError
       | Some s => Ok (Some (s ++ body sentence)%string)
       end) sentences None =
  match sentences with
  | [] => Ok None
  | _ :: _ => Raise UnboundLocalError
  end.
Proof. destruct sentences; reflexivity. Qed.

Lemma fold_append_map (A C : Type) (f : A -> C) (l : list A) (acc : list C) :
  fold_left (fun acc x => acc ++ [f x]) l acc = acc ++ map f l.
Proof.
  revert acc. induction l as [|x l IH]; intros acc; simpl.
  - now rewrite app_nil_r.
  - rewrite IH, <- app_assoc. reflexivity.
Qed.

Lemma combine_hypotheses_from (t2h : string -> result (list Hyp))
    (h2s : Hyp -> list Hyp) (h1s acc : list Hyp) :
  (forall h1, In h1 h1s -> t2h (value h1) = Ok (h2s h1)) ->
  for_each
    (fun to_return t1_hypothesis =>
       t2_hypotheses <- t2h (value t1_hypothesis) ;;
       Ok (fold_left
             (fun to_return t2_hypothesis =>
                to_return ++
                [mkHyp (value t2_hypothesis)
                   (score t1_hypothesis + score t2_hypothesis)%Z])
             t2_hypotheses to_return))
    h1s acc = Ok (acc ++ cross_product h1s h2s).
Proof.
  revert acc. induction h1s as [|h1 h1s IH]; intros acc H; simpl.
  - now rewrite app_nil_r.
  - rewrite (H h1 (or_introl eq_refl)). simpl.
    rewrite (fold_append_map _ _ (combined h1)).
    rewrite IH by (intros; apply H; now right).
    now rewrite <- app_assoc.
Qed.

Lemma combine_hypotheses_ok (t2h : string -> result (list Hyp))
    (h2s : Hyp -> list Hyp) (h1s : list Hyp) :
  (forall h1, In h1 h1s -> t2h (value h1) = Ok (h2s h1)) ->
  combine_hypotheses t2h h1s = Ok (cross_product h1s h2s).
Proof.
  intros H. unfold combine_hypotheses.
  now rewrite (combine_hypotheses_from _ h2s h1s [] H).
Qed.

(** [CompositeTranslation.hypotheses] when both steps return: the first
    [n] of the cross-product sorted with [Hypothesis.__lt__]. *)
Lemma CompositeTranslation_hypotheses_eq (t1 t2 : ITranslation) (text : string)
    (n : nat) (h1s : list Hyp) (h2s : Hyp -> list Hyp) :
  hypotheses B t1 text n = Ok h1s ->
  (forall h1, In h1 h1s -> hypotheses B t2 (value h1) n = Ok (h2s h1)) ->
  hypotheses B (CompositeTranslation t1 t2) text n =
  Ok (firstn n (sort Hyp_lt (cross_product h1s h2s))).
Proof.
  intros H1 H2. cbn [hypotheses]. rewrite H1. cbn [bind].
  rewrite (combine_hypotheses_ok _ h2s h1s H2). reflexivity.
Qed.

Lemma cross_product_length (n : nat) (h1s : list Hyp) (h2s : Hyp -> list Hyp) :
  (forall h1, In h1 h1s -> List.length (h2s h1) = n) ->
  List.length (cross_product h1s h2s) = List.length h1s * n.
Proof.
  induction h1s as [|h1 h1s IH]; intros H; simpl; [reflexivity|].
  rewrite length_app, length_map, IH by (intros; apply H; now right).
  now rewrite (H h1 (or_introl eq_refl)).
Qed.

(** What the code does establish for a composite edge: [n] hypotheses of
    the cross-product, in non-decreasing order of score. *)
Lemma CompositeTranslation_hypotheses_ascending (t1 t2 : ITranslation)
    (text : string) (n : nat) (h1s : list Hyp) (h2s : Hyp -> list Hyp) :
  hypotheses B t1 text n = Ok h1s ->
  List.length h1s = n ->
  (forall h1, In h1 h1s ->
     hypotheses B t2 (value h1) n = Ok (h2s h1) /\ List.length (h2s h1) = n) ->
  exists hs,
    hypotheses B (CompositeTranslation t1 t2) text n = Ok hs /\
    List.length hs = n /\
    StronglySorted score_le hs /\
    (forall h, In h hs -> In h (cross_product h1s h2s)).
Proof.
  intros H1 Hlen H2.
  exists (firstn n (sort Hyp_lt (cross_product h1s h2s))).
  split; [apply CompositeTranslation_hypotheses_eq; [exact H1|]|].
  { intros h1 Hin. now apply H2. }
  split; [|split].
  - rewrite length_firstn, sort_length, (cross_product_length n).
    + rewrite Hlen. nia.
    + intros h1 Hin. now apply H2.
  - apply firstn_StronglySorted, sort_score_sorted.
  - intros h Hin. apply In_firstn in Hin. now apply sort_In in Hin.
Qed.

End HypothesesFacts.

(** C4. [FewShotTranslation.hypotheses] never returns a list: [to_return]
    is read before anything is assigned to it, so every call raises
    [UnboundLocalError], whatever the text and the requested number of
    hypotheses. *)
Theorem FewShotTranslation_hypotheses_raises (B : Backends)
    (f fname t tname text : string) (n : nat) :
  hypotheses B (FewShotTranslation f fname t tname) text n =
  Raise UnboundLocalError.
Proof.
  simpl. unfold FewShotTranslation_hypotheses.
  rewrite (fewshot_loop_unbound
             (fun sentence =>
                parse_inference B
                  (infer B (generate_prompt B sentence fname f tname t)))).
  destruct (chunk B text); reflexivity.
Qed.

(** C1. At two packaged steps that each return their two hypotheses best
    first (scores -1 and -3), the composite edge asked for 2 hypotheses
    returns the two lowest sums of the cross-product, -6 then -4: the
    list is not in descending order of score, and the best combination,
    of score -2, is left out. *)
Theorem CompositeTranslation_hypotheses_lowest_first :
  exists hs,
    hypotheses Sample.backends
      (CompositeTranslation Sample.en_es Sample.es_fr) "a" 2 = Ok hs /\
    map score hs = [-6; -4]%Z /\
    ~ StronglySorted score_ge hs /\
    exists h,
      In h (cross_product
              [mkHyp "a/es1" (-1); mkHyp "a/es2" (-3)]
              (fun h1 => [mkHyp (value h1 ++ "/fr1") (-1);
                          mkHyp (value h1 ++ "/fr2") (-3)])) /\
      score h = (-2)%Z /\
      Forall (fun r => (score r < score h)%Z) hs.
Proof.
  eexists. split; [vm_compute; reflexivity|].
  split; [reflexivity|]. split.
  - intros H. inversion H as [|? ? _ Hall]; subst.
    inversion Hall as [|? ? Hge _]; subst.
    unfold score_ge in Hge. simpl in Hge. lia.
  - exists (mkHyp "a/es1/fr1" (-2)). split; [now left|].
    split; [reflexivity|].
    repeat constructor.
Qed.

(** ** The store *)

Lemma contains_In (c : string) (g : store) :
  contains c g = true <-> In c (map code g).
Proof.
  unfold contains. rewrite existsb_exists, in_map_iff.
  split; intros [l [H1 H2]]; exists l.
  - apply String.eqb_eq in H2. now split.
  - split; [exact H2|]. now apply String.eqb_eq.
Qed.

Lemma contains_false (c : string) (g : store) :
  contains c g = false <-> ~ In c (map code g).
Proof.
  rewrite <- contains_In. destruct (contains c g); split; intros; congruence.
Qed.

Lemma deref_code (g : store) (c : string) : code (deref g c) = c.
Proof.
  unfold deref. destruct (find _ g) as [l|] eqn:E; [|reflexivity].
  apply find_some in E. now apply String.eqb_eq.
Qed.

Lemma deref_In (g : store) (c : string) :
  In c (map code g) -> In (deref g c) g.
Proof.
  intros H. unfold deref. destruct (find _ g) as [l|] eqn:E.
  - now apply find_some in E.
  - apply in_map_iff in H. destruct H as [l [H1 H2]].
    apply (find_none _ _ E) in H2. rewrite H1, String.eqb_refl in H2.
    discriminate.
Qed.

Lemma deref_missing (g : store) (c : string) :
  ~ In c (map code g) -> deref g c = mkLanguage c "" [] [].
Proof.
  intros H. unfold deref. destruct (find _ g) as [l|] eqn:E; [|reflexivity].
  apply find_some in E. destruct E as [E1 E2]. apply String.eqb_eq in E2.
  exfalso. apply H. rewrite <- E2. now apply in_map.
Qed.

Lemma deref_unique (g : store) (l : Language) :
  NoDup (map code g) -> In l g -> deref g (code l) = l.
Proof.
  unfold deref. induction g as [|x g IH]; intros Hnd Hin; [easy|].
  simpl in *. inversion Hnd as [|? ? Hx Hnd']; subst.
  destruct Hin as [->|Hin].
  - now rewrite String.eqb_refl.
  - destruct (String.eqb_spec (code x) (code l)) as [E|E].
    + exfalso. apply Hx. rewrite E. now apply in_map.
    + now apply IH.
Qed.

Lemma edges_from_In (g : store) (c : string) (e : ITranslation) :
  In e (edges_from g c) ->
  In c (map code g) /\ In (deref g c) g.
Proof.
  intros H. destruct (in_dec string_dec c (map code g)) as [Hc|Hc].
  - split; [exact Hc|]. now apply deref_In.
  - unfold edges_from in H. now rewrite (deref_missing _ _ Hc) in H.
Qed.

Section UpdateFacts.
Variable f : Language -> Language.
Hypothesis f_code : forall l, code (f l) = code l.

Lemma update_codes (c : string) (g : store) :
  map code (update c f g) = map code g.
Proof.
  unfold update. rewrite map_map. apply map_ext.
  intros l. destruct (code l =? c); [apply f_code|reflexivity].
Qed.

Lemma update_length (c : string) (g : store) :
  List.length (update c f g) = List.length g.
Proof. apply length_map. Qed.

Lemma deref_update (c d : string) (g : store) :
  deref (update c f g) d =
  if (d =? c) && contains c g then f (deref g d) else deref g d.
Proof.
  unfold deref, update, contains.
  induction g as [|x g IH]; simpl.
  - now rewrite andb_false_r.
  - destruct (String.eqb_spec (code x) c) as [Ec|Ec]; simpl.
    + rewrite f_code. destruct (String.eqb_spec (code x) d) as [Ed|Ed].
      * subst. now rewrite String.eqb_refl.
      * rewrite IH. destruct (String.eqb_spec d c) as [E|E]; [|reflexivity].
        congruence.
    + destruct (String.eqb_spec (code x) d) as [Ed|Ed].
      * destruct (String.eqb_spec d c) as [E|E]; [congruence|reflexivity].
      * exact IH.
Qed.

Lemma In_update (c : string) (g : store) (l : Language) :
  In l (update c f g) ->
  exists l0, In l0 g /\ (l = l0 \/ (code l0 = c /\ l = f l0)).
Proof.
  unfold update. rewrite in_map_iff. intros [l0 [H1 H2]].
  exists l0. split; [exact H2|].
  destruct (String.eqb_spec (code l0) c); [right|left]; auto.
Qed.

End UpdateFacts.

Lemma append_from_code (t : ITranslation) (l : Language) :
  code (append_from t l) = code l.
Proof. reflexivity. Qed.

Lemma append_to_code (t : ITranslation) (l : Language) :
  code (append_to t l) = code l.
Proof. reflexivity. Qed.

Lemma edges_from_append_from (t : ITranslation) (c d : string) (g : store) :
  edges_from (update c (append_from t) g) d =
  edges_from g d ++ (if (d =? c) && contains c g then [t] else []).
Proof.
  unfold edges_from. rewrite (deref_update _ (append_from_code t)).
  destruct ((d =? c) && contains c g); simpl; [reflexivity|].
  now rewrite app_nil_r.
Qed.

Lemma edges_from_append_to (t : ITranslation) (c d : string) (g : store) :
  edges_from (update c (append_to t) g) d = edges_from g d.
Proof.
  unfold edges_from. rewrite (deref_update _ (append_to_code t)).
  now destruct ((d =? c) && contains c g).
Qed.

Lemma add_composite_codes (c : string) (t t2 : ITranslation) (g : store) :
  map code (add_composite c t t2 g) = map code g.
Proof.
  unfold add_composite.
  rewrite (update_codes _ (append_to_code _)).
  apply (update_codes _ (append_from_code _)).
Qed.

Lemma edges_from_add_composite (c d : string) (t t2 : ITranslation) (g : store) :
  edges_from (add_composite c t t2 g) d =
  edges_from g d ++
  (if (d =? c) && contains c g then [CompositeTranslation t t2] else []).
Proof.
  unfold add_composite.
  now rewrite edges_from_append_to, edges_from_append_from.
Qed.

(** [get_translation] is the first edge to the code, and is [None]
    exactly when no edge leads there. *)
Lemma get_translation_find (self to : Language) :
  get_translation self to =
  find (fun x => to_lang x =? code to) (translations_from self).
Proof.
  unfold get_translation.
  induction (translations_from self) as [|x l IH]; simpl; [reflexivity|].
  destruct (to_lang x =? code to); [reflexivity|exact IH].
Qed.

Lemma get_translation_None (self to : Language) :
  get_translation self to = None <->
  ~ In (code to) (map to_lang (translations_from self)).
Proof.
  rewrite get_translation_find. split.
  - intros H Hin. apply in_map_iff in Hin. destruct Hin as [x [H1 H2]].
    apply (find_none _ _ H) in H2. rewrite H1, String.eqb_refl in H2.
    discriminate.
  - intros H. destruct (find _ _) as [x|] eqn:E; [|reflexivity].
    apply find_some in E. destruct E as [E1 E2]. apply String.eqb_eq in E2.
    exfalso. apply H. rewrite <- E2. now apply in_map.
Qed.

Lemma get_translation_deref_None (g : store) (c d : string) :
  get_translation (deref g c) (deref g d) = None <->
  ~ In d (map to_lang (edges_from g c)).
Proof. rewrite get_translation_None, deref_code. reflexivity. Qed.

Lemma find_app_Some (A : Type) (p : A -> bool) (l1 l2 : list A) (x : A) :
  find p l1 = Some x -> find p (l1 ++ l2) = Some x.
Proof.
  induction l1 as [|y l1 IH]; simpl; [discriminate|].
  destruct (p y); [trivial|exact IH].
Qed.

(** ** One step of the pivot loop *)

Lemma pivot_step_inv (c : string) (g g' : store) :
  pivot_step c g g' ->
  exists t t2,
    g' = add_composite c t t2 g /\
    In t (edges_from g c) /\
    In t2 (edges_from g (to_lang t)) /\
    ~ In (to_lang t2) (map to_lang (edges_from g c)) /\
    In c (map code g) /\
    forall d, edges_from g' d =
              edges_from g d ++
              (if d =? c then [CompositeTranslation t t2] else []).
Proof.
  intros [t t2 Ht Ht2 Hnone]. exists t, t2.
  apply get_translation_deref_None in Hnone.
  destruct (edges_from_In _ _ _ Ht) as [Hc _].
  repeat split; try assumption.
  intros d. rewrite edges_from_add_composite.
  apply contains_In in Hc. rewrite Hc. now rewrite andb_true_r.
Qed.

Lemma pivot_step_codes (c : string) (g g' : store) :
  pivot_step c g g' -> map code g' = map code g.
Proof. intros [t t2 _ _ _]. apply add_composite_codes. Qed.

Lemma In_add_composite (c : string) (t t2 : ITranslation) (g : store)
    (l : Language) :
  In l (add_composite c t t2 g) ->
  exists l0,
    In l0 g /\ code l = code l0 /\
    (translations_from l = translations_from l0 \/
     (code l0 = c /\
      translations_from l = translations_from l0 ++ [CompositeTranslation t t2])).
Proof.
  unfold add_composite. intros H.
  apply In_update in H. destruct H as [l1 [H1 Hl]].
  apply In_update in H1. destruct H1 as [l0 [H0 Hl1]].
  exists l0. split; [exact H0|].
  assert (Hl' : code l = code l1 /\ translations_from l = translations_from l1).
  { destruct Hl as [->|[_ ->]]; split; reflexivity. }
  destruct Hl' as [E1 E2]. rewrite E1, E2.
  destruct Hl1 as [->|[Hc ->]]; simpl; auto.
Qed.

Lemma pivot_step_wf (c : string) (g g' : store) :
  pivot_step c g g' -> wf g -> wf g'.
Proof.
  intros Hstep Hwf. pose proof (pivot_step_codes _ _ _ Hstep) as Hcodes.
  destruct Hstep as [t t2 Ht Ht2 Hnone].
  destruct (edges_from_In _ _ _ Ht) as [Hc Hdc].
  destruct (edges_from_In _ _ _ Ht2) as [Hm Hdm].
  constructor.
  - rewrite Hcodes. apply (wf_codes Hwf).
  - intros l e Hl He. rewrite Hcodes.
    apply In_add_composite in Hl. destruct Hl as [l0 [H0 [_ [E|[_ E]]]]];
      rewrite E in He.
    + now apply (wf_dest Hwf l0).
    + apply in_app_or in He. destruct He as [He|[<-|[]]].
      * now apply (wf_dest Hwf l0).
      * simpl. now apply (wf_dest Hwf _ _ Hdm).
  - intros l e Hl He.
    apply In_add_composite in Hl. destruct Hl as [l0 [H0 [Ec [E|[Hc0 E]]]]];
      rewrite E in He; rewrite Ec.
    + now apply (wf_from Hwf l0).
    + apply in_app_or in He. destruct He as [He|[<-|[]]].
      * now apply (wf_from Hwf l0).
      * simpl. rewrite (wf_from Hwf _ _ Hdc Ht), deref_code. now symmetry.
Qed.

Lemma pivot_ext_refl (l : list ITranslation) : pivot_ext l l.
Proof.
  exists []. rewrite app_nil_r. repeat split; constructor.
Qed.

Lemma pivot_ext_snoc (base l : list ITranslation) (t t2 : ITranslation) :
  pivot_ext base l ->
  ~ In (to_lang t2) (map to_lang l) ->
  pivot_ext base (l ++ [CompositeTranslation t t2]).
Proof.
  intros [extra [-> [Hc [Hnd Hfresh]]]] Hnew.
  rewrite map_app, in_app_iff in Hnew.
  exists (extra ++ [CompositeTranslation t t2]).
  split; [now rewrite app_assoc|]. split; [|split].
  - apply Forall_app. split; [exact Hc|]. now repeat constructor.
  - rewrite map_app. simpl.
    apply NoDup_app; [exact Hnd|repeat constructor; easy|].
    intros x Hx [<-|[]]. apply Hnew. now right.
  - apply Forall_app. split; [exact Hfresh|].
    constructor; [|constructor]. simpl. intros H. apply Hnew. now left.
Qed.

Lemma pivot_step_ext (c : string) (g g' : store) (base : list ITranslation)
    (d : string) :
  pivot_step c g g' ->
  pivot_ext base (edges_from g d) -> pivot_ext base (edges_from g' d).
Proof.
  intros Hstep Hext.
  destruct (pivot_step_inv _ _ _ Hstep) as [t [t2 [_ [_ [_ [Hnew [_ Hedges]]]]]]].
  rewrite Hedges. destruct (String.eqb_spec d c) as [->|_].
  - now apply pivot_ext_snoc.
  - now rewrite app_nil_r.
Qed.

(** What any number of pivot steps, for any languages, keeps. *)
Lemma steps_inv (g0 g : store) :
  clos_refl_trans store any_step g0 g ->
  wf g0 ->
  wf g /\ map code g = map code g0 /\
  forall d, pivot_ext (edges_from g0 d) (edges_from g d).
Proof.
  intros H Hwf. apply clos_rt_rtn1 in H.
  induction H as [|g1 g2 [c [Hc Hstep]] _ [IH1 [IH2 IH3]]].
  - split; [exact Hwf|]. split; [reflexivity|]. intros d. apply pivot_ext_refl.
  - split; [now apply (pivot_step_wf _ _ _ Hstep)|]. split.
    + now rewrite (pivot_step_codes _ _ _ Hstep).
    + intros d. eapply pivot_step_ext; [exact Hstep|apply IH3].
Qed.

Lemma pivot_ext_incl (base l : list ITranslation) (e : ITranslation) :
  pivot_ext base l -> In e base -> In e l.
Proof. intros [extra [-> _]] H. apply in_or_app. now left. Qed.

Lemma pivot_ext_find (base l : list ITranslation) (p : ITranslation -> bool)
    (e : ITranslation) :
  pivot_ext base l -> find p base = Some e -> find p l = Some e.
Proof. intros [extra [-> _]] H. now apply find_app_Some. Qed.

Lemma pivot_ext_NoDup (base l : list ITranslation) :
  pivot_ext base l ->
  NoDup (map to_lang base) -> NoDup (map to_lang l).
Proof.
  intros [extra [-> [_ [Hnd Hfresh]]]] Hbase. rewrite map_app.
  apply NoDup_app; [exact Hbase|exact Hnd|].
  intros x Hb Hx. apply in_map_iff in Hx. destruct Hx as [e [<- He]].
  rewrite Forall_forall in Hfresh. now apply (Hfresh e He).
Qed.

(** ** The pivot loops: what a finished run has done *)

Lemma pivot_step_keeps_edge (c : string) (g g' : store) (d : string)
    (e : ITranslation) :
  pivot_step c g g' -> In e (edges_from g d) -> In e (edges_from g' d).
Proof.
  intros Hstep He.
  destruct (pivot_step_inv _ _ _ Hstep) as [t [t2 [_ [_ [_ [_ [_ Hedges]]]]]]].
  rewrite Hedges. apply in_or_app. now left.
Qed.

(** A finished run of the inner loop either found every remaining edge
    of the intermediate language already covered and changed nothing, or
    performed at least one step and set the flag. *)
Lemma pivot_inner_spec (fuel : nat) (c : string) (t : ITranslation) :
  forall (j : nat) (g : store) (k : bool) (g' : store) (k' : bool),
    pivot_inner fuel c t j g k = Ok (g', k') ->
    In t (edges_from g c) ->
    (g' = g /\ k' = k /\
     forall j' t2, j <= j' ->
       nth_error (edges_from g (to_lang t)) j' = Some t2 ->
       get_translation (deref g c) (deref g (to_lang t2)) <> None) \/
    (k' = true /\ clos_trans store (pivot_step c) g g').
Proof.
  induction fuel as [|fuel IH]; intros j g k g' k' Hrun Ht; [discriminate|].
  simpl in Hrun. fold (edges_from g (to_lang t)) in Hrun.
  destruct (nth_error (edges_from g (to_lang t)) j) as [t2|] eqn:Enth.
  - destruct (get_translation (deref g c) (deref g (to_lang t2))) as [e|] eqn:Eget.
    + destruct (IH _ _ _ _ _ Hrun Ht) as [[-> [-> Hall]]|Hright]; [left|now right].
      split; [reflexivity|]. split; [reflexivity|].
      intros j' t2' Hj Hnth.
      destruct (Nat.eq_dec j j') as [<-|Hne].
      * rewrite Enth in Hnth. injection Hnth as <-. now rewrite Eget.
      * apply (Hall j' t2'); [lia|exact Hnth].
    + right.
      assert (Hstep : pivot_step c g (add_composite c t t2 g)).
      { constructor; [exact Ht| |exact Eget]. now apply nth_error_In with j. }
      assert (Ht' : In t (edges_from (add_composite c t t2 g) c)).
      { now apply (pivot_step_keeps_edge _ _ _ _ _ Hstep). }
      destruct (IH _ _ _ _ _ Hrun Ht') as [[-> [-> _]]|[-> Htrans]].
      * split; [reflexivity|]. now apply t_step.
      * split; [reflexivity|]. eapply t_trans; [apply t_step, Hstep|exact Htrans].
  - injection Hrun as <- <-. left. split; [reflexivity|]. split; [reflexivity|].
    intros j' t2 Hj Hnth. apply nth_error_None in Enth.
    assert (Hlt : j' < List.length (edges_from g (to_lang t))).
    { apply nth_error_Some. now rewrite Hnth. }
    lia.
Qed.

Lemma pivot_outer_spec (fuel : nat) (c : string) :
  forall (i : nat) (g : store) (k : bool) (g' : store) (k' : bool),
    pivot_outer fuel c i g k = Ok (g', k') ->
    (g' = g /\ k' = k /\
     forall i' t t2, i <= i' ->
       nth_error (edges_from g c) i' = Some t ->
       In t2 (edges_from g (to_lang t)) ->
       get_translation (deref g c) (deref g (to_lang t2)) <> None) \/
    (k' = true /\ clos_trans store (pivot_step c) g g').
Proof.
  induction fuel as [|fuel IH]; intros i g k g' k' Hrun; [discriminate|].
  simpl in Hrun. fold (edges_from g c) in Hrun.
  destruct (nth_error (edges_from g c) i) as [t|] eqn:Enth.
  - assert (Ht : In t (edges_from g c)) by now apply nth_error_In with i.
    destruct (pivot_inner fuel c t 0 g k) as [[g1 k1]| |] eqn:Einner;
      try discriminate.
    simpl in Hrun.
    destruct (pivot_inner_spec _ _ _ _ _ _ _ _ Einner Ht)
      as [[-> [-> Hall]]|[-> Htrans]].
    + destruct (IH _ _ _ _ _ Hrun) as [[-> [-> Hrest]]|Hright];
        [left|now right].
      split; [reflexivity|]. split; [reflexivity|].
      intros i' t' t2 Hi Hnth Hin.
      destruct (Nat.eq_dec i i') as [<-|Hne].
      * rewrite Enth in Hnth. injection Hnth as <-.
        apply In_nth_error in Hin. destruct Hin as [j' Hj'].
        apply (Hall j' t2); [lia|exact Hj'].
      * apply (Hrest i' t' t2); [lia|exact Hnth|exact Hin].
    + right. destruct (IH _ _ _ _ _ Hrun) as [[-> [-> _]]|[-> Htrans']].
      * now split.
      * split; [reflexivity|]. eapply t_trans; eassumption.
  - injection Hrun as <- <-. left. split; [reflexivity|]. split; [reflexivity|].
    intros i' t t2 Hi Hnth _. apply nth_error_None in Enth.
    assert (Hlt : i' < List.length (edges_from g c)).
    { apply nth_error_Some. now rewrite Hnth. }
    lia.
Qed.

(** The [while] loop ends after a pass that added nothing: the language
    is then closed, and the store is the result of pivot steps. *)
Lemma pivot_while_spec (fuel : nat) (c : string) :
  forall (g g' : store),
    pivot_while fuel c g = Ok g' ->
    clos_refl_trans store (pivot_step c) g g' /\ closed g' c.
Proof.
  induction fuel as [|fuel IH]; intros g g' Hrun; [discriminate|].
  simpl in Hrun.
  destruct (pivot_outer fuel c 0 g false) as [[g1 k1]| |] eqn:Eouter;
    try discriminate.
  simpl in Hrun.
  destruct (pivot_outer_spec _ _ _ _ _ _ _ Eouter) as [[-> [-> Hall]]|[-> Htrans]].
  - injection Hrun as <-. split; [apply rt_refl|].
    intros t t2 Ht Ht2. apply In_nth_error in Ht. destruct Ht as [i Hi].
    apply (Hall i t t2); [lia|exact Hi|exact Ht2].
  - destruct (IH _ _ Hrun) as [Hsteps Hclosed]. split; [|exact Hclosed].
    eapply rt_trans; [|exact Hsteps].
    now apply clos_t_clos_rt.
Qed.

(** ** Termination of the pivot loops *)

Lemma filter_length_mono (A : Type) (p q : A -> bool) (l : list A) :
  (forall x, p x = true -> q x = true) ->
  List.length (filter p l) <= List.length (filter q l).
Proof.
  intros H. induction l as [|x l IH]; simpl; [lia|].
  destruct (p x) eqn:Ep.
  - rewrite (H x Ep). simpl. lia.
  - destruct (q x); simpl; lia.
Qed.

Lemma filter_length_drop (A : Type) (p q : A -> bool) (l : list A) (a : A) :
  (forall x, p x = true -> q x = true) ->
  In a l -> q a = true -> p a = false ->
  List.length (filter p l) < List.length (filter q l).
Proof.
  intros H Hin Hq Hp. induction l as [|x l IH]; [easy|].
  simpl. destruct Hin as [->|Hin].
  - rewrite Hq, Hp. simpl.
    pose proof (filter_length_mono A p q l H). lia.
  - specialize (IH Hin). destruct (p x) eqn:Ep.
    + rewrite (H x Ep). simpl. lia.
    + destruct (q x); simpl; lia.
Qed.

Lemma existsb_dest (d : string) (l : list ITranslation) :
  existsb (fun x => to_lang x =? d) l = true <-> In d (map to_lang l).
Proof.
  rewrite existsb_exists, in_map_iff.
  split; intros [x [H1 H2]]; exists x.
  - apply String.eqb_eq in H2. now split.
  - split; [exact H2|]. now apply String.eqb_eq.
Qed.

Lemma missing_le (g : store) (c : string) : missing g c <= List.length g.
Proof.
  unfold missing. rewrite <- (length_map code g).
  generalize (map code g). intros l.
  induction l as [|x l IH]; simpl; [lia|].
  destruct (negb _); simpl; lia.
Qed.

Lemma total_edges_append_to (t : ITranslation) (c : string) (g : store) :
  total_edges (update c (append_to t) g) = total_edges g.
Proof.
  unfold total_edges, update. rewrite map_map. f_equal. apply map_ext.
  intros l. now destruct (code l =? c).
Qed.

Lemma update_absent (f : Language -> Language) (c : string) (g : store) :
  ~ In c (map code g) -> update c f g = g.
Proof.
  intros H. unfold update. rewrite <- (map_id g) at 2. apply map_ext_in.
  intros l Hl. destruct (String.eqb_spec (code l) c) as [E|E]; [|reflexivity].
  exfalso. apply H. rewrite <- E. now apply in_map.
Qed.

Lemma total_edges_cons (x : Language) (g : store) :
  total_edges (x :: g) = List.length (translations_from x) + total_edges g.
Proof. reflexivity. Qed.

Lemma update_cons (f : Language -> Language) (c : string) (x : Language)
    (g : store) :
  update c f (x :: g) = (if code x =? c then f x else x) :: update c f g.
Proof. reflexivity. Qed.

Lemma total_edges_append_from (t : ITranslation) (c : string) (g : store) :
  NoDup (map code g) ->
  total_edges (update c (append_from t) g) <= S (total_edges g).
Proof.
  induction g as [|x g IH]; intros Hnd; [simpl; lia|].
  inversion Hnd as [|? ? Hx Hnd']; subst.
  rewrite update_cons, !total_edges_cons.
  destruct (String.eqb_spec (code x) c) as [E|E].
  - rewrite update_absent by (now rewrite <- E).
    simpl. rewrite length_app. simpl. lia.
  - specialize (IH Hnd'). lia.
Qed.

Lemma edges_from_le_total (g : store) (d : string) :
  List.length (edges_from g d) <= total_edges g.
Proof.
  destruct (in_dec string_dec d (map code g)) as [Hd|Hd].
  - apply deref_In in Hd. unfold edges_from. revert Hd.
    generalize (deref g d). intros l Hl.
    induction g as [|x g IH]; [easy|]. rewrite total_edges_cons.
    destruct Hl as [->|Hl]; [lia|]. specialize (IH Hl). lia.
  - unfold edges_from. rewrite (deref_missing _ _ Hd). simpl. lia.
Qed.

Lemma pivot_step_measure (c : string) (g g' : store) :
  pivot_step c g g' -> wf g ->
  total_edges g' <= S (total_edges g) /\
  S (missing g' c) <= missing g c /\
  forall d, List.length (edges_from g' d) <= S (List.length (edges_from g d)).
Proof.
  intros Hstep Hwf.
  destruct (pivot_step_inv _ _ _ Hstep)
    as [t [t2 [-> [Ht [Ht2 [Hnew [Hc Hedges]]]]]]].
  split; [|split].
  - unfold add_composite. rewrite total_edges_append_to.
    apply total_edges_append_from, (wf_codes Hwf).
  - unfold missing. rewrite add_composite_codes, Hedges, String.eqb_refl.
    apply (filter_length_drop _ _ _ _ (to_lang t2)).
    + intros d. rewrite existsb_app, negb_orb, andb_true_iff. tauto.
    + destruct (edges_from_In _ _ _ Ht2) as [_ Hm].
      apply (wf_dest Hwf _ _ Hm Ht2).
    + apply negb_true_iff. apply not_true_is_false.
      now rewrite existsb_dest.
    + apply negb_false_iff. rewrite existsb_app. simpl.
      now rewrite String.eqb_refl, orb_true_r.
  - intros d. rewrite Hedges, length_app.
    destruct (d =? c); simpl; lia.
Qed.

Lemma pivot_steps_measure (c : string) (g g' : store) :
  clos_trans store (pivot_step c) g g' -> wf g ->
  wf g' /\
  total_edges g' + missing g' c <= total_edges g + missing g c /\
  missing g' c < missing g c /\
  forall d, List.length (edges_from g' d) + missing g' c <=
            List.length (edges_from g d) + missing g c.
Proof.
  induction 1 as [g g' Hstep|g g1 g' _ IH1 _ IH2]; intros Hwf.
  - destruct (pivot_step_measure _ _ _ Hstep Hwf) as [H1 [H2 H3]].
    split; [now apply (pivot_step_wf _ _ _ Hstep)|].
    split; [lia|]. split; [lia|]. intros d. specialize (H3 d). lia.
  - destruct (IH1 Hwf) as [Hwf1 [A1 [B1 C1]]].
    destruct (IH2 Hwf1) as [Hwf2 [A2 [B2 C2]]].
    split; [exact Hwf2|]. split; [lia|]. split; [lia|].
    intros d. specialize (C1 d). specialize (C2 d). lia.
Qed.

Lemma pivot_inner_terminates (c : string) (t : ITranslation) (fuel : nat) :
  forall (j : nat) (g : store) (k : bool),
    wf g -> In t (edges_from g c) ->
    List.length (edges_from g (to_lang t)) + missing g c - j < fuel ->
    exists g' k', pivot_inner fuel c t j g k = Ok (g', k').
Proof.
  induction fuel as [|fuel IH]; intros j g k Hwf Ht Hfuel; [lia|].
  simpl. fold (edges_from g (to_lang t)).
  destruct (nth_error (edges_from g (to_lang t)) j) as [t2|] eqn:Enth;
    [|now eauto].
  assert (Hj : j < List.length (edges_from g (to_lang t))).
  { apply nth_error_Some. now rewrite Enth. }
  destruct (get_translation (deref g c) (deref g (to_lang t2))) eqn:Eget.
  - apply IH; [exact Hwf|exact Ht|lia].
  - assert (Hstep : pivot_step c g (add_composite c t t2 g)).
    { constructor; [exact Ht| |exact Eget]. now apply nth_error_In with j. }
    destruct (pivot_step_measure _ _ _ Hstep Hwf) as [_ [H2 H3]].
    specialize (H3 (to_lang t)).
    apply IH.
    + now apply (pivot_step_wf _ _ _ Hstep).
    + now apply (pivot_step_keeps_edge _ _ _ _ _ Hstep).
    + lia.
Qed.

Lemma pivot_outer_terminates (c : string) (fuel : nat) :
  forall (i : nat) (g : store) (k : bool),
    wf g ->
    (List.length (edges_from g c) + missing g c - i) +
    (total_edges g + missing g c) + 1 < fuel ->
    exists g' k', pivot_outer fuel c i g k = Ok (g', k').
Proof.
  induction fuel as [|fuel IH]; intros i g k Hwf Hfuel; [lia|].
  simpl. fold (edges_from g c).
  destruct (nth_error (edges_from g c) i) as [t|] eqn:Enth; [|now eauto].
  assert (Hi : i < List.length (edges_from g c)).
  { apply nth_error_Some. now rewrite Enth. }
  assert (Ht : In t (edges_from g c)) by now apply nth_error_In with i.
  pose proof (edges_from_le_total g (to_lang t)) as Hle.
  destruct (pivot_inner_terminates c t fuel 0 g k Hwf Ht) as [g1 [k1 Einner]];
    [lia|].
  rewrite Einner. simpl.
  destruct (pivot_inner_spec _ _ _ _ _ _ _ _ Einner Ht)
    as [[-> [-> _]]|[_ Htrans]].
  - apply IH; [exact Hwf|lia].
  - destruct (pivot_steps_measure _ _ _ Htrans Hwf) as [Hwf1 [A [B C]]].
    specialize (C c). apply IH; [exact Hwf1|lia].
Qed.

Lemma pivot_while_terminates (c : string) (fuel : nat) :
  forall (g : store),
    wf g ->
    missing g c + 2 * (total_edges g + missing g c) + 2 < fuel ->
    exists g', pivot_while fuel c g = Ok g'.
Proof.
  induction fuel as [|fuel IH]; intros g Hwf Hfuel; [lia|].
  simpl.
  pose proof (edges_from_le_total g c) as Hle.
  destruct (pivot_outer_terminates c fuel 0 g false Hwf) as [g1 [k1 Eouter]];
    [lia|].
  rewrite Eouter. simpl.
  destruct (pivot_outer_spec _ _ _ _ _ _ _ Eouter) as [[-> [-> _]]|[-> Htrans]].
  - now eauto.
  - destruct (pivot_steps_measure _ _ _ Htrans Hwf) as [Hwf1 [A [B _]]].
    apply IH; [exact Hwf1|lia].
Qed.

(** The budget [pivot_fuel] is never used up. *)
Lemma closure_fuel_enough (g : store) (c : string) :
  wf g -> exists g', close_language g c = Ok g'.
Proof.
  intros Hwf. unfold close_language. apply pivot_while_terminates; [exact Hwf|].
  pose proof (missing_le g c). unfold pivot_fuel. lia.
Qed.

(** A larger budget gives the same result. *)
Lemma pivot_inner_mono (c : string) (t : ITranslation) (fuel : nat) :
  forall (fuel' j : nat) (g : store) (k : bool) (r : store * bool),
    pivot_inner fuel c t j g k = Ok r -> fuel <= fuel' ->
    pivot_inner fuel' c t j g k = Ok r.
Proof.
  induction fuel as [|fuel IH]; intros fuel' j g k r Hrun Hle; [discriminate|].
  destruct fuel' as [|fuel']; [lia|]. simpl in *.
  destruct (nth_error _ j) as [t2|]; [|exact Hrun].
  destruct (get_translation _ _); apply IH; (exact Hrun || lia).
Qed.

Lemma pivot_outer_mono (c : string) (fuel : nat) :
  forall (fuel' i : nat) (g : store) (k : bool) (r : store * bool),
    pivot_outer fuel c i g k = Ok r -> fuel <= fuel' ->
    pivot_outer fuel' c i g k = Ok r.
Proof.
  induction fuel as [|fuel IH]; intros fuel' i g k r Hrun Hle; [discriminate|].
  destruct fuel' as [|fuel']; [lia|]. simpl in *.
  destruct (nth_error _ i) as [t|]; [|exact Hrun].
  destruct (pivot_inner fuel c t 0 g k) as [r1| |] eqn:Einner;
    try discriminate.
  rewrite (pivot_inner_mono c t fuel fuel' 0 g k r1 Einner) by lia.
  simpl in *. apply IH; [exact Hrun|lia].
Qed.

Lemma pivot_while_mono (c : string) (fuel : nat) :
  forall (fuel' : nat) (g g' : store),
    pivot_while fuel c g = Ok g' -> fuel <= fuel' ->
    pivot_while fuel' c g = Ok g'.
Proof.
  induction fuel as [|fuel IH]; intros fuel' g g' Hrun Hle; [discriminate|].
  destruct fuel' as [|fuel']; [lia|]. simpl in *.
  destruct (pivot_outer fuel c 0 g false) as [r1| |] eqn:Eouter;
    try discriminate.
  rewrite (pivot_outer_mono c fuel fuel' 0 g false r1 Eouter) by lia.
  simpl in *. destruct (snd r1); [|exact Hrun].
  apply IH; [exact Hrun|lia].
Qed.

(** ** The store before the pivot loops *)

Lemma wf_nil : wf [].
Proof. constructor; simpl; [constructor|easy|easy]. Qed.

Lemma In_update_edge (c n : string) (e : ITranslation) (g : store)
    (l : Language) :
  In l (update n (append_to e) (update c (append_from e) g)) ->
  exists l0,
    In l0 g /\ code l = code l0 /\
    (translations_from l = translations_from l0 \/
     (code l0 = c /\ translations_from l = translations_from l0 ++ [e])).
Proof.
  intros H.
  apply In_update in H. destruct H as [l1 [H1 Hl]].
  apply In_update in H1. destruct H1 as [l0 [H0 Hl1]].
  exists l0. split; [exact H0|].
  assert (Hl' : code l = code l1 /\ translations_from l = translations_from l1).
  { destruct Hl as [->|[_ ->]]; split; reflexivity. }
  destruct Hl' as [E1 E2]. rewrite E1, E2.
  destruct Hl1 as [->|[Hc ->]]; simpl; auto.
Qed.

Lemma update_edge_codes (c n : string) (e : ITranslation) (g : store) :
  map code (update n (append_to e) (update c (append_from e) g)) = map code g.
Proof.
  rewrite (update_codes _ (append_to_code _)).
  apply (update_codes _ (append_from_code _)).
Qed.

Lemma wf_update_edge (c n : string) (e : ITranslation) (g : store) :
  wf g -> from_lang e = c -> In (to_lang e) (map code g) ->
  wf (update n (append_to e) (update c (append_from e) g)).
Proof.
  intros Hwf Hfrom Hto. constructor.
  - rewrite update_edge_codes. apply (wf_codes Hwf).
  - intros l x Hl Hx. rewrite update_edge_codes.
    apply In_update_edge in Hl. destruct Hl as [l0 [H0 [_ [E|[_ E]]]]];
      rewrite E in Hx.
    + now apply (wf_dest Hwf l0).
    + apply in_app_or in Hx. destruct Hx as [Hx|[<-|[]]];
        [now apply (wf_dest Hwf l0)|exact Hto].
  - intros l x Hl Hx.
    apply In_update_edge in Hl. destruct Hl as [l0 [H0 [Ec [E|[Hc0 E]]]]];
      rewrite E in Hx; rewrite Ec.
    + now apply (wf_from Hwf l0).
    + apply in_app_or in Hx. destruct Hx as [Hx|[<-|[]]];
        [now apply (wf_from Hwf l0)|congruence].
Qed.

Lemma edges_from_update_edge (c n d : string) (e : ITranslation) (g : store) :
  edges_from (update n (append_to e) (update c (append_from e) g)) d =
  edges_from g d ++ (if (d =? c) && contains c g then [e] else []).
Proof. now rewrite edges_from_append_to, edges_from_append_from. Qed.

Lemma ensure_language_codes (c n : string) (g : store) :
  map code (ensure_language c n g) =
  map code g ++ (if contains c g then [] else [c]).
Proof.
  unfold ensure_language. destruct (contains c g).
  - now rewrite app_nil_r.
  - now rewrite map_app.
Qed.

Lemma ensure_language_In (c n : string) (g : store) :
  In c (map code (ensure_language c n g)).
Proof.
  rewrite ensure_language_codes. destruct (contains c g) eqn:E.
  - rewrite app_nil_r. now apply contains_In.
  - apply in_or_app. right. now left.
Qed.

Lemma ensure_language_incl (c n d : string) (g : store) :
  In d (map code g) -> In d (map code (ensure_language c n g)).
Proof.
  intros H. rewrite ensure_language_codes. apply in_or_app. now left.
Qed.

Lemma ensure_language_wf (c n : string) (g : store) :
  wf g -> wf (ensure_language c n g).
Proof.
  intros Hwf. unfold ensure_language. destruct (contains c g) eqn:E;
    [exact Hwf|].
  apply contains_false in E. constructor.
  - rewrite map_app. simpl. apply NoDup_app.
    + apply (wf_codes Hwf).
    + repeat constructor. easy.
    + intros x Hx [<-|[]]. now apply E.
  - intros l e Hl He. rewrite map_app. apply in_or_app.
    apply in_app_or in Hl. destruct Hl as [Hl|[<-|[]]]; [|easy].
    left. now apply (wf_dest Hwf l).
  - intros l e Hl He.
    apply in_app_or in Hl. destruct Hl as [Hl|[<-|[]]]; [|easy].
    now apply (wf_from Hwf l).
Qed.

Lemma deref_app_new (g : store) (c n d : string) :
  translations_from (deref (g ++ [mkLanguage c n [] []]) d) =
  translations_from (deref g d).
Proof.
  unfold deref. induction g as [|x g IH]; simpl.
  - now destruct (c =? d).
  - destruct (code x =? d); [reflexivity|exact IH].
Qed.

Lemma edges_from_ensure_language (c n d : string) (g : store) :
  edges_from (ensure_language c n g) d = edges_from g d.
Proof.
  unfold ensure_language, edges_from. destruct (contains c g); [reflexivity|].
  apply deref_app_new.
Qed.

Lemma load_package_wf (g : store) (p : Package) :
  wf g -> wf (load_package g p).
Proof.
  intros Hwf. unfold load_package. apply wf_update_edge.
  - now apply ensure_language_wf, ensure_language_wf.
  - reflexivity.
  - apply ensure_language_In.
Qed.

Lemma load_package_codes (g : store) (p : Package) (d : string) :
  In d (map code (load_package g p)) <->
  In d (map code g) \/ d = from_code p \/ d = to_code p.
Proof.
  unfold load_package. rewrite update_edge_codes, !ensure_language_codes.
  rewrite !in_app_iff. split.
  - intros [[H|H]|H]; [now left| |].
    + destruct (contains (from_code p) g); [easy|].
      destruct H as [<-|[]]. right. now left.
    + destruct (contains (to_code p) _); [easy|].
      destruct H as [<-|[]]. right. now right.
  - intros [H|[-> | ->]]; [left; now left| |].
    + destruct (contains (from_code p) g) eqn:E; [|left; right; now left].
      left. left. now apply contains_In.
    + pose proof (ensure_language_In (to_code p) (to_name p)
                    (ensure_language (from_code p) (from_name p) g)) as H.
      rewrite !ensure_language_codes, !in_app_iff in H. exact H.
Qed.

Lemma load_package_edges (g : store) (p : Package) (d : string) :
  edges_from (load_package g p) d =
  edges_from g d ++ (if from_code p =? d then [package_edge p] else []).
Proof.
  unfold load_package. rewrite edges_from_update_edge.
  rewrite !edges_from_ensure_language.
  assert (H : contains (from_code p)
                (ensure_language (to_code p) (to_name p)
                   (ensure_language (from_code p) (from_name p) g)) = true).
  { apply contains_In, ensure_language_incl, ensure_language_In. }
  rewrite H, andb_true_r. now rewrite (String.eqb_sym d).
Qed.

Lemma fold_load_wf (packages : list Package) (g : store) :
  wf g -> wf (fold_left load_package packages g).
Proof.
  revert g. induction packages as [|p ps IH]; intros g Hwf; simpl; [exact Hwf|].
  now apply IH, load_package_wf.
Qed.

Lemma fold_load_codes (packages : list Package) (g : store) (d : string) :
  In d (map code (fold_left load_package packages g)) <->
  In d (map code g) \/
  exists p, In p packages /\ (d = from_code p \/ d = to_code p).
Proof.
  revert g. induction packages as [|p ps IH]; intros g; simpl.
  - split; [now left|]. intros [H|[p [[] _]]]. exact H.
  - rewrite IH, load_package_codes. split.
    + intros [[H|H]|[q [Hq H]]]; [now left| |].
      * right. exists p. split; [now left|exact H].
      * right. exists q. split; [now right|exact H].
    + intros [H|[q [[<-|Hq] H]]].
      * left. now left.
      * left. now right.
      * right. now exists q.
Qed.

Lemma fold_load_edges (packages : list Package) (g : store) (d : string) :
  edges_from (fold_left load_package packages g) d =
  edges_from g d ++
  map package_edge (filter (fun p => from_code p =? d) packages).
Proof.
  revert g. induction packages as [|p ps IH]; intros g; simpl.
  - now rewrite app_nil_r.
  - rewrite IH, load_package_edges, <- app_assoc.
    now destruct (from_code p =? d).
Qed.

Lemma add_identity_wf (g : store) (c : string) :
  wf g -> In c (map code g) -> wf (add_identity g c).
Proof. intros Hwf Hc. unfold add_identity. now apply wf_update_edge. Qed.

Lemma fold_identity (cs : list string) :
  forall g : store,
    wf g -> (forall c, In c cs -> In c (map code g)) ->
    wf (fold_left add_identity cs g) /\
    map code (fold_left add_identity cs g) = map code g /\
    forall d, edges_from (fold_left add_identity cs g) d =
              edges_from g d ++
              map IdentityTranslation (filter (fun c => c =? d) cs).
Proof.
  induction cs as [|c cs IH]; intros g Hwf Hcs; simpl.
  - split; [exact Hwf|]. split; [reflexivity|]. intros d.
    now rewrite app_nil_r.
  - assert (Hc : In c (map code g)) by (apply Hcs; now left).
    assert (Hcodes : map code (add_identity g c) = map code g)
      by apply update_edge_codes.
    destruct (IH (add_identity g c)) as [H1 [H2 H3]].
    + now apply add_identity_wf.
    + intros x Hx. rewrite Hcodes. apply Hcs. now right.
    + split; [exact H1|]. split; [now rewrite H2|].
      intros d. rewrite H3. unfold add_identity at 1.
      rewrite edges_from_update_edge, <- app_assoc.
      apply contains_In in Hc. rewrite Hc, andb_true_r.
      rewrite (String.eqb_sym d c). now destruct (c =? d).
Qed.

Lemma filter_eqb_NoDup (cs : list string) (d : string) :
  NoDup cs -> In d cs -> filter (fun c => c =? d) cs = [d].
Proof.
  induction cs as [|c cs IH]; intros Hnd Hin; [easy|].
  inversion Hnd as [|? ? Hc Hnd']; subst. simpl.
  destruct (String.eqb_spec c d) as [->|Hne].
  - f_equal. clear IH Hin Hnd Hnd'. induction cs as [|x cs IH]; [reflexivity|].
    simpl. destruct (String.eqb_spec x d) as [->|_].
    + exfalso. apply Hc. now left.
    + apply IH. intros H. apply Hc. now right.
  - destruct Hin as [->|Hin]; [easy|]. now apply IH.
Qed.

Lemma filter_eqb_absent (cs : list string) (d : string) :
  ~ In d cs -> filter (fun c => c =? d) cs = [].
Proof.
  induction cs as [|c cs IH]; intros Hin; [reflexivity|]. simpl.
  destruct (String.eqb_spec c d) as [->|_].
  - exfalso. apply Hin. now left.
  - apply IH. intros H. apply Hin. now right.
Qed.

(** The store the pivot loops start from: the package edges of each
    language in discovery order, then its identity edge. *)
Lemma base_store (packages : list Package) :
  let g0 := add_identities (load_packages packages) in
  wf g0 /\
  (forall d, In d (map code g0) <->
             exists p, In p packages /\ (d = from_code p \/ d = to_code p)) /\
  forall d, edges_from g0 d =
            map package_edge (filter (fun p => from_code p =? d) packages) ++
            (if contains d g0 then [IdentityTranslation d] else []).
Proof.
  unfold add_identities, load_packages.
  set (g1 := fold_left load_package packages []).
  assert (Hwf1 : wf g1) by apply fold_load_wf, wf_nil.
  destruct (fold_identity (map code g1) g1 Hwf1 (fun c H => H))
    as [Hwf [Hcodes Hedges]].
  split; [exact Hwf|]. split.
  - intros d. rewrite Hcodes. unfold g1. rewrite fold_load_codes. simpl.
    split; [intros [[]|H]; exact H|now right].
  - intros d. rewrite Hedges. unfold g1 at 1. rewrite fold_load_edges. simpl.
    f_equal. destruct (contains d _) eqn:E.
    + apply contains_In in E. rewrite Hcodes in E.
      now rewrite (filter_eqb_NoDup _ _ (wf_codes Hwf1) E).
    + apply contains_false in E. rewrite Hcodes in E.
      now rewrite (filter_eqb_absent _ _ E).
Qed.

(** ** The pivot pass over all languages *)

Lemma pivot_steps_any (c : string) (g g' : store) :
  clos_refl_trans store (pivot_step c) g g' ->
  clos_refl_trans store any_step g g'.
Proof.
  induction 1 as [g g' Hstep| |g g1 g' _ IH1 _ IH2].
  - apply rt_step. exists c. split; [|exact Hstep].
    now destruct (pivot_step_inv _ _ _ Hstep) as [t [t2 [_ [_ [_ [_ [Hc _]]]]]]].
  - apply rt_refl.
  - now apply rt_trans with g1.
Qed.

Lemma for_each_close (cs : list string) :
  forall g : store,
    wf g ->
    exists g',
      for_each close_language cs g = Ok g' /\
      clos_refl_trans store any_step g g' /\
      forall c, In c cs ->
        exists gc,
          clos_refl_trans store any_step g gc /\
          clos_refl_trans store any_step gc g' /\
          closed gc c.
Proof.
  induction cs as [|c cs IH]; intros g Hwf; simpl.
  - exists g. split; [reflexivity|]. split; [apply rt_refl|easy].
  - destruct (closure_fuel_enough g c Hwf) as [g1 Eclose]. rewrite Eclose.
    simpl. unfold close_language in Eclose.
    destruct (pivot_while_spec _ _ _ _ Eclose) as [Hsteps Hclosed].
    apply pivot_steps_any in Hsteps.
    destruct (steps_inv _ _ Hsteps Hwf) as [Hwf1 _].
    destruct (IH g1 Hwf1) as [g' [Erest [Hsteps' Hall]]].
    exists g'. split; [exact Erest|]. split; [now apply rt_trans with g1|].
    intros d [<-|Hd].
    + exists g1. now repeat split.
    + destruct (Hall d Hd) as [gd [H1 [H2 H3]]].
      exists gd. split; [now apply rt_trans with g1|]. now split.
Qed.

Lemma pivot_ext_dest (base l : list ITranslation) (d : string) :
  pivot_ext base l -> In d (map to_lang base) -> In d (map to_lang l).
Proof.
  intros [extra [-> _]] H. rewrite map_app. apply in_or_app. now left.
Qed.

(** In a closed language every language reached by a path of package
    edges is the destination of one of its edges. *)
Lemma closed_reaches (packages : list Package) (g0 g : store) (c : string) :
  (forall d, edges_from g0 d =
             map package_edge (filter (fun p => from_code p =? d) packages) ++
             (if contains d g0 then [IdentityTranslation d] else [])) ->
  (forall d, pivot_ext (edges_from g0 d) (edges_from g d)) ->
  In c (map code g0) ->
  closed g c ->
  forall n, path packages c n -> In n (map to_lang (edges_from g c)).
Proof.
  intros Hbase Hext Hc Hclosed n Hpath. apply clos_rt_rtn1 in Hpath.
  induction Hpath as [|m n [p [Hp [Hfrom Hto]]] _ IH].
  - apply (pivot_ext_dest _ _ _ (Hext c)). rewrite Hbase, map_app.
    apply in_or_app. right. apply contains_In in Hc. rewrite Hc. now left.
  - apply in_map_iff in IH. destruct IH as [t [Ht Hin]].
    assert (Hedge : In (package_edge p) (edges_from g (to_lang t))).
    { apply (pivot_ext_incl _ _ _ (Hext (to_lang t))). rewrite Hbase.
      apply in_or_app. left. apply in_map. apply filter_In.
      split; [exact Hp|]. apply String.eqb_eq. congruence. }
    pose proof (Hclosed t (package_edge p) Hin Hedge) as Hsome.
    simpl in Hsome. rewrite Hto in Hsome.
    destruct (in_dec string_dec n (map to_lang (edges_from g c))) as [H|H];
      [exact H|].
    exfalso. apply Hsome. now apply get_translation_deref_None.
Qed.

(** The graph the OPENNMT branch builds: the pivot pass returns, the
    store stays well formed, every edge list is the initial one followed
    by fresh composite edges, and every path is covered by an edge. *)
Lemma pivot_all_spec (packages : list Package) :
  let g0 := add_identities (load_packages packages) in
  exists g,
    pivot_all g0 = Ok g /\
    wf g /\
    map code g = map code g0 /\
    (forall d, pivot_ext (edges_from g0 d) (edges_from g d)) /\
    (forall c n, In c (map code g) -> path packages c n ->
                 In n (map to_lang (edges_from g c))).
Proof.
  intros g0. destruct (base_store packages) as [Hwf0 [_ Hbase]].
  fold g0 in Hwf0, Hbase.
  destruct (for_each_close (map code g0) g0 Hwf0) as [g [Erun [Hsteps Hall]]].
  destruct (steps_inv _ _ Hsteps Hwf0) as [Hwf [Hcodes Hext]].
  exists g. split; [exact Erun|]. split; [exact Hwf|].
  split; [exact Hcodes|]. split; [exact Hext|].
  intros c n Hc Hpath. rewrite Hcodes in Hc.
  destruct (Hall c Hc) as [gc [H1 [H2 Hclosed]]].
  destruct (steps_inv _ _ H1 Hwf0) as [Hwfc [_ Hextc]].
  destruct (steps_inv _ _ H2 Hwfc) as [_ [_ Hext2]].
  apply (pivot_ext_dest _ _ _ (Hext2 c)).
  now apply (closed_reaches packages g0 gc c Hbase Hextc Hc Hclosed).
Qed.

(** ** Ordering of the returned list *)

Lemma english_first_perm (languages : list Language) :
  Permutation languages (english_first languages).
Proof.
  unfold english_first.
  destruct (find_en 0 languages) as [i|]; [|apply sort_perm].
  destruct (nth_error languages i) as [english|] eqn:E; [|apply sort_perm].
  rewrite <- (firstn_skipn_middle _ _ E) at 1.
  rewrite <- Permutation_middle. apply perm_skip, sort_perm.
Qed.

Lemma english_first_In (languages : list Language) (l : Language) :
  In l (english_first languages) <-> In l languages.
Proof.
  split; apply Permutation_in; [symmetry|]; apply english_first_perm.
Qed.

Lemma english_first_codes (languages : list Language) :
  NoDup (map code languages) -> NoDup (map code (english_first languages)).
Proof.
  apply Permutation_NoDup, Permutation_map, english_first_perm.
Qed.

(** ** The installed languages *)

Lemma installed_opennmt (env : Env) :
  model_provider env = OPENNMT ->
  let packages := translate_packages env in
  let g0 := add_identities (load_packages packages) in
  exists g,
    get_installed_languages env = Ok (english_first g) /\
    wf g /\
    (forall d, In d (map code g) <->
               exists p, In p packages /\ (d = from_code p \/ d = to_code p)) /\
    (forall d, In d (map code g) ->
               pivot_ext
                 (map package_edge
                    (filter (fun p => from_code p =? d) packages) ++
                  [IdentityTranslation d])
                 (edges_from g d)) /\
    (forall c n, In c (map code g) -> path packages c n ->
                 In n (map to_lang (edges_from g c))).
Proof.
  intros Hprov packages g0.
  destruct (pivot_all_spec packages) as [g [Erun [Hwf [Hcodes [Hext Hpath]]]]].
  destruct (base_store packages) as [_ [Hcodes0 Hbase]].
  fold g0 in Erun, Hcodes, Hext, Hcodes0, Hbase.
  exists g. split; [|split; [exact Hwf|split; [|split; [|exact Hpath]]]].
  - unfold get_installed_languages. rewrite Hprov.
    fold (translate_packages env). fold packages. fold g0.
    now rewrite Erun.
  - intros d. rewrite Hcodes. apply Hcodes0.
  - intros d Hd. rewrite Hcodes in Hd. apply contains_In in Hd.
    specialize (Hext d). now rewrite Hbase, Hd in Hext.
Qed.

Lemma installed_record (g : store) (L : Language) :
  wf g -> In L (english_first g) ->
  In L g /\ In (code L) (map code g) /\
  translations_from L = edges_from g (code L).
Proof.
  intros Hwf HL. apply (proj1 (english_first_In g L)) in HL.
  split; [exact HL|]. split; [now apply in_map|].
  unfold edges_from. now rewrite (deref_unique g L (wf_codes Hwf) HL).
Qed.

Lemma libretranslate_loop (languages : list Language) :
  for_each
    (fun (g : store) (from_l : Language) =>
       for_each (fun (g : store) (to_l : Language) => Raise NameError)
         languages g)
    languages languages =
  match languages with
  | [] => Ok []
  | _ :: _ => Raise NameError
  end.
Proof. destruct languages; reflexivity. Qed.

Lemma installed_libretranslate (env : Env) (langs : list Language) :
  model_provider env = LIBRETRANSLATE ->
  get_installed_languages env = Ok langs -> langs = [].
Proof.
  intros Hprov. unfold get_installed_languages.
  rewrite Hprov, libretranslate_loop.
  destruct (map _ (libretranslate_languages env)); [|discriminate].
  now intros [= <-].
Qed.

Lemma installed_openai (env : Env) :
  model_provider env = OPENAI ->
  get_installed_languages env = get_installed_languages (mkEnv OPENAI [] []).
Proof.
  intros Hprov. unfold get_installed_languages. now rewrite Hprov.
Qed.

(** Whatever the provider, a returned list has one language per code. *)
Lemma installed_codes_NoDup (env : Env) (langs : list Language) :
  get_installed_languages env = Ok langs -> NoDup (map code langs).
Proof.
  destruct (model_provider env) eqn:Hprov.
  - destruct (installed_opennmt env Hprov) as [g [E [Hwf _]]].
    rewrite E. intros [= <-]. apply english_first_codes, (wf_codes Hwf).
  - unfold get_installed_languages. rewrite Hprov, libretranslate_loop.
    destruct (map _ (libretranslate_languages env)); [|discriminate].
    intros [= <-]. constructor.
  - unfold get_installed_languages. rewrite Hprov.
    intros [= <-]. vm_compute.
    repeat constructor; simpl; intuition discriminate.
Qed.

Lemma filter_code_unique (l : list Language) (L : Language) :
  NoDup (map code l) -> In L l -> filter (fun x => code x =? code L) l = [L].
Proof.
  induction l as [|x l IH]; intros Hnd Hin; [easy|].
  inversion Hnd as [|? ? Hx Hnd']; subst. simpl.
  destruct Hin as [->|Hin].
  - rewrite String.eqb_refl. f_equal.
    clear IH Hnd Hnd'. induction l as [|y l IH]; [reflexivity|]. simpl.
    destruct (String.eqb_spec (code y) (code L)) as [E|_].
    + exfalso. apply Hx. left. exact E.
    + apply IH. intros H. apply Hx. now right.
  - destruct (String.eqb_spec (code x) (code L)) as [E|_]; [|now apply IH].
    exfalso. apply Hx. rewrite E. now apply in_map.
Qed.

Lemma filter_code_absent (l : list Language) (c : string) :
  ~ In c (map code l) -> filter (fun x => code x =? c) l = [].
Proof.
  induction l as [|x l IH]; intros H; [reflexivity|]. simpl.
  destruct (String.eqb_spec (code x) c) as [E|_].
  - exfalso. apply H. now left.
  - apply IH. intros Hin. apply H. now right.
Qed.

Lemma get_language_from_code_found (env : Env) (langs : list Language)
    (L : Language) :
  get_installed_languages env = Ok langs -> In L langs ->
  get_language_from_code env (code L) = Ok L.
Proof.
  intros E HL. unfold get_language_from_code. rewrite E. simpl.
  now rewrite (filter_code_unique langs L (installed_codes_NoDup env langs E) HL).
Qed.

Lemma get_language_from_code_absent (env : Env) (langs : list Language)
    (c : string) :
  get_installed_languages env = Ok langs -> ~ In c (map code langs) ->
  get_language_from_code env c = Raise IndexError.
Proof.
  intros E Hc. unfold get_language_from_code. rewrite E. simpl.
  now rewrite (filter_code_absent langs c Hc).
Qed.

Lemma get_translation_from_codes_found (env : Env) (langs : list Language)
    (Lf Lt : Language) :
  get_installed_languages env = Ok langs -> In Lf langs -> In Lt langs ->
  get_translation_from_codes env (code Lf) (code Lt) =
  Ok (get_translation Lf Lt).
Proof.
  intros E Hf Ht. unfold get_translation_from_codes.
  rewrite (get_language_from_code_found env langs Lf E Hf).
  rewrite (get_language_from_code_found env langs Lt E Ht).
  reflexivity.
Qed.

Lemma find_app_None (A : Type) (p : A -> bool) (l1 l2 : list A) :
  find p l1 = None -> find p (l1 ++ l2) = find p l2.
Proof.
  induction l1 as [|y l1 IH]; simpl; [reflexivity|].
  destruct (p y); [discriminate|exact IH].
Qed.

Lemma find_package_edge (packages : list Package) (f t : string) :
  find (fun x => to_lang x =? t)
    (map package_edge (filter (fun p => from_code p =? f) packages)) =
  option_map package_edge
    (find (fun p => (from_code p =? f) && (to_code p =? t)) packages).
Proof.
  induction packages as [|p ps IH]; simpl; [reflexivity|].
  destruct (from_code p =? f); simpl; [|exact IH].
  destruct (to_code p =? t); [reflexivity|exact IH].
Qed.

Lemma get_translation_dest (L N : Language) :
  In (code N) (map to_lang (translations_from L)) ->
  exists e,
    get_translation L N = Some e /\
    In e (translations_from L) /\ to_lang e = code N.
Proof.
  intros H. destruct (get_translation L N) as [e|] eqn:E.
  - exists e. split; [reflexivity|]. rewrite get_translation_find in E.
    apply find_some in E. destruct E as [E1 E2].
    split; [exact E1|]. now apply String.eqb_eq.
  - now apply get_translation_None in E.
Qed.

Lemma find_first (A : Type) (p : A -> bool) (l1 l2 : list A) (x : A) :
  (forall y, In y l1 -> p y = false) -> p x = true ->
  find p (l1 ++ x :: l2) = Some x.
Proof.
  intros H Hx. induction l1 as [|y l1 IH]; simpl.
  - now rewrite Hx.
  - rewrite (H y (or_introl eq_refl)). apply IH.
    intros z Hz. apply H. now right.
Qed.

Lemma find_all_false (A : Type) (p : A -> bool) (l : list A) :
  (forall y, In y l -> p y = false) -> find p l = None.
Proof.
  intros H. induction l as [|y l IH]; simpl; [reflexivity|].
  rewrite (H y (or_introl eq_refl)). apply IH.
  intros z Hz. apply H. now right.
Qed.

(** Membership in a concrete list, by evaluation. *)
Ltac in_list := vm_compute; repeat ((left; reflexivity) || right).

(** * The lookup layer *)

(** C8. When [get_installed_languages] returns, [get_language_from_code]
    returns the installed language with the given code if there is one,
    and raises [IndexError] if there is none; it returns no language
    other than an installed one with that code. *)
Theorem get_language_from_code_spec (env : Env) (c : string)
    (langs : list Language) :
  get_installed_languages env = Ok langs ->
  (forall L, In L langs -> code L = c ->
             get_language_from_code env c = Ok L) /\
  (~ In c (map code langs) ->
   get_language_from_code env c = Raise IndexError) /\
  (forall L, get_language_from_code env c = Ok L ->
             In L langs /\ code L = c).
Proof.
  intros E. split; [|split].
  - intros L HL <-. now apply get_language_from_code_found with langs.
  - now apply get_language_from_code_absent.
  - intros L. unfold get_language_from_code. rewrite E. simpl.
    destruct (filter _ langs) as [|x rest] eqn:Ef; [discriminate|].
    intros [= <-].
    assert (Hx : In x (filter (fun y => code y =? c) langs))
      by (rewrite Ef; now left).
    apply filter_In in Hx. destruct Hx as [H1 H2].
    split; [exact H1|]. now apply String.eqb_eq.
Qed.

Lemma get_language_from_code_spec_witness :
  get_language_from_code Sample.env "es" = Ok Sample.es /\
  get_language_from_code Sample.env "xx" = Raise IndexError.
Proof.
  assert (E : get_installed_languages Sample.env
              = Ok (Sample.installed Sample.env))
    by (vm_compute; reflexivity).
  split.
  - apply (proj1 (get_language_from_code_spec Sample.env "es" _ E)).
    + in_list.
    + vm_compute. reflexivity.
  - apply (proj1 (proj2 (get_language_from_code_spec Sample.env "xx" _ E))).
    vm_compute. intros H.
    repeat (destruct H as [H|H]; [discriminate H|]). destruct H.
Defined.


(** C9. When both codes name installed languages,
    [get_translation_from_codes] does not raise: it returns the first
    edge of the source language's [translations_from] whose destination
    is the target code, and [None] when no edge leads there. *)
Theorem get_translation_from_codes_spec (env : Env) (langs : list Language)
    (Lf Lt : Language) :
  get_installed_languages env = Ok langs ->
  In Lf langs -> In Lt langs ->
  get_translation_from_codes env (code Lf) (code Lt) =
    Ok (find (fun x => to_lang x =? code Lt) (translations_from Lf)) /\
  ((forall e, In e (translations_from Lf) -> to_lang e <> code Lt) ->
   get_translation_from_codes env (code Lf) (code Lt) = Ok None) /\
  (forall l1 e l2,
     translations_from Lf = l1 ++ e :: l2 ->
     to_lang e = code Lt ->
     (forall x, In x l1 -> to_lang x <> code Lt) ->
     get_translation_from_codes env (code Lf) (code Lt) = Ok (Some e)).
Proof.
  intros E Hf Ht.
  rewrite (get_translation_from_codes_found env langs Lf Lt E Hf Ht).
  rewrite get_translation_find. split; [reflexivity|]. split.
  - intros H. f_equal. apply find_all_false.
    intros y Hy. apply String.eqb_neq. now apply H.
  - intros l1 e l2 -> He H. f_equal. apply find_first.
    + intros y Hy. apply String.eqb_neq. now apply H.
    + now apply String.eqb_eq.
Qed.

Lemma get_translation_from_codes_spec_witness :
  get_translation_from_codes Sample.env (code Sample.es) (code Sample.en) =
    Ok None /\
  get_translation_from_codes Sample.env (code Sample.en) (code Sample.es) =
    Ok (Some Sample.en_es).
Proof.
  assert (E : get_installed_languages Sample.env
              = Ok (Sample.installed Sample.env))
    by (vm_compute; reflexivity).
  assert (Hen : In Sample.en (Sample.installed Sample.env))
    by in_list.
  assert (Hes : In Sample.es (Sample.installed Sample.env))
    by in_list.
  split.
  - apply (proj1 (proj2 (get_translation_from_codes_spec
                           Sample.env _ _ _ E Hes Hen))).
    intros e He. vm_compute in He.
    repeat (destruct He as [<-|He]; [vm_compute; intros H; discriminate H|]).
    destruct He.
  - eapply (proj2 (proj2 (get_translation_from_codes_spec
                            Sample.env _ _ _ E Hen Hes))
              [] Sample.en_es).
    + vm_compute. reflexivity.
    + vm_compute. reflexivity.
    + intros x [].
Defined.


(** C10. [Language.get_translation] reads nothing of its argument but
    the code, so two [Language] objects with the same code select the
    same edge; hence the edge [get_translation_from_codes] returns is
    the one the source language selects for any object that carries the
    target code, whichever graph that object comes from. *)
Theorem get_translation_code_only :
  (forall self to1 to2 : Language,
     code to1 = code to2 ->
     get_translation self to1 = get_translation self to2) /\
  (forall (env : Env) (langs : list Language) (Lf : Language)
          (t : string) (to' : Language),
     get_installed_languages env = Ok langs ->
     In Lf langs -> In t (map code langs) -> code to' = t ->
     get_translation_from_codes env (code Lf) t =
     Ok (get_translation Lf to')).
Proof.
  split.
  - intros self to1 to2 H. unfold get_translation. now rewrite H.
  - intros env langs Lf t to' E Hf Ht Hto.
    apply in_map_iff in Ht. destruct Ht as [Lt [<- Ht]].
    rewrite (get_translation_from_codes_found env langs Lf Lt E Hf Ht).
    f_equal. unfold get_translation. now rewrite Hto.
Qed.

Lemma get_translation_code_only_witness :
  get_translation_from_codes Sample.env (code Sample.en) "fr" =
  Ok (get_translation Sample.en (mkLanguage "fr" "another object" [] [])).
Proof.
  apply (proj2 get_translation_code_only Sample.env
           (Sample.installed Sample.env) Sample.en
           "fr" (mkLanguage "fr" "another object" [] [])).
  - vm_compute. reflexivity.
  - in_list.
  - in_list.
  - vm_compute. reflexivity.
Defined.


(** * The graph of the OPENNMT provider *)

Lemma NoDup_map_compose (A C D : Type) (f : A -> C) (h : C -> D) (l : list A) :
  NoDup (map (fun x => h (f x)) l) -> NoDup (map f l).
Proof.
  induction l as [|x l IH]; simpl; intros H; [constructor|].
  inversion H as [|? ? Hx Hnd]; subst. constructor; [|now apply IH].
  intros Hin. apply Hx. apply in_map_iff in Hin.
  destruct Hin as [y [E Hy]]. apply in_map_iff. exists y.
  split; [now rewrite E|exact Hy].
Qed.

Lemma NoDup_package_dests (packages : list Package) (d : string) :
  NoDup (map (fun p => (from_code p, to_code p)) packages) ->
  NoDup (map to_code (filter (fun p => from_code p =? d) packages)).
Proof.
  induction packages as [|p ps IH]; simpl; intros H; [constructor|].
  inversion H as [|? ? Hp Hnd]; subst.
  destruct (String.eqb_spec (from_code p) d) as [E|_]; [|now apply IH].
  simpl. constructor; [|now apply IH].
  intros Hin. apply Hp. apply in_map_iff in Hin.
  destruct Hin as [q [Eto Hq]]. apply filter_In in Hq.
  destruct Hq as [Hq Efrom]. apply String.eqb_eq in Efrom.
  apply in_map_iff. exists q. split; [|exact Hq]. congruence.
Qed.

Lemma map_to_lang_package_edge (ps : list Package) :
  map to_lang (map package_edge ps) = map to_code ps.
Proof. rewrite map_map. reflexivity. Qed.

(** C2. With the OPENNMT provider [get_installed_languages] returns, and
    for all languages L and N of the returned list that a path of
    package edges (and identity edges) connects, [L.get_translation(N)]
    is an edge from L to N. *)
Theorem pivot_closure_covers_paths (env : Env) :
  model_provider env = OPENNMT ->
  exists langs,
    get_installed_languages env = Ok langs /\
    forall L N,
      In L langs -> In N langs ->
      path (translate_packages env) (code L) (code N) ->
      exists e,
        get_translation L N = Some e /\
        from_lang e = code L /\ to_lang e = code N.
Proof.
  intros Hprov.
  destruct (installed_opennmt env Hprov) as [g [E [Hwf [_ [_ Hpath]]]]].
  exists (english_first g). split; [exact E|].
  intros L N HL HN Hp.
  destruct (installed_record g L Hwf HL) as [HLg [HLc HLe]].
  pose proof (Hpath _ _ HLc Hp) as Hdest. rewrite <- HLe in Hdest.
  destruct (get_translation_dest L N Hdest) as [e [He [Hin Hto]]].
  exists e. split; [exact He|]. split; [|exact Hto].
  apply (wf_from Hwf L e HLg Hin).
Qed.

Lemma pivot_closure_covers_paths_witness :
  exists langs,
    get_installed_languages Sample.env = Ok langs /\
    forall L N,
      In L langs -> In N langs ->
      path (translate_packages Sample.env) (code L) (code N) ->
      exists e,
        get_translation L N = Some e /\
        from_lang e = code L /\ to_lang e = code N.
Proof. apply (pivot_closure_covers_paths Sample.env). reflexivity. Defined.

(** C3. With the OPENNMT provider the pivot loops end for every list of
    installed packages: [get_installed_languages] returns.  In the
    returned graph the edge list of a language is its package edges and
    its identity edge followed by composite edges, each to a destination
    that no earlier edge of the list has; a pass of the two [for] loops
    that leaves the flag unset has added nothing and ends the [while]
    loop; and on a well-formed store the [while] loop gives the same
    store for every iteration budget from [pivot_fuel] on. *)
Theorem pivot_closure_terminates (env : Env) :
  model_provider env = OPENNMT ->
  (exists langs,
     get_installed_languages env = Ok langs /\
     forall L, In L langs ->
       pivot_ext
         (map package_edge
            (filter (fun p => from_code p =? code L) (translate_packages env)) ++
          [IdentityTranslation (code L)])
         (translations_from L)) /\
  (forall fuel c g g',
     pivot_outer fuel c 0 g false = Ok (g', false) ->
     g' = g /\ pivot_while (S fuel) c g = Ok g) /\
  (forall g c fuel,
     wf g -> pivot_fuel g <= fuel ->
     exists g', close_language g c = Ok g' /\ pivot_while fuel c g = Ok g').
Proof.
  intros Hprov. split; [|split].
  - destruct (installed_opennmt env Hprov) as [g [E [Hwf [_ [Hext _]]]]].
    exists (english_first g). split; [exact E|].
    intros L HL.
    destruct (installed_record g L Hwf HL) as [_ [HLc HLe]].
    rewrite HLe. now apply Hext.
  - intros fuel c g g' Hpass.
    destruct (pivot_outer_spec _ _ _ _ _ _ _ Hpass) as [[-> _]|[Hk _]];
      [|discriminate].
    split; [reflexivity|]. simpl. now rewrite Hpass.
  - intros g c fuel Hwf Hle.
    destruct (closure_fuel_enough g c Hwf) as [g' E].
    exists g'. split; [exact E|].
    now apply pivot_while_mono with (pivot_fuel g).
Qed.

Lemma pivot_closure_terminates_witness :
  exists langs, get_installed_languages Sample.env = Ok langs.
Proof.
  destruct (proj1 (pivot_closure_terminates Sample.env eq_refl))
    as [langs [E _]].
  exists langs. exact E.
Defined.

(** C5 as amended. In every graph [get_installed_languages] returns, no
    two edges of a language's [translations_from] have the same
    (from_lang, to_lang) code pair, provided that, with the OPENNMT
    provider, the installed translate packages have pairwise different
    (from_code, to_code) pairs and none goes from a language to itself
    (and with that provider the function does return). *)
Theorem edge_pairs_unique (env : Env) :
  (model_provider env = OPENNMT ->
   NoDup (map (fun p => (from_code p, to_code p)) (translate_packages env)) /\
   forall p, In p (translate_packages env) -> from_code p <> to_code p) ->
  (model_provider env = OPENNMT ->
   exists langs, get_installed_languages env = Ok langs) /\
  forall langs L,
    get_installed_languages env = Ok langs -> In L langs ->
    NoDup (map code_pair (translations_from L)).
Proof.
  intros Hpkgs. split.
  { intros Hprov. destruct (installed_opennmt env Hprov) as [g [E _]].
    now exists (english_first g). }
  intros langs L E HL. destruct (model_provider env) eqn:Hprov.
  - destruct (Hpkgs eq_refl) as [Hpairs Hself].
    destruct (installed_opennmt env Hprov) as [g [E' [Hwf [_ [Hext _]]]]].
    rewrite E' in E. injection E as <-.
    destruct (installed_record g L Hwf HL) as [_ [HLc HLe]].
    apply (NoDup_map_compose _ _ _ code_pair snd).
    change (NoDup (map to_lang (translations_from L))).
    rewrite HLe. apply (pivot_ext_NoDup _ _ (Hext _ HLc)).
    rewrite map_app, map_to_lang_package_edge. simpl.
    apply NoDup_app.
    + now apply NoDup_package_dests.
    + repeat constructor. easy.
    + intros x Hx [<-|[]]. apply in_map_iff in Hx.
      destruct Hx as [p [Eto Hp]]. apply filter_In in Hp.
      destruct Hp as [Hp Efrom]. apply String.eqb_eq in Efrom.
      apply (Hself p Hp). congruence.
  - rewrite (installed_libretranslate env langs Hprov E) in HL. destruct HL.
  - rewrite (installed_openai env Hprov) in E. vm_compute in E.
    injection E as <-. clear Hpkgs.
    destruct HL as [<-|[<-|[]]]; vm_compute;
      repeat constructor; simpl; intuition discriminate.
Qed.

Lemma edge_pairs_unique_witness :
  NoDup (map code_pair (translations_from Sample.en)).
Proof.
  assert (E : get_installed_languages Sample.env
              = Ok (Sample.installed Sample.env))
    by (vm_compute; reflexivity).
  assert (Hen : In Sample.en (Sample.installed Sample.env)) by in_list.
  refine (proj2 (edge_pairs_unique Sample.env _) _ _ E Hen).
  clear E Hen. intros _. split.
  - vm_compute. repeat constructor; simpl; intuition discriminate.
  - intros p Hp. vm_compute in Hp.
    repeat (destruct Hp as [<-|Hp]; [vm_compute; intros H; discriminate H|]).
    destruct Hp.
Defined.

(** C5 as stated fails: with two installed packages for the pair
    (en, es), the language en has two edges with that pair. *)
Lemma duplicate_package_edges :
  ~ (forall langs L,
       get_installed_languages Sample.dup_env = Ok langs ->
       In L langs -> NoDup (map code_pair (translations_from L))).
Proof.
  intros H.
  assert (E : get_installed_languages Sample.dup_env
              = Ok (Sample.installed Sample.dup_env))
    by (vm_compute; reflexivity).
  assert (HL : In (Sample.language Sample.dup_env "en")
                 (Sample.installed Sample.dup_env)) by in_list.
  pose proof (H _ _ E HL) as Hnd. clear H E HL.
  vm_compute in Hnd.
  inversion Hnd as [|? ? Hnotin _]. apply Hnotin. left. reflexivity.
Qed.

(** C6 as amended. With the OPENNMT provider, for every installed
    translate package, [get_translation_from_codes] on its two codes
    returns a [PackageTranslation] edge for that pair of codes, never an
    identity or composite edge, also after the closure pass: the edge of
    the first discovered package with these codes, which is the
    package's own edge when no other installed package has the same
    pair. *)
Theorem direct_edge_kept (env : Env) (p : Package) :
  model_provider env = OPENNMT ->
  In p (translate_packages env) ->
  exists q,
    find (fun x => (from_code x =? from_code p) && (to_code x =? to_code p))
      (translate_packages env) = Some q /\
    get_translation_from_codes env (from_code p) (to_code p) =
      Ok (Some (PackageTranslation (from_code p) (to_code p) q)) /\
    ((forall p', In p' (translate_packages env) ->
                 from_code p' = from_code p -> to_code p' = to_code p ->
                 p' = p) ->
     q = p).
Proof.
  intros Hprov Hp.
  destruct (find (fun x => (from_code x =? from_code p) &&
                           (to_code x =? to_code p))
              (translate_packages env)) as [q|] eqn:Efind.
  2:{ apply (find_none _ _ Efind) in Hp.
      now rewrite !String.eqb_refl in Hp. }
  exists q. split; [reflexivity|].
  pose proof (find_some _ _ Efind) as [Hq Hqc].
  apply andb_true_iff in Hqc. destruct Hqc as [Hqf Hqt].
  apply String.eqb_eq in Hqf, Hqt.
  split; [|intros Huniq; now apply Huniq].
  destruct (installed_opennmt env Hprov) as [g [E [Hwf [Hcodes [Hext _]]]]].
  assert (Hf : In (from_code p) (map code g)).
  { apply Hcodes. exists p. split; [exact Hp|now left]. }
  assert (Ht : In (to_code p) (map code g)).
  { apply Hcodes. exists p. split; [exact Hp|now right]. }
  pose proof (proj2 (english_first_In g _) (deref_In g _ Hf)) as HLf.
  pose proof (proj2 (english_first_In g _) (deref_In g _ Ht)) as HLt.
  pose proof (get_translation_from_codes_found env _ _ _ E HLf HLt) as Hget.
  rewrite !deref_code in Hget. rewrite Hget. f_equal.
  rewrite get_translation_find, deref_code.
  apply (pivot_ext_find _ _ _ _ (Hext _ Hf)).
  apply find_app_Some. rewrite find_package_edge, Efind. simpl.
  unfold package_edge. now rewrite Hqf, Hqt.
Qed.

Lemma direct_edge_kept_witness :
  get_translation_from_codes Sample.env "es" "fr" = Ok (Some Sample.es_fr).
Proof.
  destruct (direct_edge_kept Sample.env (Sample.pkg "es" "fr") eq_refl)
    as [q [Efind [Eget _]]].
  - in_list.
  - vm_compute in Efind. injection Efind as <-. exact Eget.
Defined.

(** C6 as stated fails: with two installed packages for the pair
    (en, es), the edge of the second package is a discovered direct edge
    from en to es, and [get_translation_from_codes] on these codes
    returns the edge of the first package, not that edge. *)
Lemma second_package_edge_not_returned :
  ~ (forall langs L t p,
       get_installed_languages Sample.dup_env = Ok langs ->
       In L langs ->
       In t (translations_from L) ->
       t = package_edge p ->
       from_lang t <> to_lang t ->
       get_translation_from_codes Sample.dup_env (from_lang t) (to_lang t) =
         Ok (Some t)).
Proof.
  intros H.
  assert (E : get_installed_languages Sample.dup_env
              = Ok (Sample.installed Sample.dup_env))
    by (vm_compute; reflexivity).
  assert (HL : In (Sample.language Sample.dup_env "en")
                 (Sample.installed Sample.dup_env)) by in_list.
  assert (Ht : In (package_edge
                     (mkPackage "translate" "en" "English" "es" "Spanish"
                        "translate-en_es-1_9"))
                 (translations_from (Sample.language Sample.dup_env "en")))
    by in_list.
  pose proof (H _ _ _ _ E HL Ht eq_refl) as Hget. clear H E HL Ht.
  assert (Hne : from_lang
                  (package_edge
                     (mkPackage "translate" "en" "English" "es" "Spanish"
                        "translate-en_es-1_9")) <>
                to_lang
                  (package_edge
                     (mkPackage "translate" "en" "English" "es" "Spanish"
                        "translate-en_es-1_9")))
    by (vm_compute; intros Hx; discriminate Hx).
  specialize (Hget Hne). clear Hne.
  vm_compute in Hget. discriminate Hget.
Qed.

(** C7 as amended. For every language L of a list
    [get_installed_languages] returns, [L.get_translation(L)] is an edge
    from L to L; with the OPENNMT provider (for which the function does
    return), when no installed translate package goes from L to L, that
    edge is the identity edge, whose [hypotheses(x, n)] is [n] copies of
    [Hypothesis(x, 0)] and whose [translate(x)] is [x]. *)
Theorem identity_lookup (env : Env) :
  (model_provider env = OPENNMT ->
   exists langs, get_installed_languages env = Ok langs) /\
  forall langs L,
    get_installed_languages env = Ok langs -> In L langs ->
    (exists e, get_translation L L = Some e /\
               from_lang e = code L /\ to_lang e = code L) /\
    (model_provider env = OPENNMT ->
     (forall p, In p (translate_packages env) ->
                from_code p = code L -> to_code p <> code L) ->
     get_translation L L = Some (IdentityTranslation (code L)) /\
     forall (B : Backends) (x : string) (n : nat),
       hypotheses B (IdentityTranslation (code L)) x n =
         Ok (repeat (mkHyp x 0) n) /\
       translate_with B (IdentityTranslation (code L)) x = Ok x).
Proof.
  split.
  { intros Hprov. destruct (installed_opennmt env Hprov) as [g [E _]].
    now exists (english_first g). }
  intros langs L E HL. destruct (model_provider env) eqn:Hprov.
  - destruct (installed_opennmt env Hprov)
      as [g [E' [Hwf [_ [Hext Hpath]]]]].
    rewrite E' in E. injection E as <-.
    destruct (installed_record g L Hwf HL) as [HLg [HLc HLe]].
    split.
    + assert (Hdest : In (code L) (map to_lang (translations_from L))).
      { rewrite HLe. apply Hpath; [exact HLc|]. apply rt_refl. }
      destruct (get_translation_dest L L Hdest) as [e [He [Hin Hto]]].
      exists e. split; [exact He|]. split; [|exact Hto].
      apply (wf_from Hwf L e HLg Hin).
    + intros _ Hnoself. split.
      * rewrite get_translation_find, HLe.
        apply (pivot_ext_find _ _ _ _ (Hext _ HLc)).
        rewrite find_app_None.
        -- simpl. now rewrite String.eqb_refl.
        -- apply find_all_false. intros y Hy. apply in_map_iff in Hy.
           destruct Hy as [p [<- Hp]]. apply filter_In in Hp.
           destruct Hp as [Hp Efrom]. apply String.eqb_eq in Efrom.
           apply String.eqb_neq. simpl. now apply Hnoself.
      * intros B x n. split.
        -- simpl. now rewrite IdentityTranslation_hypotheses_repeat.
        -- reflexivity.
  - rewrite (installed_libretranslate env langs Hprov E) in HL. destruct HL.
  - rewrite (installed_openai env Hprov) in E. vm_compute in E.
    injection E as <-.
    split; [|discriminate].
    destruct HL as [<-|[<-|[]]]; eexists; vm_compute; repeat split.
Qed.

Lemma identity_lookup_witness :
  get_translation Sample.es Sample.es =
  Some (IdentityTranslation (code Sample.es)).
Proof.
  assert (E : get_installed_languages Sample.env
              = Ok (Sample.installed Sample.env))
    by (vm_compute; reflexivity).
  assert (Hes : In Sample.es (Sample.installed Sample.env)) by in_list.
  refine (proj1 (proj2 (proj2 (identity_lookup Sample.env) _ _ E Hes)
                   eq_refl _)).
  clear E Hes. intros p Hp. vm_compute in Hp.
  repeat (destruct Hp as [<-|Hp];
          [vm_compute; intros H1 H2; (discriminate H1 || discriminate H2)|]).
  destruct Hp.
Defined.

(** C7 as stated fails: with an installed package from en to en, the
    first edge from en to en is the package's, and its translation of a
    text is the model's output, not the text. *)
Lemma self_package_shadows_identity :
  ~ (forall langs L,
       get_installed_languages Sample.self_env = Ok langs ->
       In L langs ->
       exists e,
         get_translation L L = Some e /\
         forall x, translate_with Sample.backends e x = Ok x).
Proof.
  intros H.
  assert (E : get_installed_languages Sample.self_env
              = Ok (Sample.installed Sample.self_env))
    by (vm_compute; reflexivity).
  assert (HL : In (Sample.language Sample.self_env "en")
                 (Sample.installed Sample.self_env)) by in_list.
  destruct (H _ _ E HL) as [e [He Hx]]. clear H E HL.
  vm_compute in He. injection He as <-.
  specialize (Hx "a"). vm_compute in Hx. discriminate Hx.
Qed.

(** * Examples from the specification *)

Example identity_hello :
  hypotheses Sample.backends (IdentityTranslation "en") "hello" 3 =
  Ok [mkHyp "hello" 0; mkHyp "hello" 0; mkHyp "hello" 0].
Proof. reflexivity. Qed.

Example english_first_order :
  map name
    (english_first
       [mkLanguage "es" "Spanish" [] []; mkLanguage "en" "English" [] [];
        mkLanguage "fr" "French" [] []]) =
  ["English"; "French"; "Spanish"].
Proof. vm_compute. reflexivity. Qed.

Example pivot_en_fr :
  get_translation_from_codes Sample.env "en" "fr" =
  Ok (Some (CompositeTranslation Sample.en_es Sample.es_fr)).
Proof. vm_compute. reflexivity. Qed.

Example unknown_code :
  get_language_from_code Sample.env "xx" = Raise IndexError.
Proof. vm_compute. reflexivity. Qed.

(** * Further properties of the OPENNMT graph *)

Lemma steps_preserve (P : store -> Prop) (g0 g : store) :
  wf g0 -> P g0 ->
  (forall c g1 g2, wf g1 -> P g1 -> pivot_step c g1 g2 -> P g2) ->
  clos_refl_trans store any_step g0 g -> P g.
Proof.
  intros Hwf HP Hstep H. apply clos_rt_rtn1 in H.
  induction H as [|g1 g2 [c [_ Hs]] Hrest IH]; [exact HP|].
  apply clos_rtn1_rt in Hrest.
  destruct (steps_inv g0 g1 Hrest Hwf) as [Hwf1 _].
  now apply (Hstep c g1 g2 Hwf1 IH).
Qed.

(** The graph of the OPENNMT branch, with the steps that led to it. *)
Lemma opennmt_graph (env : Env) :
  model_provider env = OPENNMT ->
  let packages := translate_packages env in
  let g0 := add_identities (load_packages packages) in
  exists g,
    get_installed_languages env = Ok (english_first g) /\
    pivot_all g0 = Ok g /\
    wf g0 /\ wf g /\
    clos_refl_trans store any_step g0 g /\
    (forall d, edges_from g0 d =
               map package_edge (filter (fun p => from_code p =? d) packages) ++
               (if contains d g0 then [IdentityTranslation d] else [])) /\
    (forall c n, In c (map code g) -> path packages c n ->
                 In n (map to_lang (edges_from g c))).
Proof.
  intros Hprov packages g0.
  destruct (base_store packages) as [Hwf0 [_ Hbase]].
  fold g0 in Hwf0, Hbase.
  destruct (for_each_close (map code g0) g0 Hwf0) as [g [Erun [Hsteps _]]].
  destruct (pivot_all_spec packages) as [g' [Erun' [Hwf [_ [_ Hpath]]]]].
  fold g0 in Erun', Hpath. unfold pivot_all in Erun'. rewrite Erun in Erun'.
  injection Erun' as <-.
  exists g. split; [|split; [exact Erun|]].
  - unfold get_installed_languages. rewrite Hprov.
    fold (translate_packages env). fold packages. fold g0.
    unfold pivot_all. now rewrite Erun.
  - split; [exact Hwf0|]. split; [exact Hwf|]. split; [exact Hsteps|].
    split; [exact Hbase|exact Hpath].
Qed.

Lemma base_edge_cases (packages : list Package) (g0 : store) (d : string)
    (e : ITranslation) :
  (forall d, edges_from g0 d =
             map package_edge (filter (fun p => from_code p =? d) packages) ++
             (if contains d g0 then [IdentityTranslation d] else [])) ->
  In e (edges_from g0 d) ->
  (exists p, In p packages /\ from_code p = d /\ e = package_edge p) \/
  e = IdentityTranslation d.
Proof.
  intros Hbase He. rewrite Hbase in He. apply in_app_or in He.
  destruct He as [He|He].
  - left. apply in_map_iff in He. destruct He as [p [<- Hp]].
    apply filter_In in Hp. destruct Hp as [Hp E]. apply String.eqb_eq in E.
    now exists p.
  - right. destruct (contains d g0); [|easy]. now destruct He as [<-|[]].
Qed.

Lemma sound_step (packages : list Package) (c : string) (g1 g2 : store) :
  wf g1 -> sound packages g1 -> pivot_step c g1 g2 -> sound packages g2.
Proof.
  intros _ Hs Hstep d e He.
  destruct (pivot_step_inv _ _ _ Hstep)
    as [t [t2 [_ [Ht [Ht2 [_ [_ Hedges]]]]]]].
  rewrite Hedges in He. apply in_app_or in He. destruct He as [He|He].
  - now apply Hs.
  - destruct (String.eqb_spec d c) as [->|_]; [|easy].
    destruct He as [<-|[]]. simpl.
    apply rt_trans with (to_lang t); now apply Hs.
Qed.

Lemma sound_base (packages : list Package) (g0 : store) :
  (forall d, edges_from g0 d =
             map package_edge (filter (fun p => from_code p =? d) packages) ++
             (if contains d g0 then [IdentityTranslation d] else [])) ->
  sound packages g0.
Proof.
  intros Hbase d e He.
  destruct (base_edge_cases packages g0 d e Hbase He) as [[p [Hp [<- ->]]]| ->].
  - apply rt_step. now exists p.
  - apply rt_refl.
Qed.

Lemma closed_no_step (c : string) (g g' : store) :
  closed g c -> clos_refl_trans store (pivot_step c) g g' -> g' = g.
Proof.
  intros Hclosed H. apply clos_rt_rt1n in H.
  destruct H as [|g1 g' Hstep _]; [reflexivity|].
  destruct Hstep as [t t2 Ht Ht2 Hnone].
  now destruct (Hclosed t t2 Ht Ht2).
Qed.

Lemma closed_close_language (g : store) (c : string) :
  wf g -> closed g c -> close_language g c = Ok g.
Proof.
  intros Hwf Hclosed.
  destruct (closure_fuel_enough g c Hwf) as [g' E]. rewrite E.
  unfold close_language in E.
  destruct (pivot_while_spec _ _ _ _ E) as [Hsteps _].
  now rewrite (closed_no_step c g g' Hclosed Hsteps).
Qed.

Lemma closed_for_each (g : store) (cs : list string) :
  wf g -> (forall c, In c cs -> closed g c) ->
  for_each close_language cs g = Ok g.
Proof.
  intros Hwf. induction cs as [|c cs IH]; intros H; simpl; [reflexivity|].
  rewrite (closed_close_language g c Hwf) by (apply H; now left).
  simpl. apply IH. intros d Hd. apply H. now right.
Qed.

Lemma sound_closed (packages : list Package) (g : store) (c : string) :
  sound packages g ->
  (forall n, path packages c n -> In n (map to_lang (edges_from g c))) ->
  closed g c.
Proof.
  intros Hs Hcover t t2 Ht Ht2 Hnone.
  apply get_translation_deref_None in Hnone. apply Hnone, Hcover.
  apply rt_trans with (to_lang t); now apply Hs.
Qed.

Lemma edges_built_step (packages : list Package) (c : string) (g1 g2 : store) :
  wf g1 ->
  (forall d e, In e (edges_from g1 d) ->
               chained e /\ (e = IdentityTranslation d \/ built_from packages e)) ->
  pivot_step c g1 g2 ->
  forall d e, In e (edges_from g2 d) ->
              chained e /\ (e = IdentityTranslation d \/ built_from packages e).
Proof.
  intros Hwf H Hstep d e He.
  destruct (pivot_step_inv _ _ _ Hstep)
    as [t [t2 [_ [Ht [Ht2 [Hnew [_ Hedges]]]]]]].
  rewrite Hedges in He. apply in_app_or in He. destruct He as [He|He];
    [now apply H|].
  destruct (String.eqb_spec d c) as [->|_]; [|easy].
  destruct He as [<-|[]].
  destruct (H _ _ Ht) as [Hc1 Hb1]. destruct (H _ _ Ht2) as [Hc2 Hb2].
  destruct (edges_from_In _ _ _ Ht) as [_ Hdc].
  destruct (edges_from_In _ _ _ Ht2) as [_ Hdm].
  pose proof (wf_from Hwf _ _ Hdm Ht2) as Hfrom2. rewrite deref_code in Hfrom2.
  split; [simpl; now repeat split|]. right. simpl. split.
  - destruct Hb1 as [->|Hb1]; [|exact Hb1].
    exfalso. apply Hnew. simpl in Ht2. now apply in_map.
  - destruct Hb2 as [->|Hb2]; [|exact Hb2].
    exfalso. apply Hnew. simpl. now apply in_map.
Qed.

Lemma steps_are_edges_step (c : string) (g1 g2 : store) :
  wf g1 -> steps_are_edges g1 -> pivot_step c g1 g2 -> steps_are_edges g2.
Proof.
  intros _ H Hstep d t1' t2' He.
  destruct (pivot_step_inv _ _ _ Hstep)
    as [t [t2 [_ [Ht [Ht2 [_ [_ Hedges]]]]]]].
  assert (Hkeep : forall x y, In y (edges_from g1 x) -> In y (edges_from g2 x)).
  { intros x y Hy. rewrite Hedges. apply in_or_app. now left. }
  rewrite Hedges in He. apply in_app_or in He. destruct He as [He|He].
  - destruct (H _ _ _ He) as [H1 H2]. split; now apply Hkeep.
  - destruct (String.eqb_spec d c) as [->|_]; [|easy].
    destruct He as [[= <- <-]|[]]. split; now apply Hkeep.
Qed.

(** ** The incoming edges *)

Lemma contains_update (f : Language -> Language) (c n : string) (g : store) :
  (forall l, code (f l) = code l) ->
  contains n (update c f g) = contains n g.
Proof.
  intros Hf. destruct (contains n g) eqn:E.
  - apply contains_In. rewrite (update_codes f Hf). now apply contains_In.
  - apply contains_false. rewrite (update_codes f Hf). now apply contains_false.
Qed.

Lemma edges_to_append_from (t : ITranslation) (c d : string) (g : store) :
  edges_to (update c (append_from t) g) d = edges_to g d.
Proof.
  unfold edges_to. rewrite (deref_update _ (append_from_code t)).
  now destruct ((d =? c) && contains c g).
Qed.

Lemma edges_to_append_to (t : ITranslation) (c d : string) (g : store) :
  edges_to (update c (append_to t) g) d =
  edges_to g d ++ (if (d =? c) && contains c g then [t] else []).
Proof.
  unfold edges_to. rewrite (deref_update _ (append_to_code t)).
  destruct ((d =? c) && contains c g); simpl; [reflexivity|].
  now rewrite app_nil_r.
Qed.

Lemma edges_to_update_edge (c n d : string) (e : ITranslation) (g : store) :
  edges_to (update n (append_to e) (update c (append_from e) g)) d =
  edges_to g d ++ (if (d =? n) && contains n g then [e] else []).
Proof.
  rewrite edges_to_append_to, edges_to_append_from.
  now rewrite (contains_update _ c n g (append_from_code e)).
Qed.

Lemma edges_to_ensure_language (c n d : string) (g : store) :
  edges_to (ensure_language c n g) d = edges_to g d.
Proof.
  unfold ensure_language, edges_to. destruct (contains c g); [reflexivity|].
  unfold deref. induction g as [|x g IH]; simpl.
  - now destruct (c =? d).
  - destruct (code x =? d); [reflexivity|exact IH].
Qed.

Lemma mirrored_update_edge (c n : string) (e0 : ITranslation) (g : store) :
  mirrored g -> from_lang e0 = c -> to_lang e0 = n ->
  In c (map code g) -> In n (map code g) ->
  mirrored (update n (append_to e0) (update c (append_from e0) g)).
Proof.
  intros Hm Hfrom Hto Hc Hn e c' d.
  rewrite edges_from_update_edge, edges_to_update_edge.
  apply contains_In in Hc, Hn. rewrite Hc, Hn, !andb_true_r.
  rewrite !in_app_iff. split.
  - intros [[He|He] Hd].
    + destruct (proj1 (Hm e c' d) (conj He Hd)) as [H1 H2]. now split; [left|].
    + destruct (String.eqb_spec c' c) as [->|_]; [|easy].
      destruct He as [<-|[]]. rewrite <- Hd, Hto, String.eqb_refl.
      split; [right; now left|exact Hfrom].
  - intros [[He|He] Hc'].
    + destruct (proj2 (Hm e c' d) (conj He Hc')) as [H1 H2]. now split; [left|].
    + destruct (String.eqb_spec d n) as [Edn|_]; [|easy].
      destruct He as [<-|[]]. rewrite <- Hc', Hfrom, String.eqb_refl.
      split; [right; now left|now rewrite Edn].
Qed.

Lemma mirrored_nil : mirrored [].
Proof. intros e c d. unfold edges_from, edges_to. simpl. tauto. Qed.

Lemma mirrored_ensure_language (c n : string) (g : store) :
  mirrored g -> mirrored (ensure_language c n g).
Proof.
  intros Hm e c' d.
  rewrite edges_from_ensure_language, edges_to_ensure_language. apply Hm.
Qed.

Lemma mirrored_load_package (g : store) (p : Package) :
  mirrored g -> mirrored (load_package g p).
Proof.
  intros Hm. unfold load_package. apply mirrored_update_edge.
  - now apply mirrored_ensure_language, mirrored_ensure_language.
  - reflexivity.
  - reflexivity.
  - apply ensure_language_incl, ensure_language_In.
  - apply ensure_language_In.
Qed.

Lemma mirrored_fold_load (packages : list Package) (g : store) :
  mirrored g -> mirrored (fold_left load_package packages g).
Proof.
  revert g. induction packages as [|p ps IH]; intros g Hm; simpl; [exact Hm|].
  now apply IH, mirrored_load_package.
Qed.

Lemma mirrored_fold_identity (cs : list string) :
  forall g : store,
    mirrored g -> (forall c, In c cs -> In c (map code g)) ->
    mirrored (fold_left add_identity cs g).
Proof.
  induction cs as [|c cs IH]; intros g Hm Hcs; simpl; [exact Hm|].
  assert (Hc : In c (map code g)) by (apply Hcs; now left).
  apply IH.
  - unfold add_identity. now apply mirrored_update_edge.
  - intros x Hx. unfold add_identity. rewrite update_edge_codes.
    apply Hcs. now right.
Qed.

Lemma mirrored_base (packages : list Package) :
  mirrored (add_identities (load_packages packages)).
Proof.
  unfold add_identities, load_packages. apply mirrored_fold_identity.
  - apply mirrored_fold_load, mirrored_nil.
  - now intros c Hc.
Qed.

Lemma mirrored_step (c : string) (g1 g2 : store) :
  wf g1 -> mirrored g1 -> pivot_step c g1 g2 -> mirrored g2.
Proof.
  intros Hwf Hm Hstep. destruct Hstep as [t t2 Ht Ht2 _].
  destruct (edges_from_In _ _ _ Ht) as [Hc Hdc].
  destruct (edges_from_In _ _ _ Ht2) as [_ Hdm].
  unfold add_composite. apply mirrored_update_edge.
  - exact Hm.
  - simpl. rewrite (wf_from Hwf _ _ Hdc Ht). apply deref_code.
  - reflexivity.
  - exact Hc.
  - apply (wf_dest Hwf _ _ Hdm Ht2).
Qed.

Lemma installed_record_to (g : store) (L : Language) :
  wf g -> In L (english_first g) ->
  translations_to L = edges_to g (code L).
Proof.
  intros Hwf HL. apply (proj1 (english_first_In g L)) in HL.
  unfold edges_to. now rewrite (deref_unique g L (wf_codes Hwf) HL).
Qed.

(** ** The names of the languages *)

Lemma find_app (A : Type) (p : A -> bool) (l1 l2 : list A) :
  find p (l1 ++ l2) =
  match find p l1 with
  | Some x => Some x
  | None => find p l2
  end.
Proof.
  induction l1 as [|y l1 IH]; simpl; [reflexivity|].
  destruct (p y); [reflexivity|exact IH].
Qed.

Lemma find_name_update (f : Language -> Language) (c d : string) (g : store) :
  (forall l, code (f l) = code l) -> (forall l, name (f l) = name l) ->
  option_map name (find (fun l => code l =? d) (update c f g)) =
  option_map name (find (fun l => code l =? d) g).
Proof.
  intros Hc Hn. unfold update. induction g as [|x g IH]; simpl; [reflexivity|].
  destruct (code x =? c); [rewrite Hc|]; destruct (code x =? d); simpl;
    try exact IH; try reflexivity.
  now rewrite Hn.
Qed.

Lemma find_name_update_edge (c n d : string) (e : ITranslation) (g : store) :
  option_map name
    (find (fun l => code l =? d)
       (update n (append_to e) (update c (append_from e) g))) =
  option_map name (find (fun l => code l =? d) g).
Proof.
  rewrite (find_name_update (append_to e) n d) by reflexivity.
  now rewrite (find_name_update (append_from e) c d) by reflexivity.
Qed.

Lemma find_name_ensure (c n d : string) (g : store) :
  option_map name (find (fun l => code l =? d) (ensure_language c n g)) =
  match option_map name (find (fun l => code l =? d) g) with
  | Some x => Some x
  | None => if c =? d then Some n else None
  end.
Proof.
  unfold ensure_language. destruct (contains c g) eqn:E.
  - destruct (find (fun l => code l =? d) g) as [l|] eqn:Ef; [reflexivity|].
    simpl. destruct (String.eqb_spec c d) as [->|_]; [|reflexivity].
    apply contains_In, in_map_iff in E. destruct E as [l [E Hl]].
    apply (find_none _ _ Ef) in Hl. rewrite E, String.eqb_refl in Hl.
    discriminate.
  - rewrite find_app. destruct (find (fun l => code l =? d) g); [reflexivity|].
    simpl. now destruct (c =? d).
Qed.

Lemma find_name_load_package (g : store) (p : Package) (d : string) :
  option_map name (find (fun l => code l =? d) (load_package g p)) =
  match option_map name (find (fun l => code l =? d) g) with
  | Some x => Some x
  | None => first_name [p] d
  end.
Proof.
  unfold load_package. rewrite find_name_update_edge, !find_name_ensure.
  simpl. destruct (option_map name (find _ g)); [reflexivity|].
  now destruct (from_code p =? d).
Qed.

Lemma find_name_fold_load (packages : list Package) (g : store) (d : string) :
  option_map name (find (fun l => code l =? d) (fold_left load_package packages g)) =
  match option_map name (find (fun l => code l =? d) g) with
  | Some x => Some x
  | None => first_name packages d
  end.
Proof.
  revert g. induction packages as [|p ps IH]; intros g; simpl.
  - now destruct (option_map name _).
  - rewrite IH, find_name_load_package. simpl.
    destruct (option_map name (find _ g)); [reflexivity|].
    destruct (from_code p =? d); [reflexivity|].
    now destruct (to_code p =? d).
Qed.

Lemma find_name_fold_identity (cs : list string) (g : store) (d : string) :
  option_map name (find (fun l => code l =? d) (fold_left add_identity cs g)) =
  option_map name (find (fun l => code l =? d) g).
Proof.
  revert g. induction cs as [|c cs IH]; intros g; simpl; [reflexivity|].
  rewrite IH. unfold add_identity. apply find_name_update_edge.
Qed.

Lemma find_name_steps (g0 g : store) (d : string) :
  clos_refl_trans store any_step g0 g ->
  option_map name (find (fun l => code l =? d) g) =
  option_map name (find (fun l => code l =? d) g0).
Proof.
  intros H. apply clos_rt_rtn1 in H.
  induction H as [|g1 g2 [c [_ Hs]] _ IH]; [reflexivity|].
  rewrite <- IH. destruct Hs as [t t2 _ _ _]. unfold add_composite.
  apply find_name_update_edge.
Qed.

Lemma find_unique (g : store) (l : Language) :
  NoDup (map code g) -> In l g -> find (fun x => code x =? code l) g = Some l.
Proof.
  intros Hnd Hl. pose proof (deref_unique g l Hnd Hl) as H. unfold deref in H.
  destruct (find _ g) as [x|] eqn:E; [now rewrite H|].
  apply (find_none _ _ E) in Hl. now rewrite String.eqb_refl in Hl.
Qed.

Lemma english_first_code_In (languages : list Language) (c : string) :
  In c (map code (english_first languages)) <-> In c (map code languages).
Proof.
  split; apply Permutation_in, Permutation_map;
    [symmetry|]; apply english_first_perm.
Qed.

(** ** Statements on the returned list *)

(** X1. With the OPENNMT provider the returned list has exactly one
    language per code that an installed translate package mentions as
    its source or its target, and each language bears the name given by
    the first package that mentions its code (the source side of a
    package before its target side). *)
Theorem installed_languages_of_packages (env : Env) :
  model_provider env = OPENNMT ->
  exists langs,
    get_installed_languages env = Ok langs /\
    NoDup (map code langs) /\
    (forall c, In c (map code langs) <->
               exists p, In p (translate_packages env) /\
                         (c = from_code p \/ c = to_code p)) /\
    forall L, In L langs ->
              first_name (translate_packages env) (code L) = Some (name L).
Proof.
  intros Hprov.
  destruct (opennmt_graph env Hprov) as [g [E [_ [Hwf0 [Hwf [Hsteps _]]]]]].
  destruct (steps_inv _ _ Hsteps Hwf0) as [_ [Hcodes _]].
  destruct (base_store (translate_packages env)) as [_ [Hcodes0 _]].
  exists (english_first g). split; [exact E|]. split; [|split].
  - apply english_first_codes, (wf_codes Hwf).
  - intros c. rewrite english_first_code_In, Hcodes. apply Hcodes0.
  - intros L HL. apply (proj1 (english_first_In g L)) in HL.
    pose proof (find_name_steps _ _ (code L) Hsteps) as Hn.
    rewrite (find_unique g L (wf_codes Hwf) HL) in Hn. simpl in Hn.
    unfold add_identities, load_packages in Hn.
    rewrite find_name_fold_identity, find_name_fold_load in Hn.
    simpl in Hn. now symmetry.
Qed.

Lemma installed_languages_of_packages_witness :
  exists langs,
    get_installed_languages Sample.env = Ok langs /\
    NoDup (map code langs) /\
    (forall c, In c (map code langs) <->
               exists p, In p (translate_packages Sample.env) /\
                         (c = from_code p \/ c = to_code p)) /\
    forall L, In L langs ->
              first_name (translate_packages Sample.env) (code L) =
              Some (name L).
Proof. exact (installed_languages_of_packages Sample.env eq_refl). Defined.

(** X2. With the OPENNMT provider every edge in [L.translations_from]
    starts at L and leads to a language of the returned list, and it is
    listed at both ends: an edge is among the outgoing edges of L with
    destination N exactly when it is among the incoming edges
    [N.translations_to] with source L. *)
Theorem installed_edges_listed_at_both_ends (env : Env) :
  model_provider env = OPENNMT ->
  exists langs,
    get_installed_languages env = Ok langs /\
    (forall L e, In L langs -> In e (translations_from L) ->
                 from_lang e = code L /\ In (to_lang e) (map code langs)) /\
    (forall L N e, In L langs -> In N langs ->
       (In e (translations_from L) /\ to_lang e = code N) <->
       (In e (translations_to N) /\ from_lang e = code L)).
Proof.
  intros Hprov.
  destruct (opennmt_graph env Hprov) as [g [E [_ [Hwf0 [Hwf [Hsteps _]]]]]].
  assert (Hm : mirrored g).
  { apply (steps_preserve mirrored _ g Hwf0); [apply mirrored_base| |exact Hsteps].
    intros c g1 g2. apply mirrored_step. }
  exists (english_first g). split; [exact E|]. split.
  - intros L e HL He.
    destruct (installed_record g L Hwf HL) as [HLg _].
    split; [apply (wf_from Hwf L e HLg He)|].
    apply english_first_code_In, (wf_dest Hwf L e HLg He).
  - intros L N e HL HN.
    destruct (installed_record g L Hwf HL) as [_ [_ HLe]].
    rewrite HLe, (installed_record_to g N Hwf HN). apply Hm.
Qed.

Lemma installed_edges_listed_at_both_ends_witness :
  exists langs,
    get_installed_languages Sample.env = Ok langs /\
    (forall L e, In L langs -> In e (translations_from L) ->
                 from_lang e = code L /\ In (to_lang e) (map code langs)) /\
    (forall L N e, In L langs -> In N langs ->
       (In e (translations_from L) /\ to_lang e = code N) <->
       (In e (translations_to N) /\ from_lang e = code L)).
Proof. exact (installed_edges_listed_at_both_ends Sample.env eq_refl). Defined.

(** X3. With the OPENNMT provider, for languages L and N of the returned
    list, [L.get_translation(N)] is an edge exactly when a path of
    package edges leads from L to N: no edge is made up to a language
    that the packages do not reach. *)
Theorem edge_iff_path (env : Env) :
  model_provider env = OPENNMT ->
  exists langs,
    get_installed_languages env = Ok langs /\
    forall L N, In L langs -> In N langs ->
      (get_translation L N <> None <->
       path (translate_packages env) (code L) (code N)).
Proof.
  intros Hprov.
  destruct (opennmt_graph env Hprov)
    as [g [E [_ [Hwf0 [Hwf [Hsteps [Hbase Hcover]]]]]]].
  assert (Hs : sound (translate_packages env) g).
  { apply (steps_preserve (sound (translate_packages env)) _ g Hwf0);
      [now apply sound_base| |exact Hsteps].
    intros c g1 g2. apply sound_step. }
  exists (english_first g). split; [exact E|].
  intros L N HL HN.
  destruct (installed_record g L Hwf HL) as [_ [HLc HLe]].
  split.
  - intros Hsome. destruct (get_translation L N) as [e|] eqn:Eg; [|easy].
    rewrite get_translation_find in Eg. apply find_some in Eg.
    destruct Eg as [He Hto]. apply String.eqb_eq in Hto.
    rewrite <- Hto. apply Hs. now rewrite <- HLe.
  - intros Hp Hnone. apply get_translation_None in Hnone. apply Hnone.
    rewrite HLe. now apply Hcover.
Qed.

Lemma edge_iff_path_witness :
  exists langs,
    get_installed_languages Sample.env = Ok langs /\
    forall L N, In L langs -> In N langs ->
      (get_translation L N <> None <->
       path (translate_packages Sample.env) (code L) (code N)).
Proof. exact (edge_iff_path Sample.env eq_refl). Defined.

(** X4. With the OPENNMT provider the graph the pivot loops end with is
    a fixed point: in it the pass of every language would add nothing,
    and running the pivot loops once more over all languages returns the
    same store. *)
Theorem pivot_closure_fixed_point (env : Env) :
  model_provider env = OPENNMT ->
  exists g,
    pivot_all (add_identities (load_packages (translate_packages env))) = Ok g /\
    get_installed_languages env = Ok (english_first g) /\
    (forall c, In c (map code g) -> closed g c) /\
    pivot_all g = Ok g.
Proof.
  intros Hprov.
  destruct (opennmt_graph env Hprov)
    as [g [E [Erun [Hwf0 [Hwf [Hsteps [Hbase Hcover]]]]]]].
  assert (Hs : sound (translate_packages env) g).
  { apply (steps_preserve (sound (translate_packages env)) _ g Hwf0);
      [now apply sound_base| |exact Hsteps].
    intros c g1 g2. apply sound_step. }
  assert (Hclosed : forall c, In c (map code g) -> closed g c).
  { intros c Hc. apply (sound_closed (translate_packages env)); [exact Hs|].
    intros n. now apply Hcover. }
  exists g. split; [exact Erun|]. split; [exact E|]. split; [exact Hclosed|].
  unfold pivot_all. now apply closed_for_each.
Qed.

Lemma pivot_closure_fixed_point_witness :
  exists g,
    pivot_all
      (add_identities (load_packages (translate_packages Sample.env))) = Ok g /\
    get_installed_languages Sample.env = Ok (english_first g) /\
    (forall c, In c (map code g) -> closed g c) /\
    pivot_all g = Ok g.
Proof. exact (pivot_closure_fixed_point Sample.env eq_refl). Defined.

(** X5. With the OPENNMT provider every edge of a returned language L is
    either its identity edge or built from package edges of installed
    translate packages only (no identity edge is ever a step of a
    composite); in every composite the second step starts at the
    language where the first ends; and the two steps of a composite edge
    of L are themselves edges of the graph, the first an edge of L and
    the second an edge of the language the first leads to. *)
Theorem composite_edges_structure (env : Env) :
  model_provider env = OPENNMT ->
  exists langs,
    get_installed_languages env = Ok langs /\
    forall L e, In L langs -> In e (translations_from L) ->
      chained e /\
      (e = IdentityTranslation (code L) \/
       built_from (translate_packages env) e) /\
      forall t1 t2, e = CompositeTranslation t1 t2 ->
        In t1 (translations_from L) /\
        exists M, In M langs /\ code M = to_lang t1 /\
                  In t2 (translations_from M).
Proof.
  intros Hprov.
  destruct (opennmt_graph env Hprov)
    as [g [E [_ [Hwf0 [Hwf [Hsteps [Hbase _]]]]]]].
  set (packages := translate_packages env) in *.
  assert (Hb : forall d e, In e (edges_from g d) ->
             chained e /\ (e = IdentityTranslation d \/ built_from packages e)).
  { apply (steps_preserve
             (fun g => forall d e, In e (edges_from g d) ->
                chained e /\
                (e = IdentityTranslation d \/ built_from packages e))
             _ g Hwf0); [| |exact Hsteps].
    - intros d e He.
      destruct (base_edge_cases packages _ d e Hbase He)
        as [[p [Hp [<- ->]]]| ->]; simpl; [|now split; [|left]].
      split; [exact I|]. right. now repeat split.
    - intros c g1 g2. apply edges_built_step. }
  assert (Hse : steps_are_edges g).
  { apply (steps_preserve steps_are_edges _ g Hwf0); [| |exact Hsteps].
    - intros d t1 t2 He.
      destruct (base_edge_cases packages _ d _ Hbase He)
        as [[p [_ [_ Hp]]]|Hid]; discriminate.
    - intros c g1 g2. apply steps_are_edges_step. }
  exists (english_first g). split; [exact E|].
  intros L e HL He.
  destruct (installed_record g L Hwf HL) as [HLg [HLc HLe]].
  rewrite HLe in He. destruct (Hb _ _ He) as [Hc Hbuilt].
  split; [exact Hc|]. split; [exact Hbuilt|].
  intros t1 t2 ->. destruct (Hse _ _ _ He) as [H1 H2].
  split; [now rewrite HLe|].
  destruct (edges_from_In _ _ _ H2) as [_ HM].
  exists (deref g (to_lang t1)). split; [now apply english_first_In|].
  split; [apply deref_code|exact H2].
Qed.

Lemma composite_edges_structure_witness :
  exists langs,
    get_installed_languages Sample.env = Ok langs /\
    forall L e, In L langs -> In e (translations_from L) ->
      chained e /\
      (e = IdentityTranslation (code L) \/
       built_from (translate_packages Sample.env) e) /\
      forall t1 t2, e = CompositeTranslation t1 t2 ->
        In t1 (translations_from L) /\
        exists M, In M langs /\ code M = to_lang t1 /\
                  In t2 (translations_from M).
Proof. exact (composite_edges_structure Sample.env eq_refl). Defined.

(** * Further properties of the lookup layer and of translate *)

Lemma translate_found (B : Backends) (env : Env) (langs : list Language)
    (L N : Language) (q : string) :
  get_installed_languages env = Ok langs -> In L langs -> In N langs ->
  translate B env q (code L) (code N) =
  match get_translation L N with
  | Some e => translate_with B e q
  | None => Raise AttributeError
  end.
Proof.
  intros E HL HN. unfold translate.
  now rewrite (get_translation_from_codes_found env langs L N E HL HN).
Qed.

Lemma opennmt_reach (env : Env) :
  model_provider env = OPENNMT ->
  exists langs,
    get_installed_languages env = Ok langs /\
    forall L N, In L langs -> In N langs ->
      (path (translate_packages env) (code L) (code N) ->
       exists e, get_translation L N = Some e) /\
      (~ path (translate_packages env) (code L) (code N) ->
       get_translation L N = None).
Proof.
  intros Hprov.
  destruct (opennmt_graph env Hprov)
    as [g [E [_ [Hwf0 [Hwf [Hsteps [Hbase Hcover]]]]]]].
  assert (Hs : sound (translate_packages env) g).
  { apply (steps_preserve (sound (translate_packages env)) _ g Hwf0);
      [now apply sound_base| |exact Hsteps].
    intros c g1 g2. apply sound_step. }
  exists (english_first g). split; [exact E|].
  intros L N HL HN.
  destruct (installed_record g L Hwf HL) as [_ [HLc HLe]].
  split.
  - intros Hp.
    assert (Hd : In (code N) (map to_lang (translations_from L))).
    { rewrite HLe. now apply Hcover. }
    destruct (get_translation_dest L N Hd) as [e [He _]]. now exists e.
  - intros Hnp. destruct (get_translation L N) as [e|] eqn:Eg; [|reflexivity].
    exfalso. apply Hnp. rewrite get_translation_find in Eg.
    apply find_some in Eg. destruct Eg as [He Hto]. apply String.eqb_eq in Hto.
    rewrite <- Hto. apply Hs. now rewrite <- HLe.
Qed.

(** X6. When a code names no installed language,
    [get_translation_from_codes] and [translate] raise [IndexError];
    they neither return [None] nor a translation. *)
Theorem translate_unknown_code (B : Backends) (env : Env)
    (langs : list Language) (q f t : string) :
  get_installed_languages env = Ok langs ->
  ~ In f (map code langs) \/ ~ In t (map code langs) ->
  get_translation_from_codes env f t = Raise IndexError /\
  translate B env q f t = Raise IndexError.
Proof.
  intros E H.
  assert (Hget : get_translation_from_codes env f t = Raise IndexError).
  { unfold get_translation_from_codes.
    destruct (in_dec string_dec f (map code langs)) as [Hf|Hf].
    - destruct H as [H|Ht]; [easy|].
      apply in_map_iff in Hf. destruct Hf as [L [<- HL]].
      rewrite (get_language_from_code_found env langs L E HL). simpl.
      now rewrite (get_language_from_code_absent env langs t E Ht).
    - now rewrite (get_language_from_code_absent env langs f E Hf). }
  split; [exact Hget|]. unfold translate. now rewrite Hget.
Qed.

Lemma translate_unknown_code_witness :
  get_translation_from_codes Sample.env "en" "xx" = Raise IndexError /\
  translate Sample.backends Sample.env "hello" "en" "xx" = Raise IndexError.
Proof.
  apply (translate_unknown_code Sample.backends Sample.env
           (Sample.installed Sample.env)).
  - vm_compute. reflexivity.
  - right. vm_compute. intros H.
    repeat (destruct H as [H|H]; [discriminate H|]). destruct H.
Defined.

(** X7. With the OPENNMT provider, for two installed languages
    [translate] raises [AttributeError] when no path of package edges
    leads from the first to the second (the lookup gives [None], on
    which [translate] is called), and otherwise it is the [translate] of
    the edge that [get_translation] selects. *)
Theorem translate_follows_paths (env : Env) :
  model_provider env = OPENNMT ->
  exists langs,
    get_installed_languages env = Ok langs /\
    forall (B : Backends) (q : string) (L N : Language),
      In L langs -> In N langs ->
      (~ path (translate_packages env) (code L) (code N) ->
       translate B env q (code L) (code N) = Raise AttributeError) /\
      (path (translate_packages env) (code L) (code N) ->
       exists e,
         get_translation L N = Some e /\
         translate B env q (code L) (code N) = translate_with B e q).
Proof.
  intros Hprov. destruct (opennmt_reach env Hprov) as [langs [E Hall]].
  exists langs. split; [exact E|].
  intros B q L N HL HN. rewrite (translate_found B env langs L N q E HL HN).
  destruct (Hall L N HL HN) as [Hyes Hno]. split.
  - intros Hnp. now rewrite (Hno Hnp).
  - intros Hp. destruct (Hyes Hp) as [e He]. exists e. now rewrite He.
Qed.

Lemma translate_follows_paths_witness :
  exists langs,
    get_installed_languages Sample.env = Ok langs /\
    forall (B : Backends) (q : string) (L N : Language),
      In L langs -> In N langs ->
      (~ path (translate_packages Sample.env) (code L) (code N) ->
       translate B Sample.env q (code L) (code N) = Raise AttributeError) /\
      (path (translate_packages Sample.env) (code L) (code N) ->
       exists e,
         get_translation L N = Some e /\
         translate B Sample.env q (code L) (code N) = translate_with B e q).
Proof. exact (translate_follows_paths Sample.env eq_refl). Defined.

(** X8. With the OPENNMT provider, translating from an installed
    language to itself returns the text unchanged, when no installed
    translate package goes from that language to itself. *)
Theorem translate_to_same_language (B : Backends) (env : Env) (c q : string) :
  model_provider env = OPENNMT ->
  (exists p, In p (translate_packages env) /\
             (c = from_code p \/ c = to_code p)) ->
  (forall p, In p (translate_packages env) ->
             from_code p = c -> to_code p <> c) ->
  translate B env q c c = Ok q.
Proof.
  intros Hprov Hc Hnoself.
  destruct (installed_opennmt env Hprov) as [g [E [Hwf [Hcodes [Hext _]]]]].
  apply Hcodes in Hc.
  pose proof (proj2 (english_first_In g _) (deref_In g c Hc)) as HL.
  pose proof (translate_found B env _ _ _ q E HL HL) as Ht.
  rewrite deref_code in Ht. rewrite Ht.
  rewrite get_translation_find, deref_code.
  fold (edges_from g c).
  rewrite (pivot_ext_find _ _ (fun x => to_lang x =? c)
             (IdentityTranslation c) (Hext c Hc)); [reflexivity|].
  rewrite find_app_None.
  - simpl. now rewrite String.eqb_refl.
  - apply find_all_false. intros y Hy. apply in_map_iff in Hy.
    destruct Hy as [p [<- Hp]]. apply filter_In in Hp.
    destruct Hp as [Hp Efrom]. apply String.eqb_eq in Efrom.
    apply String.eqb_neq. simpl. now apply Hnoself.
Qed.

Lemma translate_to_same_language_witness :
  translate Sample.backends Sample.env "hola" "es" "es" = Ok "hola".
Proof.
  apply (translate_to_same_language Sample.backends Sample.env "es" "hola").
  - reflexivity.
  - exists (Sample.pkg "es" "fr"). split; [in_list|left; reflexivity].
  - intros p Hp. vm_compute in Hp.
    repeat (destruct Hp as [<-|Hp];
            [vm_compute; intros H1 H2; (discriminate H1 || discriminate H2)|]).
    destruct Hp.
Defined.

(** * The other providers *)

Lemma get_language_from_code_raises (env : Env) (c : string) (e : exn) :
  get_installed_languages env = Raise e ->
  get_language_from_code env c = Raise e.
Proof. intros E. unfold get_language_from_code. now rewrite E. Qed.

(** X9. With the LIBRETRANSLATE provider, as soon as the remote API
    lists one language, [get_installed_languages] raises [NameError]
    (the class it instantiates is not defined in the module), and so do
    [get_language_from_code], [get_translation_from_codes] and
    [translate]. *)
Theorem libretranslate_raises (env : Env) :
  model_provider env = LIBRETRANSLATE ->
  libretranslate_languages env <> [] ->
  get_installed_languages env = Raise NameError /\
  (forall c, get_language_from_code env c = Raise NameError) /\
  (forall f t, get_translation_from_codes env f t = Raise NameError) /\
  (forall B q f t, translate B env q f t = Raise NameError).
Proof.
  intros Hprov Hne.
  assert (E : get_installed_languages env = Raise NameError).
  { unfold get_installed_languages. rewrite Hprov, libretranslate_loop.
    destruct (libretranslate_languages env); [easy|reflexivity]. }
  assert (Hl : forall c, get_language_from_code env c = Raise NameError).
  { intros c. now apply get_language_from_code_raises. }
  assert (Ht : forall f t, get_translation_from_codes env f t = Raise NameError).
  { intros f t. unfold get_translation_from_codes. now rewrite Hl. }
  split; [exact E|]. split; [exact Hl|]. split; [exact Ht|].
  intros B q f t. unfold translate. now rewrite Ht.
Qed.

Lemma libretranslate_raises_witness :
  get_installed_languages
    (mkEnv LIBRETRANSLATE [] [("en", "English")]) = Raise NameError.
Proof.
  apply (libretranslate_raises (mkEnv LIBRETRANSLATE [] [("en", "English")])).
  - reflexivity.
  - discriminate.
Defined.

Lemma hypotheses_fewshot_unbound (B : Backends) (f fname t tname text : string)
    (n : nat) :
  hypotheses B (FewShotTranslation f fname t tname) text n =
  Raise UnboundLocalError.
Proof.
  simpl. unfold FewShotTranslation_hypotheses.
  rewrite (fewshot_loop_unbound
             (fun sentence =>
                parse_inference B
                  (infer B (generate_prompt B sentence fname f tname t)))).
  destruct (chunk B text); reflexivity.
Qed.

Lemma translate_same_installed (B : Backends) (env env' : Env) (q f t : string) :
  get_installed_languages env = get_installed_languages env' ->
  translate B env q f t = translate B env' q f t.
Proof.
  intros E. unfold translate, get_translation_from_codes, get_language_from_code.
  now rewrite E.
Qed.

(** X10. With the OPENAI provider the installed languages are English
    and Spanish, each with an edge to both, and [translate] never
    returns a translation: between these two codes it raises
    [UnboundLocalError], whatever the text, and for any other code it
    raises [IndexError]. *)
Theorem openai_translate_raises (B : Backends) (env : Env) (q f t : string) :
  model_provider env = OPENAI ->
  (exists langs,
     get_installed_languages env = Ok langs /\
     map code langs = ["en"; "es"] /\
     forall L, In L langs ->
       map to_lang (translations_from L) = ["en"; "es"]) /\
  (In f ["en"; "es"] -> In t ["en"; "es"] ->
   translate B env q f t = Raise UnboundLocalError) /\
  (~ (In f ["en"; "es"] /\ In t ["en"; "es"]) ->
   translate B env q f t = Raise IndexError).
Proof.
  intros Hprov. pose proof (installed_openai env Hprov) as E.
  set (env0 := mkEnv OPENAI [] []) in *.
  assert (E0 : get_installed_languages env0
               = Ok (Sample.installed env0)) by (vm_compute; reflexivity).
  split; [|split].
  - exists (Sample.installed env0). split; [now rewrite E|].
    split; [vm_compute; reflexivity|].
    intros L HL. vm_compute in HL.
    destruct HL as [<-|[<-|[]]]; vm_compute; reflexivity.
  - intros Hf Ht. rewrite (translate_same_installed B env env0 q f t E).
    assert (HL : forall c, In c ["en"; "es"] ->
              exists L, In L (Sample.installed env0) /\ code L = c /\
                forall N, In N (Sample.installed env0) ->
                  exists f' fn tn,
                    get_translation L N =
                    Some (FewShotTranslation f' fn (code N) tn)).
    { intros c Hc. destruct Hc as [<-|[<-|[]]].
      - exists (Sample.language env0 "en"). split; [in_list|].
        split; [vm_compute; reflexivity|].
        intros N HN. vm_compute in HN.
        destruct HN as [<-|[<-|[]]]; eexists _, _, _; vm_compute; reflexivity.
      - exists (Sample.language env0 "es"). split; [in_list|].
        split; [vm_compute; reflexivity|].
        intros N HN. vm_compute in HN.
        destruct HN as [<-|[<-|[]]]; eexists _, _, _; vm_compute; reflexivity. }
    destruct (HL f Hf) as [L [HLin [<- Hedge]]].
    destruct (HL t Ht) as [N [HNin [<- _]]].
    rewrite (translate_found B env0 _ L N q E0 HLin HNin).
    destruct (Hedge N HNin) as [f' [fn [tn ->]]].
    unfold translate_with. now rewrite hypotheses_fewshot_unbound.
  - intros Hnot. rewrite (translate_same_installed B env env0 q f t E).
    assert (Hcodes : map code (Sample.installed env0) = ["en"; "es"])
      by (vm_compute; reflexivity).
    assert (Hget : get_translation_from_codes env0 f t = Raise IndexError).
    { unfold get_translation_from_codes.
      destruct (in_dec string_dec f ["en"; "es"]) as [Hf|Hf].
      - rewrite <- Hcodes in Hf. apply in_map_iff in Hf.
        destruct Hf as [L [<- HL]].
        rewrite (get_language_from_code_found env0 _ L E0 HL). simpl.
        rewrite (get_language_from_code_absent env0 _ t E0); [reflexivity|].
        rewrite Hcodes. intros Ht. apply Hnot. split; [|exact Ht].
        rewrite <- Hcodes. now apply in_map.
      - rewrite (get_language_from_code_absent env0 _ f E0); [reflexivity|].
        now rewrite Hcodes. }
    unfold translate. now rewrite Hget.
Qed.

Lemma openai_translate_raises_witness :
  translate Sample.backends (mkEnv OPENAI [] []) "hello" "en" "es" =
  Raise UnboundLocalError.
Proof.
  apply (proj1 (proj2 (openai_translate_raises Sample.backends
                         (mkEnv OPENAI [] []) "hello" "en" "es" eq_refl))).
  - left. reflexivity.
  - right. left. reflexivity.
Defined.

(** * Further properties of the hypotheses *)

(** A stable sort keeps the order of the elements it does not tell
    apart. *)
Section SortStable.
Variable A : Type.
Variable lt : A -> A -> bool.
Variable p : A -> bool.
Hypothesis p_class : forall x y, p x = true -> p y = true -> lt y x = false.

Lemma insert_filter (x : A) (l : list A) :
  filter p (insert lt x l) = if p x then x :: filter p l else filter p l.
Proof.
  induction l as [|y l IH]; simpl; [reflexivity|].
  destruct (lt y x) eqn:Elt; simpl.
  - rewrite IH. destruct (p x) eqn:Ex; [|reflexivity].
    destruct (p y) eqn:Ey; [|reflexivity].
    rewrite (p_class x y Ex Ey) in Elt. discriminate.
  - now destruct (p x).
Qed.

Lemma sort_filter (l : list A) : filter p (sort lt l) = filter p l.
Proof.
  induction l as [|x l IH]; simpl; [reflexivity|].
  rewrite insert_filter, IH. reflexivity.
Qed.
End SortStable.

Lemma for_each_app (A S : Type) (body : S -> A -> result S) (l1 l2 : list A)
    (s : S) :
  for_each body (l1 ++ l2) s = (s' <- for_each body l1 s ;; for_each body l2 s').
Proof.
  revert s. induction l1 as [|x l1 IH]; intros s; simpl; [reflexivity|].
  destruct (body s x); simpl; [apply IH|reflexivity|reflexivity].
Qed.

Lemma combine_loop_returns (t2h : string -> result (list Hyp))
    (l1 acc : list Hyp) :
  (forall h', In h' l1 -> exists r, t2h (value h') = Ok r) ->
  exists acc',
    for_each
      (fun to_return t1_hypothesis =>
         t2_hypotheses <- t2h (value t1_hypothesis) ;;
         Ok (fold_left
               (fun to_return t2_hypothesis =>
                  to_return ++
                  [mkHyp (value t2_hypothesis)
                     (score t1_hypothesis + score t2_hypothesis)%Z])
               t2_hypotheses to_return))
      l1 acc = Ok acc'.
Proof.
  revert acc. induction l1 as [|x l1 IH]; intros acc Hok; simpl.
  - now exists acc.
  - destruct (Hok x (or_introl eq_refl)) as [r ->]. simpl.
    apply IH. intros h' Hh'. apply Hok. now right.
Qed.

(** X12. A composite edge raises what its steps raise: the exception of
    the first step, or else the exception of the second step at the
    first hypothesis of the first step for which it raises; what was
    combined before is lost. *)
Theorem CompositeTranslation_hypotheses_raises (B : Backends)
    (t1 t2 : ITranslation) (text : string) (n : nat) (e : exn) :
  (hypotheses B t1 text n = Raise e ->
   hypotheses B (CompositeTranslation t1 t2) text n = Raise e) /\
  (forall l1 h l2,
     hypotheses B t1 text n = Ok (l1 ++ h :: l2) ->
     (forall h', In h' l1 ->
        exists r, hypotheses B t2 (value h') n = Ok r) ->
     hypotheses B t2 (value h) n = Raise e ->
     hypotheses B (CompositeTranslation t1 t2) text n = Raise e).
Proof.
  split.
  - intros H. cbn [hypotheses]. now rewrite H.
  - intros l1 h l2 H1 Hok Hraise. cbn [hypotheses]. rewrite H1. cbn [bind].
    unfold combine_hypotheses. rewrite for_each_app.
    destruct (combine_loop_returns (fun v => hypotheses B t2 v n) l1 [] Hok)
      as [acc Hl1].
    rewrite Hl1. simpl. now rewrite Hraise.
Qed.

Lemma CompositeTranslation_hypotheses_raises_witness :
  hypotheses Sample.backends
    (CompositeTranslation Sample.en_es
       (FewShotTranslation "es" "Spanish" "fr" "French")) "a" 2 =
  Raise UnboundLocalError.
Proof.
  apply (proj2 (CompositeTranslation_hypotheses_raises Sample.backends
                  Sample.en_es (FewShotTranslation "es" "Spanish" "fr" "French")
                  "a" 2 UnboundLocalError)
           [] (mkHyp "a/es1" (-1)) [mkHyp "a/es2" (-3)]).
  - vm_compute. reflexivity.
  - intros h' [].
  - vm_compute. reflexivity.
Defined.

(** X13. When each step returns exactly one hypothesis for one requested
    hypothesis, [translate] of a composite edge is [translate] of the
    second step applied to [translate] of the first. *)
Theorem CompositeTranslation_translate_chains (B : Backends)
    (t1 t2 : ITranslation) (x : string) (h1 h2 : Hyp) :
  hypotheses B t1 x 1 = Ok [h1] ->
  hypotheses B t2 (value h1) 1 = Ok [h2] ->
  translate_with B t1 x = Ok (value h1) /\
  translate_with B t2 (value h1) = Ok (value h2) /\
  translate_with B (CompositeTranslation t1 t2) x = Ok (value h2).
Proof.
  intros H1 H2. unfold translate_with.
  rewrite H1, H2. split; [reflexivity|]. split; [reflexivity|].
  rewrite (CompositeTranslation_hypotheses_eq B t1 t2 x 1 [h1] (fun _ => [h2]) H1).
  - reflexivity.
  - intros h [<-|[]]. exact H2.
Qed.

Lemma CompositeTranslation_translate_chains_witness :
  translate_with Sample.backends
    (CompositeTranslation Sample.en_es Sample.es_fr) "a" = Ok "a/es1/fr1".
Proof.
  apply (proj2 (proj2 (CompositeTranslation_translate_chains Sample.backends
                         Sample.en_es Sample.es_fr "a"
                         (mkHyp "a/es1" (-1)) (mkHyp "a/es1/fr1" (-1))
                         eq_refl eq_refl))).
Defined.

(** ** Order of the float scores

    The comparisons of binary64 numbers, read on [fkey]: among the
    numbers that are not NaN, [<] and [<=] are the strict and the large
    side of one total preorder (the two zeros are equal in it). *)

Lemma SFcompare_key (f1 f2 : SpecFloat.spec_float) :
  SpecFloat.SFcompare f1 f2 =
  match float_key f1, float_key f2 with
  | Some k1, Some k2 => Some (lex k1 k2)
  | _, _ => None
  end.
Proof.
  destruct f1 as [s1|s1| |s1 m1 e1], f2 as [s2|s2| |s2 m2 e2];
    try destruct s1; try destruct s2; try reflexivity.
  simpl. rewrite Z.compare_opp, (Z.compare_antisym e1 e2).
  destruct (Z.compare e1 e2); reflexivity.
Qed.

Lemma lex_Lt (k1 k2 : Z * Z * Z) : lex k1 k2 = Lt <-> lt3 k1 k2.
Proof.
  destruct k1 as [[a1 b1] c1], k2 as [[a2 b2] c2]. unfold lex, lt3.
  destruct (Z.compare_spec a1 a2), (Z.compare_spec b1 b2), (Z.compare_spec c1 c2);
    split; intros Hx; try discriminate; try reflexivity; try lia.
Qed.

Lemma lex_Eq (k1 k2 : Z * Z * Z) : lex k1 k2 = Eq <-> k1 = k2.
Proof.
  destruct k1 as [[a1 b1] c1], k2 as [[a2 b2] c2]. unfold lex.
  destruct (Z.compare_spec a1 a2), (Z.compare_spec b1 b2), (Z.compare_spec c1 c2);
    split; intros Hx; try discriminate; try reflexivity;
    try (injection Hx; intros; lia); subst; reflexivity.
Qed.

Lemma lex_antisym (k1 k2 : Z * Z * Z) : lex k2 k1 = CompOpp (lex k1 k2).
Proof.
  destruct k1 as [[a1 b1] c1], k2 as [[a2 b2] c2]. unfold lex.
  rewrite (Z.compare_antisym a1 a2), (Z.compare_antisym b1 b2),
    (Z.compare_antisym c1 c2).
  destruct (Z.compare a1 a2), (Z.compare b1 b2), (Z.compare c1 c2);
    reflexivity.
Qed.

Lemma ltb_key (x y : PrimFloat.float) :
  PrimFloat.ltb x y = true <->
  exists kx ky, fkey x = Some kx /\ fkey y = Some ky /\ lt3 kx ky.
Proof.
  rewrite FloatAxioms.ltb_spec. unfold SpecFloat.SFltb, fkey.
  rewrite SFcompare_key.
  destruct (float_key (FloatOps.Prim2SF x)) as [kx|],
           (float_key (FloatOps.Prim2SF y)) as [ky|];
    try (split; [discriminate|intros [? [? [? [? ?]]]]; discriminate]).
  split.
  - intros H. exists kx, ky. repeat split. apply lex_Lt.
    destruct (lex kx ky); (reflexivity || discriminate).
  - intros [? [? [[= <-] [[= <-] H]]]]. apply lex_Lt in H. now rewrite H.
Qed.

Lemma leb_key (x y : PrimFloat.float) :
  PrimFloat.leb x y = true <->
  exists kx ky, fkey x = Some kx /\ fkey y = Some ky /\ ~ lt3 ky kx.
Proof.
  rewrite FloatAxioms.leb_spec. unfold SpecFloat.SFleb, fkey.
  rewrite SFcompare_key.
  destruct (float_key (FloatOps.Prim2SF x)) as [kx|],
           (float_key (FloatOps.Prim2SF y)) as [ky|];
    try (split; [discriminate|intros [? [? [? [? ?]]]]; discriminate]).
  split.
  - intros H. exists kx, ky. repeat split. rewrite <- lex_Lt, lex_antisym.
    destruct (lex kx ky); (discriminate || (intros ?; discriminate)).
  - intros [? [? [[= <-] [[= <-] H]]]]. rewrite <- lex_Lt, lex_antisym in H.
    destruct (lex kx ky); try reflexivity. now destruct H.
Qed.

Lemma eqb_key (x y : PrimFloat.float) :
  PrimFloat.eqb x y = true <-> exists k, fkey x = Some k /\ fkey y = Some k.
Proof.
  rewrite FloatAxioms.eqb_spec. unfold SpecFloat.SFeqb, fkey.
  rewrite SFcompare_key.
  destruct (float_key (FloatOps.Prim2SF x)) as [kx|],
           (float_key (FloatOps.Prim2SF y)) as [ky|];
    try (split; [discriminate|intros [? [? ?]]; discriminate]).
  split.
  - intros H. exists kx. split; [reflexivity|]. f_equal. symmetry.
    apply lex_Eq. destruct (lex kx ky); (reflexivity || discriminate).
  - intros [k [H1 H2]]. injection H1 as ->. injection H2 as ->.
    now rewrite (proj2 (lex_Eq k k) eq_refl).
Qed.

Lemma not_nan_key (x : PrimFloat.float) :
  PrimFloat.is_nan x = false <-> exists k, fkey x = Some k.
Proof.
  unfold PrimFloat.is_nan. rewrite negb_false_iff, eqb_key. split.
  - intros [k [H _]]. now exists k.
  - intros [k H]. now exists k.
Qed.

Lemma float_ltb_leb (x y : PrimFloat.float) :
  PrimFloat.ltb x y = true -> PrimFloat.leb x y = true.
Proof.
  rewrite ltb_key, leb_key. intros [kx [ky [Hx [Hy Hlt]]]].
  exists kx, ky. split; [exact Hx|]. split; [exact Hy|].
  destruct kx as [[a1 b1] c1], ky as [[a2 b2] c2]. unfold lt3 in *. lia.
Qed.

Lemma float_not_ltb_leb (x y : PrimFloat.float) :
  PrimFloat.is_nan x = false -> PrimFloat.is_nan y = false ->
  PrimFloat.ltb y x = false -> PrimFloat.leb x y = true.
Proof.
  rewrite !not_nan_key. intros [kx Hx] [ky Hy] Hlt.
  apply leb_key. exists kx, ky. split; [exact Hx|]. split; [exact Hy|].
  intros H. assert (Ht : PrimFloat.ltb y x = true).
  { apply ltb_key. now exists ky, kx. }
  rewrite Ht in Hlt. discriminate.
Qed.

Lemma float_leb_trans (x y z : PrimFloat.float) :
  PrimFloat.leb x y = true -> PrimFloat.leb y z = true ->
  PrimFloat.leb x z = true.
Proof.
  rewrite !leb_key.
  intros [kx [ky [Hx [Hy H1]]]] [ky' [kz [Hy' [Hz H2]]]].
  rewrite Hy in Hy'. injection Hy' as <-.
  exists kx, kz. split; [exact Hx|]. split; [exact Hz|].
  destruct kx as [[a1 b1] c1], ky as [[a2 b2] c2], kz as [[a3 b3] c3].
  unfold lt3 in *. lia.
Qed.

Lemma float_eqb_not_ltb (x y s : PrimFloat.float) :
  PrimFloat.eqb x s = true -> PrimFloat.eqb y s = true ->
  PrimFloat.ltb y x = false.
Proof.
  rewrite !eqb_key. intros [k [Hx Hs]] [k' [Hy Hs']].
  rewrite Hs in Hs'. injection Hs' as <-.
  destruct (PrimFloat.ltb y x) eqn:E; [|reflexivity].
  apply ltb_key in E. destruct E as [ky [kx [Hy' [Hx' Hlt]]]].
  rewrite Hx in Hx'. rewrite Hy in Hy'.
  injection Hx' as <-. injection Hy' as <-.
  destruct k as [[a b] c]. unfold lt3 in Hlt. lia.
Qed.

(** ** The sorted cross-product on float scores *)

Lemma insert_float_sorted (x : FloatScores.Hyp) (l : list FloatScores.Hyp) :
  PrimFloat.is_nan (FloatScores.score x) = false ->
  (forall h, In h l -> PrimFloat.is_nan (FloatScores.score h) = false) ->
  StronglySorted float_score_le l ->
  StronglySorted float_score_le (insert FloatScores.Hyp_lt x l).
Proof.
  intros Hx Hl Hs. induction Hs as [|y l Hs IH Hall]; simpl.
  - repeat constructor.
  - assert (Hy : PrimFloat.is_nan (FloatScores.score y) = false)
      by (apply Hl; now left).
    unfold FloatScores.Hyp_lt at 1.
    destruct (PrimFloat.ltb (FloatScores.score y) (FloatScores.score x))
      eqn:Elt.
    + constructor; [apply IH; intros h Hh; apply Hl; now right|].
      rewrite Forall_forall. intros z Hz.
      apply (Permutation_in _
               (Permutation_sym (insert_perm _ FloatScores.Hyp_lt x l))) in Hz.
      destruct Hz as [<-|Hz]; [now apply float_ltb_leb|].
      rewrite Forall_forall in Hall. now apply Hall.
    + assert (Hxy : float_score_le x y) by now apply float_not_ltb_leb.
      constructor; [now constructor|].
      constructor; [exact Hxy|].
      rewrite Forall_forall in *. intros z Hz. specialize (Hall z Hz).
      unfold float_score_le in *.
      now apply float_leb_trans with (FloatScores.score y).
Qed.

Lemma sort_float_sorted (l : list FloatScores.Hyp) :
  (forall h, In h l -> PrimFloat.is_nan (FloatScores.score h) = false) ->
  StronglySorted float_score_le (sort FloatScores.Hyp_lt l).
Proof.
  induction l as [|x l IH]; intros Hl; simpl; [constructor|].
  apply insert_float_sorted.
  - apply Hl. now left.
  - intros h Hh. apply sort_In in Hh. apply Hl. now right.
  - apply IH. intros h Hh. apply Hl. now right.
Qed.

Lemma sort_float_stable (s : PrimFloat.float) (l : list FloatScores.Hyp) :
  filter (fun h => PrimFloat.eqb (FloatScores.score h) s)
    (sort FloatScores.Hyp_lt l) =
  filter (fun h => PrimFloat.eqb (FloatScores.score h) s) l.
Proof.
  apply sort_filter. intros x y Hx Hy. unfold FloatScores.Hyp_lt.
  now apply float_eqb_not_ltb with s.
Qed.

Lemma float_combine_from
    (t2h : string -> result (list FloatScores.Hyp))
    (h2s : FloatScores.Hyp -> list FloatScores.Hyp)
    (h1s acc : list FloatScores.Hyp) :
  (forall h1, In h1 h1s -> t2h (FloatScores.value h1) = Ok (h2s h1)) ->
  for_each
    (fun to_return t1_hypothesis =>
       t2_hyps <- t2h (FloatScores.value t1_hypothesis) ;;
       Ok (fold_left
             (fun to_return t2_hypothesis =>
                to_return ++
                [FloatScores.mkHyp (FloatScores.value t2_hypothesis)
                   (PrimFloat.add (FloatScores.score t1_hypothesis)
                      (FloatScores.score t2_hypothesis))])
             t2_hyps to_return))
    h1s acc = Ok (acc ++ float_cross_product h1s h2s).
Proof.
  revert acc. induction h1s as [|h1 h1s IH]; intros acc H; simpl.
  - now rewrite app_nil_r.
  - rewrite (H h1 (or_introl eq_refl)). simpl.
    rewrite (fold_append_map _ _ (float_combined h1)).
    rewrite IH by (intros; apply H; now right).
    now rewrite <- app_assoc.
Qed.

Lemma float_cross_product_length (n : nat) (h1s : list FloatScores.Hyp)
    (h2s : FloatScores.Hyp -> list FloatScores.Hyp) :
  (forall h1, In h1 h1s -> List.length (h2s h1) = n) ->
  List.length (float_cross_product h1s h2s) = List.length h1s * n.
Proof.
  induction h1s as [|h1 h1s IH]; intros H; simpl; [reflexivity|].
  rewrite length_app, length_map, IH by (intros; apply H; now right).
  now rewrite (H h1 (or_introl eq_refl)).
Qed.

(** X11. On float scores, as the code has them: when the first step
    returns [n] hypotheses, the second step returns [n] hypotheses for
    each of them and no combined score [h1.score + h2.score] is NaN, a
    composite edge returns the first [n] elements of the cross-product
    sorted by ascending score ([<=] of the floats), hypotheses of equal
    score ([==] of the floats) staying in the order in which the two
    loops produced them; the result has exactly [n] elements.  The
    combined scores are the rounded float sums. *)
Theorem CompositeTranslation_hypotheses_stable_ascending
    (t1_hypotheses t2_hypotheses : string -> nat -> result (list FloatScores.Hyp))
    (text : string) (n : nat) (h1s : list FloatScores.Hyp)
    (h2s : FloatScores.Hyp -> list FloatScores.Hyp) :
  t1_hypotheses text n = Ok h1s ->
  List.length h1s = n ->
  (forall h1, In h1 h1s ->
     t2_hypotheses (FloatScores.value h1) n = Ok (h2s h1) /\
     List.length (h2s h1) = n) ->
  (forall h, In h (float_cross_product h1s h2s) ->
     PrimFloat.is_nan (FloatScores.score h) = false) ->
  exists sorted,
    FloatScores.CompositeTranslation_hypotheses t1_hypotheses t2_hypotheses
      text n = Ok (firstn n sorted) /\
    List.length (firstn n sorted) = n /\
    Permutation (float_cross_product h1s h2s) sorted /\
    StronglySorted float_score_le sorted /\
    forall s,
      filter (fun h => PrimFloat.eqb (FloatScores.score h) s) sorted =
      filter (fun h => PrimFloat.eqb (FloatScores.score h) s)
        (float_cross_product h1s h2s).
Proof.
  intros H1 Hlen H2 Hnan.
  exists (sort FloatScores.Hyp_lt (float_cross_product h1s h2s)).
  split; [|split; [|split; [|split]]].
  - unfold FloatScores.CompositeTranslation_hypotheses. rewrite H1. cbn [bind].
    rewrite (float_combine_from (fun v => t2_hypotheses v n) h2s h1s []).
    + reflexivity.
    + intros h1 Hin. now apply H2.
  - rewrite length_firstn, sort_length, (float_cross_product_length n).
    + rewrite Hlen. nia.
    + intros h1 Hin. now apply H2.
  - apply sort_perm.
  - now apply sort_float_sorted.
  - intros s. apply sort_float_stable.
Qed.

Lemma CompositeTranslation_hypotheses_stable_ascending_witness :
  exists sorted,
    FloatScores.CompositeTranslation_hypotheses
      (Sample.float_step "es") (Sample.float_step "fr") "a" 2 =
      Ok (firstn 2 sorted) /\
    map FloatScores.score sorted =
      [Sample.minus_3; Sample.minus_2; Sample.minus_2; Sample.minus_1] /\
    map FloatScores.value sorted =
      ["a/es2/fr2"; "a/es1/fr2"; "a/es2/fr1"; "a/es1/fr1"].
Proof.
  destruct (CompositeTranslation_hypotheses_stable_ascending
              (Sample.float_step "es") (Sample.float_step "fr") "a" 2
              [FloatScores.mkHyp "a/es1" Sample.minus_0_5;
               FloatScores.mkHyp "a/es2" Sample.minus_1_5]
              (fun h1 =>
                 [FloatScores.mkHyp (FloatScores.value h1 ++ "/fr1")
                    Sample.minus_0_5;
                  FloatScores.mkHyp (FloatScores.value h1 ++ "/fr2")
                    Sample.minus_1_5]))
    as [sorted [Hrun _]].
  - vm_compute. reflexivity.
  - reflexivity.
  - intros h1 [<-|[<-|[]]]; split; vm_compute; reflexivity.
  - intros h Hin. vm_compute in Hin.
    destruct Hin as [<-|[<-|[<-|[<-|[]]]]]; vm_compute; reflexivity.
  - exists (sort FloatScores.Hyp_lt
              (float_cross_product
                 [FloatScores.mkHyp "a/es1" Sample.minus_0_5;
                  FloatScores.mkHyp "a/es2" Sample.minus_1_5]
                 (fun h1 =>
                    [FloatScores.mkHyp (FloatScores.value h1 ++ "/fr1")
                       Sample.minus_0_5;
                     FloatScores.mkHyp (FloatScores.value h1 ++ "/fr2")
                       Sample.minus_1_5]))).
    repeat split; vm_compute; reflexivity.
Defined.

(** * The order of the returned list *)

Lemma ascii_compare_lt (a b : ascii) :
  Ascii.compare a b = Lt <-> (N_of_ascii a < N_of_ascii b)%N.
Proof. unfold Ascii.compare. apply N.compare_lt_iff. Qed.

Lemma ascii_compare_gt (a b : ascii) :
  Ascii.compare a b = Gt <-> (N_of_ascii b < N_of_ascii a)%N.
Proof. unfold Ascii.compare. apply N.compare_gt_iff. Qed.

Lemma ascii_compare_eq (a b : ascii) : Ascii.compare a b = Eq <-> a = b.
Proof.
  split; [apply Ascii.compare_eq_iff|]. intros ->.
  unfold Ascii.compare. apply N.compare_refl.
Qed.

(** [compare a b <> Gt] is transitive. *)
Lemma string_le_trans (a : string) :
  forall b c,
    String.compare a b <> Gt -> String.compare b c <> Gt ->
    String.compare a c <> Gt.
Proof.
  induction a as [|x a IH]; intros [|y b] [|z c]; simpl; try easy.
  destruct (Ascii.compare x y) eqn:Exy; [| |easy].
  - apply ascii_compare_eq in Exy. subst y.
    destruct (Ascii.compare x z) eqn:Exz; [|easy|easy].
    apply IH.
  - apply ascii_compare_lt in Exy. intros _.
    destruct (Ascii.compare y z) eqn:Eyz; [| |easy]; intros _.
    + apply ascii_compare_eq in Eyz. subst z.
      apply ascii_compare_lt in Exy. now rewrite Exy.
    + apply ascii_compare_lt in Eyz.
      assert (Hxz : (N_of_ascii x < N_of_ascii z)%N)
        by (now apply N.lt_trans with (N_of_ascii y)).
      apply ascii_compare_lt in Hxz. now rewrite Hxz.
Qed.

Lemma string_compare_refl (a : string) : String.compare a a = Eq.
Proof.
  induction a as [|x a IH]; simpl; [reflexivity|].
  now rewrite (proj2 (ascii_compare_eq x x) eq_refl).
Qed.

Lemma string_ltb_false (a b : string) :
  String.ltb b a = false <-> String.compare a b <> Gt.
Proof.
  unfold String.ltb. rewrite (String.compare_antisym a b).
  destruct (String.compare b a); simpl; split; intros H; congruence.
Qed.

Lemma string_ltb_asym (a b : string) :
  String.ltb a b = true -> String.ltb b a = false.
Proof.
  unfold String.ltb. rewrite (String.compare_antisym b a).
  now destruct (String.compare a b).
Qed.

Lemma name_le_trans (a b c : Language) :
  name_le a b -> name_le b c -> name_le a c.
Proof.
  unfold name_le. rewrite !string_ltb_false. apply string_le_trans.
Qed.

Lemma insert_name_sorted (x : Language) (l : list Language) :
  StronglySorted name_le l -> StronglySorted name_le (insert name_lt x l).
Proof.
  induction 1 as [|y l Hs IH Hall]; simpl.
  - repeat constructor.
  - unfold name_lt at 1. destruct (String.ltb (name y) (name x)) eqn:Elt.
    + constructor; [exact IH|].
      rewrite Forall_forall. intros z Hz.
      apply (Permutation_in _ (Permutation_sym (insert_perm _ name_lt x l))) in Hz.
      destruct Hz as [<-|Hz].
      * now apply string_ltb_asym.
      * rewrite Forall_forall in Hall. now apply Hall.
    + constructor; [now constructor|].
      constructor; [exact Elt|].
      rewrite Forall_forall in *. intros z Hz.
      apply name_le_trans with y; [exact Elt|now apply Hall].
Qed.

Lemma sort_name_sorted (l : list Language) :
  StronglySorted name_le (sort name_lt l).
Proof.
  induction l as [|x l IH]; simpl; [constructor|].
  now apply insert_name_sorted.
Qed.

Lemma sort_name_stable (nm : string) (l : list Language) :
  filter (fun x => name x =? nm) (sort name_lt l) =
  filter (fun x => name x =? nm) l.
Proof.
  apply sort_filter. intros x y Hx Hy. unfold name_lt.
  apply String.eqb_eq in Hx, Hy. rewrite Hx, Hy.
  unfold String.ltb. now rewrite string_compare_refl.
Qed.

Lemma find_en_first (l1 l2 : list Language) (e : Language) (i : nat) :
  (forall x, In x l1 -> code x <> "en") -> code e = "en" ->
  find_en i (l1 ++ e :: l2) = Some (i + List.length l1).
Proof.
  revert i. induction l1 as [|x l1 IH]; intros i Hl1 He; simpl.
  - apply String.eqb_eq in He. rewrite He. f_equal. lia.
  - destruct (String.eqb_spec (code x) "en") as [E|_].
    + now destruct (Hl1 x (or_introl eq_refl)).
    + rewrite IH; [f_equal; lia| |exact He].
      intros y Hy. apply Hl1. now right.
Qed.

Lemma find_en_none (l : list Language) (i : nat) :
  (forall x, In x l -> code x <> "en") -> find_en i l = None.
Proof.
  revert i. induction l as [|x l IH]; intros i Hl; simpl; [reflexivity|].
  destruct (String.eqb_spec (code x) "en") as [E|_].
  - now destruct (Hl x (or_introl eq_refl)).
  - apply IH. intros y Hy. apply Hl. now right.
Qed.

Lemma pop_middle (l1 l2 : list Language) (e : Language) :
  nth_error (l1 ++ e :: l2) (List.length l1) = Some e /\
  firstn (List.length l1) (l1 ++ e :: l2) ++
  skipn (S (List.length l1)) (l1 ++ e :: l2) = l1 ++ l2.
Proof.
  induction l1 as [|x l1 [IH1 IH2]]; simpl; [now split|].
  split; [exact IH1|]. f_equal. exact IH2.
Qed.

(** X14. The final ordering of [get_installed_languages] loses and adds
    no language.  When a language has the code ["en"], the first such
    language comes first and the others follow sorted by name; when
    none has, the whole list is sorted by name.  The sort is by
    non-decreasing name and keeps languages of equal name in their
    former order. *)
Theorem english_first_spec (languages : list Language) :
  Permutation languages (english_first languages) /\
  (forall l1 e l2,
     languages = l1 ++ e :: l2 -> code e = "en" ->
     (forall x, In x l1 -> code x <> "en") ->
     english_first languages = e :: sort name_lt (l1 ++ l2)) /\
  ((forall x, In x languages -> code x <> "en") ->
   english_first languages = sort name_lt languages) /\
  (forall l,
     StronglySorted name_le (sort name_lt l) /\
     Permutation l (sort name_lt l) /\
     forall nm, filter (fun x => name x =? nm) (sort name_lt l) =
                filter (fun x => name x =? nm) l).
Proof.
  split; [apply english_first_perm|]. split; [|split].
  - intros l1 e l2 -> He Hl1. unfold english_first.
    rewrite (find_en_first l1 l2 e 0 Hl1 He). cbn [Nat.add].
    destruct (pop_middle l1 l2 e) as [-> ->]. reflexivity.
  - intros Hnone. unfold english_first. now rewrite (find_en_none _ 0 Hnone).
  - intros l. split; [apply sort_name_sorted|].
    split; [apply sort_perm|]. intros nm. apply sort_name_stable.
Qed.

Lemma english_first_spec_witness :
  english_first
    [mkLanguage "es" "Spanish" [] []; mkLanguage "en" "English" [] [];
     mkLanguage "fr" "French" [] []] =
  mkLanguage "en" "English" [] [] ::
  sort name_lt
    ([mkLanguage "es" "Spanish" [] []] ++ [mkLanguage "fr" "French" [] []]).
Proof.
  apply (proj1 (proj2 (english_first_spec
                         [mkLanguage "es" "Spanish" [] [];
                          mkLanguage "en" "English" [] [];
                          mkLanguage "fr" "French" [] []]))
           [mkLanguage "es" "Spanish" [] []]
           (mkLanguage "en" "English" [] [])
           [mkLanguage "fr" "French" [] []]).
  - reflexivity.
  - reflexivity.
  - intros x [<-|[]]. discriminate.
Defined.

(** * apply_packaged_translation *)

Lemma build_loop_ok (batches : list (list Packaged.BatchHypothesis)) (i : nat) :
  forall (toks : list string) (sc : PrimFloat.float),
    (forall b, In b batches -> i < List.length b) ->
    for_each
      (fun (acc : list string * PrimFloat.float) translated_batch =>
         let (translated_tokens, cumulative_score) := acc in
         match nth_error translated_batch i with
         | Some entry =>
             Ok (translated_tokens ++ Packaged.batch_tokens entry,
                 PrimFloat.add cumulative_score (Packaged.batch_score entry))
         | None => Raise IndexError
         end)
      batches (toks, sc) =
    Ok (toks ++
        flat_map (fun b => match nth_error b i with
                           | Some entry => Packaged.batch_tokens entry
                           | None => []
                           end) batches,
        fold_left PrimFloat.add (sentence_scores batches i) sc).
Proof.
  induction batches as [|b bs IH]; intros toks sc H; simpl.
  - now rewrite app_nil_r.
  - assert (Hb : i < List.length b) by (apply H; now left).
    apply nth_error_Some in Hb.
    destruct (nth_error b i) as [entry|]; [|easy]. simpl.
    rewrite IH by (intros b' Hb'; apply H; now right).
    now rewrite <- app_assoc.
Qed.

Lemma build_loop_raises (batches : list (list Packaged.BatchHypothesis))
    (i : nat) :
  forall (acc : list string * PrimFloat.float),
    (exists b, In b batches /\ List.length b <= i) ->
    for_each
      (fun (acc : list string * PrimFloat.float) translated_batch =>
         let (translated_tokens, cumulative_score) := acc in
         match nth_error translated_batch i with
         | Some entry =>
             Ok (translated_tokens ++ Packaged.batch_tokens entry,
                 PrimFloat.add cumulative_score (Packaged.batch_score entry))
         | None => Raise IndexError
         end)
      batches acc = Raise IndexError.
Proof.
  induction batches as [|b bs IH]; intros [toks sc] [b0 [Hin Hlen]];
    [easy|]. simpl.
  destruct (nth_error b i) as [entry|] eqn:E; [|reflexivity]. simpl.
  apply IH. exists b0. split; [|exact Hlen].
  destruct Hin as [->|Hin]; [|exact Hin].
  apply nth_error_None in Hlen. congruence.
Qed.

Lemma build_hypothesis_cases (batches : list (list Packaged.BatchHypothesis))
    (i : nat) :
  ((forall b, In b batches -> i < List.length b) /\
   exists h, Packaged.build_hypothesis batches i = Ok h /\
             FloatScores.score h =
             fold_left PrimFloat.add (sentence_scores batches i)
               PrimFloat.zero /\
             FloatScores.value h =
             Packaged.drop_leading_space
               (Packaged.replace Packaged.mark " "
                  (String.concat "" (sentence_tokens batches i)))) \/
  ((exists b, In b batches /\ List.length b <= i) /\
   Packaged.build_hypothesis batches i = Raise IndexError).
Proof.
  assert (Hdec : (forall b, In b batches -> i < List.length b) \/
                 (exists b, In b batches /\ List.length b <= i)).
  { induction batches as [|b bs IH]; [left; easy|].
    destruct (le_lt_dec (List.length b) i) as [Hle|Hlt].
    - right. exists b. split; [now left|exact Hle].
    - destruct IH as [IH|[b0 [Hin Hlen]]].
      + left. intros b' [<-|Hb']; [exact Hlt|now apply IH].
      + right. exists b0. split; [now right|exact Hlen]. }
  destruct Hdec as [Hall|Hex].
  - left. split; [exact Hall|]. unfold Packaged.build_hypothesis.
    rewrite (build_loop_ok batches i [] PrimFloat.zero Hall). simpl.
    eexists. split; [reflexivity|]. split; reflexivity.
  - right. split; [exact Hex|]. unfold Packaged.build_hypothesis.
    now rewrite (build_loop_raises batches i ([], PrimFloat.zero) Hex).
Qed.

Lemma hypotheses_loop (batches : list (list Packaged.BatchHypothesis))
    (len : nat) :
  forall (start : nat) (acc : list FloatScores.Hyp),
    (forall b, In b batches -> start + len <= List.length b) ->
    exists hs,
      for_each
        (fun value_hypotheses i =>
           hypothesis <- Packaged.build_hypothesis batches i ;;
           Ok (value_hypotheses ++ [hypothesis]))
        (seq start len) acc = Ok (acc ++ hs) /\
      List.length hs = len /\
      forall k, k < len ->
        exists h, nth_error hs k = Some h /\
                  Packaged.build_hypothesis batches (start + k) = Ok h.
Proof.
  induction len as [|len IH]; intros start acc H; simpl.
  - exists []. rewrite app_nil_r. split; [reflexivity|]. split; [reflexivity|].
    intros k Hk. lia.
  - destruct (build_hypothesis_cases batches start)
      as [[_ [h [Eh _]]]|[[b [Hb Hlen]] _]].
    2:{ specialize (H b Hb). lia. }
    rewrite Eh. simpl.
    destruct (IH (S start) (acc ++ [h])) as [hs [Erun [Hlen Hnth]]].
    { intros b Hb. specialize (H b Hb). lia. }
    exists (h :: hs). split; [|split].
    + rewrite Erun, <- app_assoc. reflexivity.
    + simpl. now rewrite Hlen.
    + intros [|k] Hk.
      * exists h. split; [reflexivity|]. now rewrite Nat.add_0_r.
      * destruct (Hnth k) as [h' [H1 H2]]; [lia|].
        exists h'. split; [exact H1|].
        now replace (start + S k) with (S start + k) by lia.
Qed.

Lemma hypotheses_loop_raises (batches : list (list Packaged.BatchHypothesis))
    (len : nat) :
  forall (start : nat) (acc : list FloatScores.Hyp),
    0 < len ->
    (exists b, In b batches /\ List.length b < start + len) ->
    for_each
      (fun value_hypotheses i =>
         hypothesis <- Packaged.build_hypothesis batches i ;;
         Ok (value_hypotheses ++ [hypothesis]))
      (seq start len) acc = Raise IndexError.
Proof.
  induction len as [|len IH]; intros start acc Hpos [b [Hb Hlen]]; [lia|].
  simpl.
  destruct (build_hypothesis_cases batches start)
    as [[Hall [h [Eh _]]]|[_ Eraise]].
  - rewrite Eh. simpl. specialize (Hall b Hb).
    apply IH; [lia|]. exists b. split; [exact Hb|lia].
  - now rewrite Eraise.
Qed.

(** The sum of the scores is a float sum: its result depends on the
    order of the additions, so the order of the code is part of what it
    returns. *)
Example float_sum_order :
  fold_left PrimFloat.add [Sample.two_53; Sample.one; Sample.one]
    PrimFloat.zero = Sample.two_53 /\
  fold_right PrimFloat.add PrimFloat.zero
    [Sample.two_53; Sample.one; Sample.one] <> Sample.two_53.
Proof.
  split; [vm_compute; reflexivity|].
  intros H.
  apply (f_equal (fun x => PrimFloat.eqb x Sample.two_53)) in H.
  vm_compute in H. discriminate H.
Qed.

(** X15. When the translator returns at least [n] entries for every
    sentence, [apply_packaged_translation] returns exactly [n]
    hypotheses; the score of hypothesis [i] is the float sum of the
    scores of the sentences' entries [i], added one after the other to 0
    in the order of the sentences, each addition rounded, and its value
    is made of the tokens of these entries, joined in the order of the
    sentences, with the tokenizer's marks replaced by spaces and one
    leading space removed. *)
Theorem apply_packaged_translation_returns (E : Packaged.Engine)
    (pkg : Package) (input_text : string) (n : nat) :
  let batches :=
    Packaged.translate_batch E pkg
      (map (Packaged.encode E pkg) (Packaged.sentences_of E input_text))
      (Nat.max n 4) n in
  (forall b, In b batches -> n <= List.length b) ->
  exists hs,
    Packaged.apply_packaged_translation E pkg input_text n = Ok hs /\
    List.length hs = n /\
    forall i, i < n ->
      exists h,
        nth_error hs i = Some h /\
        FloatScores.score h =
        fold_left PrimFloat.add (sentence_scores batches i) PrimFloat.zero /\
        FloatScores.value h =
        Packaged.drop_leading_space
          (Packaged.replace Packaged.mark " "
             (String.concat "" (sentence_tokens batches i))).
Proof.
  intros batches H.
  destruct (hypotheses_loop batches n 0 [] H) as [hs [Erun [Hlen Hnth]]].
  exists hs. split; [exact Erun|]. split; [exact Hlen|].
  intros i Hi. destruct (Hnth i Hi) as [h [H1 H2]].
  exists h. split; [exact H1|]. simpl in H2.
  destruct (build_hypothesis_cases batches i)
    as [[_ [h' [Eh Hs]]]|[_ Eraise]]; [|congruence].
  rewrite Eh in H2. injection H2 as <-. exact Hs.
Qed.

Lemma apply_packaged_translation_returns_witness :
  exists hs,
    Packaged.apply_packaged_translation Sample.two_sentence_engine
      (Sample.pkg "es" "en") "hola" 2 = Ok hs /\
    List.length hs = 2 /\
    map FloatScores.score hs = [Sample.minus_3; Sample.minus_6_5] /\
    map FloatScores.value hs = ["hola en hola en"; "hola? hola?"].
Proof.
  destruct (apply_packaged_translation_returns Sample.two_sentence_engine
              (Sample.pkg "es" "en") "hola" 2) as [hs [E [Hlen _]]].
  - intros b Hb. vm_compute in Hb. destruct Hb as [<-|[<-|[]]]; simpl; lia.
  - pose proof E as E'. vm_compute in E'. injection E' as <-.
    eexists. split; [exact E|]. split; [exact Hlen|].
    split; vm_compute; reflexivity.
Defined.

(** X16. When some sentence has fewer than [n] entries in what the
    translator returns, [apply_packaged_translation] raises
    [IndexError]: it returns no shorter list of hypotheses. *)
Theorem apply_packaged_translation_raises (E : Packaged.Engine)
    (pkg : Package) (input_text : string) (n : nat) :
  let batches :=
    Packaged.translate_batch E pkg
      (map (Packaged.encode E pkg) (Packaged.sentences_of E input_text))
      (Nat.max n 4) n in
  (exists b, In b batches /\ List.length b < n) ->
  Packaged.apply_packaged_translation E pkg input_text n = Raise IndexError.
Proof.
  intros batches [b [Hb Hlen]].
  apply (hypotheses_loop_raises batches n 0 []); [lia|].
  now exists b.
Qed.

Lemma apply_packaged_translation_raises_witness :
  Packaged.apply_packaged_translation Sample.engine (Sample.pkg "es" "en")
    "hola" 3 = Raise IndexError.
Proof.
  apply (apply_packaged_translation_raises Sample.engine
           (Sample.pkg "es" "en") "hola" 3).
  eexists. split; [left; reflexivity|]. simpl. lia.
Defined.

(** ** Detokenization *)

Lemma concat_empty_cons (x : string) (xs : list string) :
  String.concat "" (x :: xs) = (x ++ String.concat "" xs)%string.
Proof.
  destruct xs as [|y ys]; simpl; [|reflexivity].
  induction x as [|c x IH]; simpl; [reflexivity|]. now rewrite <- IH.
Qed.

Lemma string_app_assoc (a b c : string) :
  ((a ++ b) ++ c)%string = (a ++ (b ++ c))%string.
Proof. induction a as [|x a IH]; simpl; [reflexivity|]. now rewrite IH. Qed.

Lemma prefix_mark_other (c : ascii) (s : string) :
  c <> "226"%char -> String.prefix Packaged.mark (String c s) = false.
Proof.
  intros Hc. unfold Packaged.mark. cbn -[ascii_dec].
  destruct (ascii_dec "226" c) as [E|_]; [|reflexivity].
  exfalso. apply Hc. now symmetry.
Qed.

Lemma prefix_app (a s : string) : String.prefix a (a ++ s) = true.
Proof.
  induction a as [|c a IH]; cbn -[ascii_dec]; [now destruct s|].
  destruct (ascii_dec c c) as [_|H]; [exact IH|now destruct H].
Qed.

Lemma replace_plain_app (new w s : string) :
  plain w ->
  Packaged.replace Packaged.mark new (w ++ s) =
  (w ++ Packaged.replace Packaged.mark new s)%string.
Proof.
  unfold Packaged.replace. induction w as [|c w IH]; intros Hp;
    [reflexivity|].
  destruct Hp as [Hc Hp].
  change (Packaged.replace_from Packaged.mark new 0 (String c w ++ s))
    with (if String.prefix Packaged.mark (String c (w ++ s))
          then (new ++ Packaged.replace_from Packaged.mark new
                         (String.length Packaged.mark - 1) (w ++ s))%string
          else String c (Packaged.replace_from Packaged.mark new 0 (w ++ s))).
  rewrite (prefix_mark_other c (w ++ s) Hc), (IH Hp). reflexivity.
Qed.

Lemma replace_mark_app (new s : string) :
  Packaged.replace Packaged.mark new (Packaged.mark ++ s) =
  (new ++ Packaged.replace Packaged.mark new s)%string.
Proof.
  unfold Packaged.replace.
  change (Packaged.replace_from Packaged.mark new 0 (Packaged.mark ++ s))
    with (if String.prefix Packaged.mark (Packaged.mark ++ s)
          then (new ++ Packaged.replace_from Packaged.mark new 0 s)%string
          else String "226"
                 (Packaged.replace_from Packaged.mark new 0
                    (String "150" (String "129" s)))).
  now rewrite prefix_app.
Qed.

Lemma replace_tokens (ws : list (bool * string)) :
  (forall bw, In bw ws -> plain (snd bw)) ->
  Packaged.replace Packaged.mark " "
    (String.concat "" (map (fun bw => token (fst bw) (snd bw)) ws)) =
  String.concat "" (map (fun bw => spaced (fst bw) (snd bw)) ws).
Proof.
  induction ws as [|[b w] ws IH]; intros Hp; [reflexivity|].
  cbn [map fst snd]. rewrite !concat_empty_cons.
  assert (Hw : plain w) by (apply (Hp (b, w)); now left).
  assert (IH' := IH (fun bw H => Hp bw (or_intror H))).
  destruct b.
  - change (token true w) with (Packaged.mark ++ w)%string.
    change (spaced true w) with (" " ++ w)%string.
    rewrite string_app_assoc, replace_mark_app, replace_plain_app by exact Hw.
    rewrite IH'. now rewrite string_app_assoc.
  - change (token false w) with w. change (spaced false w) with w.
    rewrite replace_plain_app by exact Hw. now rewrite IH'.
Qed.

(** X17. Detokenization: for tokens that are pieces of text, marked or
    not with the tokenizer's word-boundary mark, and whose text does not
    contain the first byte of the mark, replacing the marks in the
    joined tokens gives the pieces joined with a space in front of each
    marked one; and when the first token is marked, the value of the
    hypothesis is that text without its leading space. *)
Theorem detokenize_tokens (ws : list (bool * string)) :
  (forall bw, In bw ws -> plain (snd bw)) ->
  Packaged.replace Packaged.mark " "
    (String.concat "" (map (fun bw => token (fst bw) (snd bw)) ws)) =
  String.concat "" (map (fun bw => spaced (fst bw) (snd bw)) ws) /\
  forall w rest,
    ws = (true, w) :: rest ->
    Packaged.drop_leading_space
      (Packaged.replace Packaged.mark " "
         (String.concat "" (map (fun bw => token (fst bw) (snd bw)) ws))) =
    (w ++ String.concat "" (map (fun bw => spaced (fst bw) (snd bw)) rest))%string.
Proof.
  intros Hp. split; [now apply replace_tokens|].
  intros w rest ->. rewrite (replace_tokens _ Hp).
  cbn [map fst snd]. rewrite concat_empty_cons. reflexivity.
Qed.

Lemma detokenize_tokens_witness :
  Packaged.drop_leading_space
    (Packaged.replace Packaged.mark " "
       (String.concat ""
          (map (fun bw => token (fst bw) (snd bw))
             [(true, "Hola"); (true, "mun"); (false, "do")]))) =
  ("Hola" ++
   String.concat ""
     (map (fun bw => spaced (fst bw) (snd bw)) [(true, "mun"); (false, "do")]))%string.
Proof.
  apply (proj2 (detokenize_tokens
                  [(true, "Hola"); (true, "mun"); (false, "do")]
                  ltac:(intros bw [<-|[<-|[<-|[]]]]; simpl;
                        repeat split; discriminate))
           "Hola" [(true, "mun"); (false, "do")] eq_refl).
Defined.
